(** * The source-analysis engine of [tools/libs/ts.js]

    A shallow embedding of the doclet-aware information model that the
    documentation tooling builds from TypeScript syntax trees, together with
    the properties its specification states:

    - the text/range utility ([changeSourceCode]),
    - the import classifier ([sanitizeText], [getImportInfo]),
    - the doclet parser ([getDocletsBetween], [getDocletInfosBetween]),
    - the type resolver ([resolveType]),
    - the inheritance flattener ([extractTypes], [extractInfo],
      [autoExtendInfo]),
    - the object-level copy [newCodeInfo] on a store of JavaScript objects.

    The TypeScript parser, [node:path] and [node:fs] are outside the
    repository; they enter the development as explicit values: parse-tree
    nodes, a [Host] record with the path functions and the table of syntax
    kinds, and a finite map from paths to classified file contents. *)

From Stdlib Require Import ZArith Ascii String List Lia.
From Stdlib Require Import Sorting.Sorted Sorting.Permutation.
From stdpp Require Import gmap strings list fin_maps pretty.

(** ** JavaScript strings

    A JavaScript string is modelled as a [string]; offsets are [Z], since
    the source passes arbitrary numbers to [substring], which clamps them
    to the range of the string. *)

Module JS.

Fixpoint take (n : nat) (s : string) : string :=
  match n, s with
  | S n', String c s' => String c (take n' s')
  | _, _ => EmptyString
  end.

Fixpoint drop (n : nat) (s : string) : string :=
  match n, s with
  | S n', String _ s' => drop n' s'
  | _, _ => s
  end.

(** [s.substring(0, e)]: a negative [e] counts as 0, an [e] past the end as
    the length. *)
Definition substringTo (e : Z) (s : string) : string := take (Z.to_nat e) s.

(** [s.substring(b)]. *)
Definition substringFrom (b : Z) (s : string) : string := drop (Z.to_nat b) s.

(** [s.substring(b, e)]: both indices are clamped, and swapped when
    [b > e]. *)
Definition substring (b e : Z) (s : string) : string :=
  let b' := Z.to_nat b in
  let e' := Z.to_nat e in
  take (Nat.max b' e' - Nat.min b' e') (drop (Nat.min b' e') s).

End JS.

(** ** Text/Range utility: [changeSourceCode] *)

(** A replacement is the triple [[start, end, text]]. *)
Definition Replacement : Type := Z * Z * string.

Definition rstart (r : Replacement) : Z := r.1.1.
Definition rend (r : Replacement) : Z := r.1.2.
Definition rtext (r : Replacement) : string := r.2.

(** [replacements.sort((a, b) => b[0] - a[0])]: [Array.prototype.sort] is
    stable, so the array ends up in descending order of [start], entries
    with the same [start] keeping their relative order.  [insertDesc] puts
    an entry in front of the first one that must not precede it. *)
Fixpoint insertDesc (r : Replacement) (l : list Replacement)
  : list Replacement :=
  match l with
  | [] => [r]
  | h :: t =>
      if (rstart r <? rstart h)%Z then h :: insertDesc r t else r :: h :: t
  end.

Definition sortDesc (l : list Replacement) : list Replacement :=
  foldr insertDesc [] l.

(** The body of the [for] loop: one edit applied to the current text. *)
Definition applyReplacement (sourceCode : string) (replacement : Replacement)
  : string :=
  JS.substringTo (rstart replacement) sourceCode
  +:+ rtext replacement
  +:+ JS.substringFrom (rend replacement) sourceCode.

(** [changeSourceCode(sourceCode, replacements)].  The argument may be
    absent ([None]).  The function sorts the argument array in place, so the
    result is a pair: the returned text, and the contents of the caller's
    array when the call returns. *)
Definition changeSourceCode (sourceCode : string)
    (replacements : option (list Replacement))
  : string * option (list Replacement) :=
  match replacements with
  | None => (sourceCode, None)
  | Some [] => (sourceCode, Some [])
  | Some rs =>
      let sorted := sortDesc rs in
      (fold_left applyReplacement sorted sourceCode, Some sorted)
  end.

(** The older copy, [tools/lib/ts.js], carries the same function, line for
    line. *)
Module Lib.

Definition changeSourceCode (sourceCode : string)
    (replacements : option (list Replacement))
  : string * option (list Replacement) :=
  match replacements with
  | None => (sourceCode, None)
  | Some [] => (sourceCode, Some [])
  | Some rs =>
      let sorted := sortDesc rs in
      (fold_left applyReplacement sorted sourceCode, Some sorted)
  end.

End Lib.

(** *** The rewriting read against the original text

    This second definition follows the words of the specification: the
    edits, taken in ascending order, cut the original text into the pieces
    between them; every offset is an offset into the original. *)
Fixpoint spliceOriginal (original : string) (pos : nat)
    (ascending : list Replacement) : string :=
  match ascending with
  | [] => JS.drop pos original
  | r :: rest =>
      JS.take (Z.to_nat (rstart r) - pos) (JS.drop pos original)
      +:+ rtext r
      +:+ spliceOriginal original (Z.to_nat (rend r)) rest
  end.

(** Edits in ascending order that lie inside the text and do not overlap:
    each starts at or after [pos], where the previous one ended. *)
Fixpoint wellPlaced (len : Z) (pos : Z) (ascending : list Replacement)
  : Prop :=
  match ascending with
  | [] => (pos <= len)%Z
  | r :: rest =>
      (pos <= rstart r)%Z /\ (rstart r <= rend r)%Z /\
      wellPlaced len (rend r) rest
  end.

Definition descByStart (a b : Replacement) : Prop := (rstart b <= rstart a)%Z.


(** More string primitives used by the classifier and the doclet parser. *)
Module JSText.

Definition isWhiteSpace (c : ascii) : bool :=
  let n := nat_of_ascii c in
  ((9 <=? n) && (n <=? 13) || (n =? 32))%nat.

Fixpoint trimStart (s : string) : string :=
  match s with
  | String c s' => if isWhiteSpace c then trimStart s' else s
  | EmptyString => EmptyString
  end.

(** [trimEnd] keeps a character when it is not white space or when
    something remains after it. *)
Fixpoint trimEnd (s : string) : string :=
  match s with
  | String c s' =>
      match trimEnd s' with
      | EmptyString => if isWhiteSpace c then EmptyString
                       else String c EmptyString
      | rest => String c rest
      end
  | EmptyString => EmptyString
  end.

(** [s.trim()], on the white space of the ASCII range. *)
Definition trim (s : string) : string := trimEnd (trimStart s).

(** [parts.join(sep)]. *)
Fixpoint join (sep : string) (parts : list string) : string :=
  match parts with
  | [] => EmptyString
  | [p] => p
  | p :: rest => p +:+ sep +:+ join sep rest
  end.

Definition lineFeed : ascii := ascii_of_nat 10.

Definition nl : string := String lineFeed EmptyString.

(** [s.endsWith]-style access to the last character. *)
Fixpoint last (s : string) : option ascii :=
  match s with
  | EmptyString => None
  | String c EmptyString => Some c
  | String _ s' => last s'
  end.

(** A truthy string is a non-empty one. *)
Definition truthy (s : string) : bool :=
  match s with EmptyString => false | _ => true end.

End JSText.

(** ** The information model

    Every info record is a JavaScript object with a [kind] discriminator
    and a set of optional fields; one record type with optional fields
    mirrors that.  Fields the engine never sets on a kind stay [None]. *)

Inductive Kind : Set :=
| KClass | KDeconstruct | KDoclet | KExport | KFunction | KImport
| KInterface | KObject | KProperty | KVariable.

#[global] Instance Kind_eq_dec : EqDecision Kind.
Proof. solve_decision. Defined.

Definition isKind (a b : Kind) : bool := bool_decide (a = b).

(** [MetaInfo]: position of the node the record was made from. *)
Record MetaInfo : Set := {
  meta_begin : Z;
  meta_end : Z;
  meta_overhead : Z;
  meta_syntax : Z
}.

(** The [extends] field is a string in the older records and an array of
    strings in the records of [getClassInfo] and [getInterfaceInfo]. *)
Inductive Extends : Set :=
| ExtendsString (s : string)
| ExtendsArray (l : list string).

(** A [Record<string, ...>] object as the list of its own keys, in
    insertion order (the order of [for ... in] and [Object.keys]), each with
    its value.  Keys are distinct. *)
Definition Dict (V : Type) : Type := list (string * V).

#[warnings="-register-all"]
Inductive CodeInfo : Type := mkInfo {
  kind : Kind;
  name : option string;
  extends : option Extends;
  implements : option (list string);
  generics : option (list CodeInfo);
  properties : option (list CodeInfo);
  parameters : option (list CodeInfo);
  return_ : option string;
  type_ : option string;
  value : option (string + CodeInfo);
  from : option string;
  imports : option (Dict string);
  object : option CodeInfo;
  deconstructs : option (Dict string);
  tags : option (Dict (list string));
  doclet : option CodeInfo;
  inherited : option bool;
  flags : option (list string);
  meta : option MetaInfo
}.

(** The object literal [{ kind: k }], every other field absent. *)
Definition emptyInfo (k : Kind) : CodeInfo :=
  mkInfo k None None None None None None None None None None None None None
         None None None None None.

Record SourceInfo : Type := {
  path : string;
  code : list CodeInfo
}.

(** [ResolvedInfo].  The object is created with [resolvedInfo] undefined,
    but it is returned only after that field has been assigned, so the
    returned record always carries the declaration. *)
Record ResolvedInfo : Type := {
  resolved_path : string;
  resolvedInfo : CodeInfo;
  resolvedPath : string;
  resolved_type : string
}.

(** ** Parse-tree nodes

    The part of the TypeScript parse tree that [getImportInfo] and the
    doclet parser read. *)

Record NodeBase : Type := {
  (** the identity of the node object, for [startNode === endNode] *)
  nodeId : nat;
  syntaxKind : Z;
  getFullStart : Z;
  getStart : Z;
  getEnd : Z;
  canHaveModifiers : bool;
  (** each modifier: is it a decorator, and its text *)
  modifiers : list (bool * string)
}.

(** [node.comment] of a JSDoc node: a string, or an array of parts of which
    the [text] is read. *)
Inductive JSDocComment : Type :=
| CommentText (s : string)
| CommentParts (texts : list string).

(** A JSDoc tag: [tag.tagName.text] and [tag.getText()]. *)
Record JSDocTag : Type := {
  tagNameText : string;
  tagGetText : string
}.

#[warnings="-register-all"]
Inductive Node : Type :=
| ImportDeclaration (base : NodeBase) (moduleSpecifierText : string)
    (importClause : option (list Node))
| JSDoc (base : NodeBase) (comment : option JSDocComment)
    (docTags : option (list JSDocTag))
| Identifier (base : NodeBase) (text : string)
| NamedImports (base : NodeBase) (children : list Node)
| ImportSpecifier (base : NodeBase) (propertyName : option string)
    (nameText : string)
| NamespaceImport (base : NodeBase) (nameText : string)
| OtherNode (base : NodeBase).

Definition nodeBase (n : Node) : NodeBase :=
  match n with
  | ImportDeclaration b _ _ | JSDoc b _ _ | Identifier b _ | NamedImports b _
  | ImportSpecifier b _ _ | NamespaceImport b _ | OtherNode b => b
  end.

(** ** Node classifier: imports *)

Definition isQuote (c : ascii) : bool :=
  let n := nat_of_ascii c in ((n =? 39) || (n =? 34) || (n =? 96))%nat.

(** [sanitizeText]: [text.replace(SANITIZE_TEXT, '$2')], where the pattern
    is: start of text, an optional quote character (single, double or
    backtick) as group 1, any text as group 2, group 1 again, end of text.
    The pattern matches the whole text; the first group takes an opening
    quote only when the text also ends with that quote, one character
    later at the earliest. *)
Definition sanitizeText (text : string) : string :=
  match text with
  | String q rest =>
      if isQuote q then
        match JSText.last rest with
        | Some q' =>
            if Ascii.eqb q q'
            then JS.take (String.length rest - 1) rest
            else text
        | None => text
        end
      else text
  | EmptyString => EmptyString
  end.

(** [getInfoFlags]. *)
Definition getInfoFlags (node : Node) : option (list string) :=
  let b := nodeBase node in
  if canHaveModifiers b then
    match (snd <$> filter (fun m => negb m.1 = true) (modifiers b)) with
    | [] => None
    | _flags => Some _flags
    end
  else None.

(** [getInfoMeta]. *)
Definition getInfoMeta (node : Node) : MetaInfo :=
  let b := nodeBase node in
  {| meta_begin := getStart b;
     meta_end := getEnd b;
     meta_overhead := getStart b - getFullStart b;
     meta_syntax := syntaxKind b |}.

(** [obj[key] = v] on a [Dict]: an existing key keeps its place. *)
Fixpoint dictSet {V : Type} (key : string) (v : V) (d : Dict V) : Dict V :=
  match d with
  | [] => [(key, v)]
  | (k, w) :: rest =>
      if String.eqb k key then (k, v) :: rest
      else (k, w) :: dictSet key v rest
  end.

Fixpoint dictGet {V : Type} (key : string) (d : Dict V) : option V :=
  match d with
  | [] => None
  | (k, w) :: rest => if String.eqb k key then Some w else dictGet key rest
  end.

(** The loop over the children of a [NamedImports] clause. *)
Fixpoint namedImportsLoop (children : list Node) (_imports : Dict string)
  : Dict string :=
  match children with
  | [] => _imports
  | ImportSpecifier _ propertyName nameText :: rest =>
      let propertyName' :=
        match propertyName with
        | Some t => if JSText.truthy t then t else nameText
        | None => nameText
        end in
      namedImportsLoop rest (dictSet propertyName' nameText _imports)
  | _ :: rest => namedImportsLoop rest _imports
  end.

(** The loop over the children of the import clause. *)
Fixpoint importClauseLoop (clauses : list Node) (_imports : Dict string)
  : Dict string :=
  match clauses with
  | [] => _imports
  | Identifier _ text :: rest =>
      importClauseLoop rest (dictSet "default" text _imports)
  | NamedImports _ children :: rest =>
      importClauseLoop rest (namedImportsLoop children _imports)
  | _ :: rest => importClauseLoop rest _imports
  end.

(** [getImportInfo(node)] (the optional [node] field of the record, a
    debugging handle, is left out). *)
Definition getImportInfo (node : Node) : option CodeInfo :=
  match node with
  | ImportDeclaration _ moduleSpecifierText importClause =>
      Some (mkInfo KImport None None None None None None None None None
              (Some (sanitizeText moduleSpecifierText))
              (match importClause with
               | Some clauses => Some (importClauseLoop clauses [])
               | None => None
               end)
              None None None None None
              (getInfoFlags node)
              (Some (getInfoMeta node)))
  | _ => None
  end.

(** ** Type resolver *)

(** What the resolver needs from [node:path] and from [./fs]:
    - [resolveFrom sourcePath from] is
      [Path.resolve(Path.dirname(FSLib.path(sourcePath)), FSLib.path(from))],
      [None] when that expression throws;
    - [extname] is [Path.extname]. *)
Record Host : Type := {
  resolveFrom : string -> option string -> option string;
  extname : string -> string;
  (** [TS.SyntaxKind[name] > 0], used by [isNativeType] *)
  syntaxKindPositive : string -> bool
}.

(** The files on disk: a path is mapped to the code list that
    [getSourceInfo(path, FS.readFileSync(path, 'utf8'))] yields, or to
    [None] when the path exists but cannot be read. *)
Abbreviation FileSystem := (gmap string (option (list CodeInfo))).

(** [FS.existsSync]. *)
Definition existsSync (fs : FileSystem) (p : string) : bool :=
  bool_decide (is_Some (fs !! p)).

(** [getSourceInfo(p, FS.readFileSync(p, 'utf8'))]; [None] when the read
    throws. *)
Definition readSourceInfo (fs : FileSystem) (p : string) : option SourceInfo :=
  match fs !! p with
  | Some (Some c) => Some {| path := p; code := c |}
  | _ => None
  end.

(** The [_stack] object: resolved path to the source information loaded
    for it.  The keys are the absolute paths that [Path.resolve] returns;
    none of them is a property that the object inherits. *)
Abbreviation Stack := (gmap string SourceInfo).

(** How a call of [resolveType] ends. *)
Inductive Outcome : Type :=
| Found (r : ResolvedInfo)   (** the [ResolvedInfo] object is returned *)
| NotFound                   (** [undefined] is returned *)
| Thrown.                    (** an exception leaves the function *)

(** The [switch] at the end of the loop body: the declaration a record
    yields for the name, if any. *)
Definition localMatch (info : CodeInfo) (type : string) : option CodeInfo :=
  match kind info with
  | KExport =>
      match object info with
      | Some o =>
          if bool_decide (name info = Some type)
             || bool_decide (name o = Some type)
          then Some o else None
      | None => None
      end
  | KClass | KInterface | KObject | KVariable =>
      if bool_decide (name info = Some type) then Some info else None
  | _ => None
  end.

Section Resolver.

Variable host : Host.
Variable fs : FileSystem.

(** [resolvedPath] without a literal [.js] extension. *)
Definition stripJs (resolvedPath : string) : string :=
  if String.eqb (extname host resolvedPath) ".js"
  then JS.substringTo (Z.of_nat (String.length resolvedPath) - 3) resolvedPath
  else resolvedPath.

(** The extension probe; [None] is the [continue] of the source. *)
Definition probeExtension (resolvedPath : string) : option string :=
  if JSText.truthy (extname host resolvedPath) then Some resolvedPath
  else if existsSync fs (resolvedPath +:+ ".d.ts")
       then Some (resolvedPath +:+ ".d.ts")
  else if existsSync fs (resolvedPath +:+ ".ts")
       then Some (resolvedPath +:+ ".ts")
  else None.

(** The path an import is loaded from: [None] when computing it throws,
    [Some None] when the candidate is skipped. *)
Definition importTarget (sourcePath : string) (from : option string)
  : option (option string) :=
  match resolveFrom host sourcePath from with
  | None => None
  | Some p => Some (probeExtension (stripJs p))
  end.

(** The recursive call [resolveType(resolvedSource, item, _stack)];
    [None] stands for a call that has not returned within the fuel. *)
Variable rec : SourceInfo -> string -> Stack -> option (Outcome * Stack).

(** The inner loop, [for (const item in imports)].  The result is the
    stack and, when the loop leaves the function, the outcome of
    [resolveType]; [(None, _)] means the loop ran to its end. *)
Fixpoint importLoop (sourcePath : string) (from : option string)
    (type : string) (items : Dict string) (_stack : Stack)
  : option (option Outcome * Stack) :=
  match items with
  | [] => Some (None, _stack)
  | (item, local) :: rest =>
      if String.eqb item type || String.eqb local type then
        match importTarget sourcePath from with
        | None => Some (Some Thrown, _stack)
        | Some None => importLoop sourcePath from type rest _stack
        | Some (Some resolvedPath) =>
            if bool_decide (is_Some (_stack !! resolvedPath))
            then Some (Some NotFound, _stack)
            else
              match readSourceInfo fs resolvedPath with
              | None => Some (Some Thrown, _stack)
              | Some resolvedSource =>
                  match rec resolvedSource item
                          (<[resolvedPath := resolvedSource]> _stack) with
                  | None => None
                  | Some (Found resolvedImport, _stack') =>
                      Some (Some (Found
                              {| resolved_path := sourcePath;
                                 resolvedInfo := resolvedInfo resolvedImport;
                                 resolvedPath := resolved_path resolvedImport;
                                 resolved_type := type |}),
                            delete resolvedPath _stack')
                  | Some (NotFound, _stack') =>
                      importLoop sourcePath from type rest _stack'
                  | Some (Thrown, _stack') => Some (Some Thrown, _stack')
                  end
              end
        end
      else importLoop sourcePath from type rest _stack
  end.

(** The import part of the loop body, for one record. *)
Definition importStep (sourcePath : string) (type : string)
    (info : CodeInfo) (_stack : Stack) : option (option Outcome * Stack) :=
  if isKind (kind info) KImport
  then importLoop sourcePath (from info) type
         (default [] (imports info)) _stack
  else Some (None, _stack).

(** The outer loop, [for (const info of sourceInfo.code)]. *)
Fixpoint codeLoop (sourcePath : string) (type : string)
    (code : list CodeInfo) (_stack : Stack) : option (Outcome * Stack) :=
  match code with
  | [] => Some (NotFound, _stack)
  | info :: rest =>
      match importStep sourcePath type info _stack with
      | None => None
      | Some (Some outcome, _stack') => Some (outcome, _stack')
      | Some (None, _stack') =>
          match localMatch info type with
          | Some declaration =>
              Some (Found {| resolved_path := sourcePath;
                             resolvedInfo := declaration;
                             resolvedPath := sourcePath;
                             resolved_type := type |}, _stack')
          | None => codeLoop sourcePath type rest _stack'
          end
      end
  end.

End Resolver.

(** [resolveType(sourceInfo, type, _stack)] with a bound on the depth of
    the recursion; [None] when the bound is reached. *)
Fixpoint resolveTypeFuel (host : Host) (fs : FileSystem) (fuel : nat)
    (sourceInfo : SourceInfo) (type : string) (_stack : Stack)
  : option (Outcome * Stack) :=
  match fuel with
  | O => None
  | S fuel' =>
      codeLoop host fs (resolveTypeFuel host fs fuel')
        (path sourceInfo) type (code sourceInfo) _stack
  end.

(** [resolveType(sourceInfo, type)], called with the default empty stack.
    Every nested call puts a file on the stack that was not there, so the
    depth never exceeds the number of files; [resolveTypeFuel_enough] shows
    that the bound used here is never reached. *)
Definition resolveType (host : Host) (fs : FileSystem)
    (sourceInfo : SourceInfo) (type : string) : Outcome :=
  match resolveTypeFuel host fs (S (size fs)) sourceInfo type ∅ with
  | Some (outcome, _) => outcome
  | None => NotFound
  end.

(** ** Inheritance flattener *)

Definition NATIVE_TYPES : list string :=
  ["Array"; "Function"; "NaN"; "Number"; "Object"; "String"; "Symbol"].

(** The names of [NATIVE_HELPER]; the pattern asks for one of them at the
    start of the text, followed by [<] or by the end of the text. *)
Definition NATIVE_HELPER_NAMES : list string :=
  ["Array"; "Extract"; "Omit"; "Partial"; "Record"; "Require"].

Definition NATIVE_HELPER_test (type : string) : bool :=
  existsb (fun n => String.eqb type n || String.prefix (n +:+ "<") type)
          NATIVE_HELPER_NAMES.

(** A word character of the pattern [\W]: a letter, a digit or the
    underscore. *)
Definition isWordChar (c : ascii) : bool :=
  let n := nat_of_ascii c in
  ((48 <=? n) && (n <=? 57) || (65 <=? n) && (n <=? 90)
   || (97 <=? n) && (n <=? 122) || (n =? 95))%nat.

(** [typeString.split(TYPE_SPLIT)]: the pieces between the maximal runs of
    characters that are not word characters (the dot is one of those).
    [cur] is the piece being read, [inSeparator] tells that the previous
    character belonged to a separator. *)
Fixpoint splitTypes (s : string) (cur : string) (inSeparator : bool)
  : list string :=
  match s with
  | EmptyString => [cur]
  | String c s' =>
      if isWordChar c
      then splitTypes s' (cur +:+ String c EmptyString) false
      else if inSeparator then splitTypes s' cur true
           else cur :: splitTypes s' EmptyString true
  end.

(** [isCapitalCase]: the first character equals its upper-case form.  On
    the word characters that reach this function from [extractTypes], that
    says the first character is not a lower-case letter. *)
Definition isCapitalCase (text : string) : bool :=
  match text with
  | EmptyString => true
  | String c _ =>
      let n := nat_of_ascii c in negb ((97 <=? n) && (n <=? 122))%nat
  end.

Definition includes (l : list string) (x : string) : bool :=
  existsb (String.eqb x) l.

Definition isNativeType (host : Host) (type : string) : bool :=
  (String.length type <? 2)%nat
  || negb (isCapitalCase type)
  || includes NATIVE_TYPES type
  || NATIVE_HELPER_test type
  || syntaxKindPositive host type.

(** The loop of [extractTypes]. *)
Fixpoint extractTypesLoop (host : Host) (includeNativeTypes : bool)
    (parts : list string) (types : list string) : list string :=
  match parts with
  | [] => types
  | part :: rest =>
      if negb includeNativeTypes && isNativeType host part
      then extractTypesLoop host includeNativeTypes rest types
      else if includes types part
           then extractTypesLoop host includeNativeTypes rest types
           else extractTypesLoop host includeNativeTypes rest (types ++ [part])
  end.

Definition extractTypes (host : Host) (typeString : string)
    (includeNativeTypes : bool) : list string :=
  extractTypesLoop host includeNativeTypes
    (splitTypes typeString EmptyString false) [].

(** The kinds [extractInfo] looks at. *)
Definition isNamedKind (k : Kind) : bool :=
  match k with
  | KClass | KFunction | KInterface | KProperty | KVariable => true
  | _ => false
  end.

(** [extractInfo(arr, name)]: the records of a named kind whose [name] is
    [name], or [undefined] when there is none.  [name] is the value of a
    [name] field and may itself be undefined. *)
Definition extractInfo (arr : list CodeInfo) (name' : option string)
  : option (list CodeInfo) :=
  match filter (fun info => isNamedKind (kind info) = true
                            /\ name info = name') arr with
  | [] => None
  | extractions => Some extractions
  end.

(** [newCodeInfo(template)] on the value of a record: arrays of records
    and nested records are rebuilt, everything else is taken over.  On
    values the copy and the template are equal; what the copy shares with
    the template as objects is the subject of [Store.newCodeInfo]. *)
Fixpoint newCodeInfo (template : CodeInfo) : CodeInfo :=
  match template with
  | mkInfo k n e i g p pa r t v f im o d tg dc inh fl m =>
      mkInfo k n e i
        (option_map (map newCodeInfo) g)
        (option_map (map newCodeInfo) p)
        (option_map (map newCodeInfo) pa)
        r t
        (match v with
         | Some (inr x) => Some (inr (newCodeInfo x))
         | other => other
         end)
        f im
        (option_map newCodeInfo o)
        d tg
        (option_map newCodeInfo dc)
        inh fl m
  end.

(** [property.inherited = true]. *)
Definition setInherited (property : CodeInfo) : CodeInfo :=
  match property with
  | mkInfo k n e i g p pa r t v f im o d tg dc _ fl m =>
      mkInfo k n e i g p pa r t v f im o d tg dc (Some true) fl m
  end.

(** [info.properties.push(property)], for a record that has the array. *)
Definition pushProperty (info : CodeInfo) (own : list CodeInfo)
    (property : CodeInfo) : CodeInfo :=
  match info with
  | mkInfo k n e i g _ pa r t v f im o d tg dc inh fl m =>
      mkInfo k n e i g (Some (own ++ [property])) pa r t v f im o d tg dc
             inh fl m
  end.

(** How a call of [autoExtendInfo] ends: with a returned value
    ([None] for [undefined]) or with an exception. *)
Inductive ExtendOutcome : Type :=
| Returns (v : option CodeInfo)
| ExtendThrown.

(** The loop over the properties of one resolved base.  The first
    component is [infoToExtend] as the loop leaves it; the flag tells
    whether the loop ran to its end ([false]: a [TypeError], raised when
    [infoToExtend.properties] is not iterable). *)
Fixpoint inheritLoop (baseProperties : list CodeInfo)
    (infoToExtend : CodeInfo) : CodeInfo * bool :=
  match baseProperties with
  | [] => (infoToExtend, true)
  | property :: rest =>
      match properties infoToExtend with
      | None => (infoToExtend, false)
      | Some own =>
          match extractInfo own (name property) with
          | Some _ => inheritLoop rest infoToExtend
          | None =>
              inheritLoop rest
                (pushProperty infoToExtend own
                   (setInherited (newCodeInfo property)))
          end
      end
  end.

(** The first loop of [autoExtendInfo]: the names to resolve, in the order
    of discovery and without repetition. *)
Fixpoint gatherLoop (extractedTypes : list string)
    (extendsToDo : list string) : list string :=
  match extractedTypes with
  | [] => extendsToDo
  | extractedType :: rest =>
      if includes extendsToDo extractedType
      then gatherLoop rest extendsToDo
      else gatherLoop rest (extendsToDo ++ [extractedType])
  end.

Definition gatherExtends (host : Host) (infoToExtend : CodeInfo)
  : list string :=
  match extends infoToExtend with
  | None => []
  | Some (ExtendsString s) =>
      if JSText.truthy s then gatherLoop (extractTypes host s false) []
      else []
  | Some (ExtendsArray extendsTypes) =>
      fold_left (fun extendsToDo extendsType =>
                   gatherLoop (extractTypes host extendsType false)
                              extendsToDo)
                extendsTypes []
  end.

Section Flattener.

Variable host : Host.
Variable fs : FileSystem.
Variable sourceInfo : SourceInfo.

(** Records are values here, objects in the source.  The one place where
    the difference shows is a base name that resolves to the object
    [infoToExtend] itself (as in [class Foo extends Base<Foo>], where
    every name of the base expression is looked up, [Foo] in the file of
    the class): the source then iterates over the array it is appending
    to.  Which names resolve to
    that object is given by [resolvesToSelf]. *)
Variable resolvesToSelf : string -> bool.

(** The loop over [resolvedInfo.properties] when [resolvedInfo] is the
    object [infoToExtend]: the array iterator, at position [index], sees
    the records pushed meanwhile.  The loop need not end, so it is bounded
    by [fuel]; [None] when the bound is reached. *)
Fixpoint inheritLive (fuel : nat) (index : nat) (infoToExtend : CodeInfo)
  : option (CodeInfo * bool) :=
  match fuel with
  | O => None
  | S fuel' =>
      match properties infoToExtend with
      | None => Some (infoToExtend, false)
      | Some own =>
          match own !! index with
          | None => Some (infoToExtend, true)
          | Some property =>
              match extractInfo own (name property) with
              | Some _ => inheritLive fuel' (S index) infoToExtend
              | None =>
                  inheritLive fuel' (S index)
                    (pushProperty infoToExtend own
                       (setInherited (newCodeInfo property)))
              end
          end
      end
  end.

Definition isClassOrInterface (info : CodeInfo) : bool :=
  isKind (kind info) KClass || isKind (kind info) KInterface.

(** The second loop of [autoExtendInfo], over [extendsToDo]. *)
Fixpoint extendLoop (fuel : nat) (extendsToDo : list string)
    (infoToExtend : CodeInfo) : option (CodeInfo * ExtendOutcome) :=
  match extendsToDo with
  | [] => Some (infoToExtend, Returns None)
  | extendType :: rest =>
      match resolveType host fs sourceInfo extendType with
      | NotFound => Some (infoToExtend, Returns None)
      | Thrown => Some (infoToExtend, ExtendThrown)
      | Found resolvedExtendType =>
          if resolvesToSelf extendType then
            if isClassOrInterface infoToExtend then
              match inheritLive fuel 0 infoToExtend with
              | None => None
              | Some (infoToExtend', true) =>
                  extendLoop fuel rest infoToExtend'
              | Some (infoToExtend', false) =>
                  Some (infoToExtend', ExtendThrown)
              end
            else extendLoop fuel rest infoToExtend
          else
            let resolved := resolvedInfo resolvedExtendType in
            if isClassOrInterface resolved then
              match properties resolved with
              | None => Some (infoToExtend, ExtendThrown)
              | Some baseProperties =>
                  match inheritLoop baseProperties infoToExtend with
                  | (infoToExtend', true) =>
                      extendLoop fuel rest infoToExtend'
                  | (infoToExtend', false) =>
                      Some (infoToExtend', ExtendThrown)
                  end
              end
            else extendLoop fuel rest infoToExtend
      end
  end.

(** [autoExtendInfo(sourceInfo, infoToExtend)]: the record as the call
    leaves it, and how the call ends; [None] when a loop over the record's
    own array has not ended within [fuel].  The function has no [return]
    with a value: a call that does not throw returns [undefined]. *)
Definition autoExtendInfo (fuel : nat) (infoToExtend : CodeInfo)
  : option (CodeInfo * ExtendOutcome) :=
  extendLoop fuel (gatherExtends host infoToExtend) infoToExtend.

End Flattener.

(** ** Doclet parser *)

(** [newDocletInfo()], without a template. *)
Definition newDocletInfo : CodeInfo :=
  mkInfo KDoclet None None None None None None None None None None None None
         None (Some []) None None None None.

Definition setTags (doclet : CodeInfo) (tags' : Dict (list string))
  : CodeInfo :=
  match doclet with
  | mkInfo k n e i g p pa r t v f im o d _ dc inh fl m =>
      mkInfo k n e i g p pa r t v f im o d (Some tags') dc inh fl m
  end.

Definition setMeta (info : CodeInfo) (m' : MetaInfo) : CodeInfo :=
  match info with
  | mkInfo k n e i g p pa r t v f im o d tg dc inh fl _ =>
      mkInfo k n e i g p pa r t v f im o d tg dc inh fl (Some m')
  end.

(** [addTag(doclet, tag, text)]: the tag gets an array if it has none, and
    a truthy text is pushed onto it.  [None] is the [TypeError] raised for
    a doclet without [tags]. *)
Definition addTag (doclet : CodeInfo) (tag : string) (text : string)
  : option CodeInfo :=
  match tags doclet with
  | None => None
  | Some tags' =>
      let existing := default [] (dictGet tag tags') in
      Some (setTags doclet
              (dictSet tag
                 (if JSText.truthy text then existing ++ [text]
                  else existing)
                 tags'))
  end.

Definition isChar (n : nat) (c : ascii) : bool := (nat_of_ascii c =? n)%nat.

Definition slash : nat := 47.
Definition asterisk : nat := 42.
Definition space : nat := 32.

(** [text.matchAll(DOCLET)]: every block that opens with slash-star-star
    and runs to the first star-slash after the opening, from left to
    right and without overlap.  [opened] holds the text of the block being
    read. *)
Fixpoint matchDoclets (s : string) (opened : option string) : list string :=
  match opened, s with
  | _, EmptyString => []
  | None, String c1 s1 =>
      match s1 with
      | String c2 (String c3 rest) =>
          if isChar slash c1 && isChar asterisk c2 && isChar asterisk c3
          then matchDoclets rest
                 (Some (String c1 (String c2 (String c3 EmptyString))))
          else matchDoclets s1 None
      | _ => matchDoclets s1 None
      end
  | Some block, String c1 s1 =>
      match s1 with
      | String c2 rest =>
          if isChar asterisk c1 && isChar slash c2
          then (block +:+ String c1 (String c2 EmptyString))
                 :: matchDoclets rest None
          else matchDoclets s1 (Some (block +:+ String c1 EmptyString))
      | EmptyString => []
      end
  end.

(** [text.split(/\n *\*?/gu)]: a separator is a line feed, the spaces
    after it, and one asterisk if it follows.  [afterLineFeed] tells that
    the characters read last are the line feed and spaces of a separator
    that may still take its asterisk. *)
Fixpoint splitGutter (s : string) (cur : string) (afterLineFeed : bool)
  : list string :=
  match s with
  | EmptyString => [cur]
  | String c s' =>
      if isChar 10 c then cur :: splitGutter s' EmptyString true
      else if afterLineFeed && isChar space c
           then splitGutter s' cur true
      else if afterLineFeed && isChar asterisk c
           then splitGutter s' cur false
      else splitGutter s' (cur +:+ String c EmptyString) false
  end.

(** The text stored for one tag. *)
Definition tagText (tag : JSDocTag) : string :=
  JSText.trim
    (JSText.join JSText.nl
       (splitGutter
          (JSText.trim
             (JS.substringFrom
                (Z.of_nat (String.length (tagNameText tag)) + 1)
                (JSText.trim (tagGetText tag))))
          EmptyString false)).

(** The text stored as the description. *)
Definition descriptionText (comment : JSDocComment) : string :=
  match comment with
  | CommentParts texts => JSText.trim (JSText.join JSText.nl texts)
  | CommentText s => JSText.trim s
  end.

Definition commentTruthy (comment : option JSDocComment) : bool :=
  match comment with
  | None => false
  | Some (CommentText s) => JSText.truthy s
  | Some (CommentParts _) => true
  end.

(** The loop over [node.tags]. *)
Fixpoint tagsLoop (docTags : list JSDocTag) (_doclet : CodeInfo)
  : option CodeInfo :=
  match docTags with
  | [] => Some _doclet
  | tag :: rest =>
      match addTag _doclet (tagNameText tag) (tagText tag) with
      | Some _doclet' => tagsLoop rest _doclet'
      | None => None
      end
  end.

(** The loop over the nodes of one doclet. *)
Fixpoint docletLoop (nodes : list Node) (_doclet : CodeInfo)
  : option CodeInfo :=
  match nodes with
  | [] => Some _doclet
  | (JSDoc _ comment docTags) as node :: rest =>
      match (match comment with
             | Some c =>
                 if commentTruthy comment
                 then addTag _doclet "description" (descriptionText c)
                 else Some _doclet
             | None => Some _doclet
             end) with
      | None => None
      | Some _doclet1 =>
          match docTags with
          | Some tags' =>
              match tagsLoop tags' _doclet1 with
              | Some _doclet2 =>
                  docletLoop rest (setMeta _doclet2 (getInfoMeta node))
              | None => None
              end
          | None => docletLoop rest _doclet1
          end
      end
  | _ :: rest => docletLoop rest _doclet
  end.

Section DocletParser.

(** The TypeScript parser on the scratch file: for the text of the
    file, the result of [TS.getJSDocCommentsAndTags] on each child of the
    parsed source file, in order. *)
Variable parseDocletParts : string -> list (list Node).

(** The statement put after every doclet block of the scratch file. *)
Definition scratchSuffix : string := JSText.nl +:+ "'';" +:+ JSText.nl.

(** [getDocletsBetween(startNode, endNode)]; [fullText] is
    [startNode.getSourceFile().getFullText()]. *)
Definition getDocletsBetween (fullText : string)
    (startNode endNode : Node) : list (list Node) :=
  let end_ := getStart (nodeBase endNode) in
  let start :=
    if (nodeId (nodeBase startNode) =? nodeId (nodeBase endNode))%nat
    then getFullStart (nodeBase startNode)
    else getEnd (nodeBase startNode) in
  filter (fun parts => parts <> [])
    (parseDocletParts
       (JSText.join EmptyString
          ((fun m => m +:+ scratchSuffix)
             <$> matchDoclets (JS.substring start end_ fullText) None))).

(** The loop of [getDocletInfosBetween] over the doclets. *)
Fixpoint docletsLoop (doclets : list (list Node)) : option (list CodeInfo) :=
  match doclets with
  | [] => Some []
  | doclet :: rest =>
      match docletLoop doclet newDocletInfo, docletsLoop rest with
      | Some _doclet, Some _doclets => Some (_doclet :: _doclets)
      | _, _ => None
      end
  end.

(** [getDocletInfosBetween(startNode, endNode)]; [None] would be a
    [TypeError] of [addTag]. *)
Definition getDocletInfosBetween (fullText : string)
    (startNode endNode : Node) : option (list CodeInfo) :=
  docletsLoop (getDocletsBetween fullText startNode endNode).

End DocletParser.

(** ** Records as JavaScript objects

    Whether two records share a tag map is a question about objects, not
    about values.  This module models the objects: a store of plain
    objects and arrays, addressed by location, and on it the functions
    [newCodeInfo] and [addTag] as the source has them. *)
Module Store.

Definition loc := nat.

Inductive value : Type :=
| VUndefined
| VNull
| VBool (b : bool)
| VNumber (z : Z)
| VString (s : string)
| VRef (l : loc).

(** A plain object with its own keys in insertion order, or an array. *)
Inductive object : Type :=
| Obj (fields : Dict value)
| Arr (items : list value).

Definition heap := list object.

Inductive result (A : Type) : Type :=
| Ok (a : A)
| TypeError
| OutOfFuel.

Arguments Ok {A} a.
Arguments TypeError {A}.
Arguments OutOfFuel {A}.

Definition alloc (h : heap) (o : object) : heap * loc :=
  (h ++ [o], length h).

Definition truthy (v : value) : bool :=
  match v with
  | VUndefined | VNull => false
  | VBool b => b
  | VNumber z => negb (z =? 0)%Z
  | VString s => JSText.truthy s
  | VRef _ => true
  end.

(** [Object.keys(o)] with the values: for an array the keys are the
    indices. *)
Definition entries (o : object) : Dict value :=
  match o with
  | Obj fields => fields
  | Arr items => imap (fun i v => (pretty i, v)) items
  end.

(** [o[key]] for the object at [l]. *)
Definition getField (h : heap) (l : loc) (key : string) : value :=
  match h !! l with
  | Some o => default VUndefined (dictGet key (entries o))
  | None => VUndefined
  end.

(** [o[key] = v] for the plain object at [l]. *)
Definition setField (h : heap) (l : loc) (key : string) (v : value) : heap :=
  match h !! l with
  | Some (Obj fields) => <[l := Obj (dictSet key v fields)]> h
  | _ => h
  end.

Definition isArray (h : heap) (v : value) : option (list value) :=
  match v with
  | VRef a => match h !! a with Some (Arr items) => Some items | _ => None end
  | _ => None
  end.

Section Copy.

(** The recursive call [newCodeInfo(item)]. *)
Variable rec : heap -> loc -> result (heap * loc).

(** [array.map(item => item && typeof item === 'object' ?
    newCodeInfo(item) : item)]. *)
Fixpoint mapItems (h : heap) (items : list value)
  : result (heap * list value) :=
  match items with
  | [] => Ok (h, [])
  | item :: rest =>
      match (match item with
             | VRef l =>
                 match rec h l with
                 | Ok (h', l') => Ok (h', VRef l')
                 | TypeError => TypeError
                 | OutOfFuel => OutOfFuel
                 end
             | _ => Ok (h, item)
             end) with
      | Ok (h1, item') =>
          match mapItems h1 rest with
          | Ok (h2, rest') => Ok (h2, item' :: rest')
          | TypeError => TypeError
          | OutOfFuel => OutOfFuel
          end
      | TypeError => TypeError
      | OutOfFuel => OutOfFuel
      end
  end.

(** The loop [for (const key of Object.keys(template))], filling the
    object at [newInfo]. *)
Fixpoint keysLoop (h : heap) (template : Dict value) (newInfo : loc)
  : result heap :=
  match template with
  | [] => Ok h
  | (key, v) :: rest =>
      match isArray h v with
      | Some items =>
          match mapItems h items with
          | Ok (h1, items') =>
              let '(h2, a) := alloc h1 (Arr items') in
              keysLoop (setField h2 newInfo key (VRef a)) rest newInfo
          | TypeError => TypeError
          | OutOfFuel => OutOfFuel
          end
      | None =>
          match v with
          | VRef l =>
              if truthy (getField h l "kind") then
                match rec h l with
                | Ok (h1, l') =>
                    keysLoop (setField h1 newInfo key (VRef l')) rest newInfo
                | TypeError => TypeError
                | OutOfFuel => OutOfFuel
                end
              else keysLoop (setField h newInfo key v) rest newInfo
          | _ => keysLoop (setField h newInfo key v) rest newInfo
          end
      end
  end.

End Copy.

(** [newCodeInfo(template)]: the store after the call and the location of
    the returned object.  The recursion follows the object graph, so it is
    bounded by [fuel]. *)
Fixpoint newCodeInfo (fuel : nat) (h : heap) (template : loc)
  : result (heap * loc) :=
  match fuel with
  | O => OutOfFuel
  | S fuel' =>
      match h !! template with
      | None => TypeError
      | Some o =>
          let '(h0, newInfo) := alloc h (Obj []) in
          match keysLoop (newCodeInfo fuel') h0 (entries o) newInfo with
          | Ok h1 => Ok (h1, newInfo)
          | TypeError => TypeError
          | OutOfFuel => OutOfFuel
          end
      end
  end.

(** [addTag(doclet, tag, text)] on the object at [doclet]. *)
Definition addTag (h : heap) (doclet : loc) (tag : string) (text : string)
  : result heap :=
  match getField h doclet "tags" with
  | VRef tags' =>
      let '(h1, arr) :=
        if truthy (getField h tags' tag) then (h, getField h tags' tag)
        else let '(h', a) := alloc h (Arr []) in
             (setField h' tags' tag (VRef a), VRef a) in
      if JSText.truthy text then
        match arr with
        | VRef a =>
            match h1 !! a with
            | Some (Arr items) =>
                Ok (<[a := Arr (items ++ [VString text])]> h1)
            | _ => TypeError
            end
        | _ => TypeError
        end
      else Ok h1
  | _ => TypeError
  end.

(** [doclet.tags[tag]], read as an array. *)
Definition tagValues (h : heap) (doclet : loc) (tag : string)
  : option (list value) :=
  match getField h doclet "tags" with
  | VRef tags' => isArray h (getField h tags' tag)
  | _ => None
  end.

End Store.

(** ** Notions used to state the properties of the resolver *)

(** The call [resolveType(sourceInfo, type, _stack)] returns with the
    given outcome. *)
Definition returns (host : Host) (fs : FileSystem) (sourceInfo : SourceInfo)
    (type : string) (_stack : Stack) (o : Outcome) : Prop :=
  exists fuel _stack',
    resolveTypeFuel host fs fuel sourceInfo type _stack = Some (o, _stack').

(** An import record that binds the name: one of its items has the name
    as its key or as its value. *)
Definition mentions (info : CodeInfo) (type : string) : bool :=
  isKind (kind info) KImport
  && existsb (fun b : string * string =>
                String.eqb b.1 type || String.eqb b.2 type)
             (default [] (imports info)).

(** [Reaches host fs F X G Y n]: following [n] import bindings leads from
    the name [X] asked in file [F] to the name [Y] asked in file [G]. *)
Inductive Reaches (host : Host) (fs : FileSystem)
  : SourceInfo -> string -> SourceInfo -> string -> nat -> Prop :=
| reaches_here F X : Reaches host fs F X F X 0
| reaches_import F X imp item local q c G Y n :
    imp ∈ code F ->
    kind imp = KImport ->
    (item, local) ∈ default [] (imports imp) ->
    item = X \/ local = X ->
    importTarget host fs (path F) (from imp) = Some (Some q) ->
    fs !! q = Some (Some c) ->
    Reaches host fs {| path := q; code := c |} item G Y n ->
    Reaches host fs F X G Y (S n).

(** [declaredAs info Y d]: the record [info] yields the declaration [d]
    for the name [Y]: it is the declaration and carries the name, or it is
    an export of the declaration, matched by the name of the export or by
    the own name of the exported object. *)
Definition declaredAs (info : CodeInfo) (Y : string) (d : CodeInfo) : Prop :=
  (d = info /\ name info = Some Y)
  \/ (kind info = KExport /\ object info = Some d
      /\ (name info = Some Y \/ name d = Some Y)).

(** What a successful call [resolveType(F, X)] guarantees of its result
    [r]. *)
Definition foundSpec (host : Host) (fs : FileSystem) (F : SourceInfo)
    (X : string) (r : ResolvedInfo) : Prop :=
  resolved_path r = path F /\ resolved_type r = X /\
  exists G Y n info,
    Reaches host fs F X G Y n /\ info ∈ code G /\
    localMatch info Y = Some (resolvedInfo r) /\
    declaredAs info Y (resolvedInfo r) /\
    (n = 0%nat -> resolvedPath r = path F) /\
    (n = 1%nat -> resolvedPath r = path G).

(** The claim of the specification about a successful resolution, read
    literally: the file at [resolvedPath] holds a declaration named [X],
    or an export whose object is named [X], and that is what was
    returned. *)
Definition namedAtResolvedPath (fs : FileSystem) (X : string)
    (r : ResolvedInfo) : Prop :=
  exists c info,
    fs !! resolvedPath r = Some (Some c) /\ info ∈ c /\
    ((resolvedInfo r = info /\ name info = Some X)
     \/ (kind info = KExport /\ object info = Some (resolvedInfo r)
         /\ name (resolvedInfo r) = Some X)).

(** The claim of the specification about the order of the checks, read
    literally: whenever the file has an import binding the name that
    resolves, and a local declaration of the name, the result is the one
    reached through the import. *)
Definition importPreferred (host : Host) (fs : FileSystem) (F : SourceInfo)
    (X : string) : Prop :=
  forall imp item local q c r' d,
    imp ∈ code F -> kind imp = KImport ->
    (item, local) ∈ default [] (imports imp) ->
    item = X \/ local = X ->
    importTarget host fs (path F) (from imp) = Some (Some q) ->
    fs !! q = Some (Some c) ->
    returns host fs {| path := q; code := c |} item
      (<[q := {| path := q; code := c |}]> ∅) (Found r') ->
    d ∈ code F -> is_Some (localMatch d X) ->
    exists r, resolveType host fs F X = Found r
              /\ resolvedInfo r = resolvedInfo r' /\ resolvedPath r = q.

(** The name is the original name of some import binding of the file. *)
Definition importedName (c : list CodeInfo) (n : string) : Prop :=
  exists imp local,
    imp ∈ c /\ kind imp = KImport /\ (n, local) ∈ default [] (imports imp).

(** A record of a file at path [p] in a set [W] of files that import only
    from one another and declare none of the names in [Names]. *)
Definition closedInfo (host : Host) (fs : FileSystem) (W : gset string)
    (Names : string -> Prop) (p : string) (info : CodeInfo) : Prop :=
  (forall n, Names n -> localMatch info n = None) /\
  (kind info = KImport ->
   (forall b, b ∈ default [] (imports info) -> Names b.1) /\
   (importTarget host fs p (from info) = Some None
    \/ exists q, importTarget host fs p (from info) = Some (Some q)
                 /\ q ∈ W)).

(** [Pushed own final]: the property list [final] comes from [own] by
    pushes of the flattener: each pushed record is marked as inherited,
    and when it was pushed [extractInfo] found no record of its name in the
    list. *)
Inductive Pushed (own : list CodeInfo) : list CodeInfo -> Prop :=
| pushed_none : Pushed own own
| pushed_more current property :
    Pushed own current ->
    extractInfo current (name property) = None ->
    inherited property = Some true ->
    Pushed own (current ++ [property]).

(** ** A host and some files for the examples *)
Module Sample.

(** The text before and after the last occurrence of a character. *)
Fixpoint splitLast (sep : nat) (s : string) : option (string * string) :=
  match s with
  | EmptyString => None
  | String c s' =>
      match splitLast sep s' with
      | Some (a, b) => Some (String c a, b)
      | None => if isChar sep c then Some (EmptyString, s') else None
      end
  end.

Definition dot : nat := 46.

(** [Path.extname] on POSIX paths: the text from the last dot of the last
    segment, unless that dot opens the segment. *)
Definition posixExtname (p : string) : string :=
  let base := match splitLast slash p with Some (_, b) => b | None => p end in
  match splitLast dot base with
  | Some (EmptyString, _) => EmptyString
  | Some (a, e) =>
      if String.eqb a "." && String.eqb e EmptyString then EmptyString
      else "." +:+ e
  | None => EmptyString
  end.

(** [Path.resolve(Path.dirname(sourcePath), from)] for an absolute POSIX
    [sourcePath] and a specifier that is a file name in the same
    directory, written with or without a leading [./]. *)
Definition posixResolveFrom (sourcePath : string) (from : option string)
  : option string :=
  match from with
  | None => None
  | Some f =>
      let dir := match splitLast slash sourcePath with
                 | Some (d, _) => d
                 | None => "."
                 end in
      let file := if String.prefix "./" f then JS.drop 2 f else f in
      Some (dir +:+ "/" +:+ file)
  end.

Definition host : Host :=
  {| resolveFrom := posixResolveFrom;
     extname := posixExtname;
     syntaxKindPositive :=
       fun s => includes ["Identifier"; "ClassDeclaration"; "Parameter"] s |}.

Definition base0 : NodeBase :=
  {| nodeId := 0; syntaxKind := 0; getFullStart := 0; getStart := 0;
     getEnd := 0; canHaveModifiers := false; modifiers := [] |}.

(** Records, with the fields the classifier sets besides flags and meta. *)
Definition classInfo (n : string) (e : option Extends)
    (ps : list CodeInfo) : CodeInfo :=
  mkInfo KClass (Some n) e None None (Some ps) None None None None None None
         None None None None None None None.

Definition interfaceInfo (n : string) (e : option Extends)
    (ps : list CodeInfo) : CodeInfo :=
  mkInfo KInterface (Some n) e None None (Some ps) None None None None None
         None None None None None None None None.

Definition propertyInfo (n : string) (t : string) (d : option CodeInfo)
  : CodeInfo :=
  mkInfo KProperty (Some n) None None None None None None (Some t) None None
         None None None None d None None None.

Definition importInfo (f : string) (im : Dict string) : CodeInfo :=
  mkInfo KImport None None None None None None None None None (Some f)
         (Some im) None None None None None None None.

Definition docletInfo (tg : Dict (list string)) : CodeInfo :=
  mkInfo KDoclet None None None None None None None None None None None None
         None (Some tg) None None None None.

(** The parse tree of [import { Foo as Bar } from './other.js']. *)
Definition importFooAsBar : Node :=
  ImportDeclaration base0 "'./other.js'"
    (Some [NamedImports base0 [ImportSpecifier base0 (Some "Foo") "Bar"]]).

(** A file that imports [Foo] under the name [Bar], and the file that
    declares [Foo]. *)
Definition mainCode : list CodeInfo := [importInfo "./other.js" [("Foo", "Bar")]].

Definition mainSource : SourceInfo :=
  {| path := "/src/main.ts"; code := mainCode |}.

Definition otherCode : list CodeInfo := [classInfo "Foo" None []].

Definition renameFiles : FileSystem :=
  <["/src/main.ts" := Some mainCode]>
    (<["/src/other.ts" := Some otherCode]> ∅).

(** A file that declares [Foo] and, further down, imports [Foo]. *)
Definition shadowCode : list CodeInfo :=
  [classInfo "Foo" None []; importInfo "./other.js" [("Foo", "Foo")]].

Definition shadowSource : SourceInfo :=
  {| path := "/src/main.ts"; code := shadowCode |}.

Definition otherInterface : list CodeInfo := [interfaceInfo "Foo" None []].

Definition shadowFiles : FileSystem :=
  <["/src/main.ts" := Some shadowCode]>
    (<["/src/other.ts" := Some otherInterface]> ∅).

(** Two files that import the name [X] from each other. *)
Definition cycleA : list CodeInfo := [importInfo "./b.js" [("X", "X")]].
Definition cycleB : list CodeInfo := [importInfo "./a.js" [("X", "X")]].

Definition cycleFiles : FileSystem :=
  <["/src/a.ts" := Some cycleA]> (<["/src/b.ts" := Some cycleB]> ∅).

(** The record [getImportInfo] makes of [importFooAsBar], in a file of
    its own. *)
Definition classifiedImport : CodeInfo :=
  mkInfo KImport None None None None None None None None None
         (Some "./other.js") (Some [("Foo", "Bar")]) None None None None None
         None (Some (getInfoMeta importFooAsBar)).

Definition classifiedSource : SourceInfo :=
  {| path := "/src/main.ts"; code := [classifiedImport] |}.

Definition classifiedFiles : FileSystem :=
  <["/src/main.ts" := Some [classifiedImport]]>
    (<["/src/other.ts" := Some otherCode]> ∅).

(** The doclet block of the specification, with its two line feeds. *)
Definition docBlock : string :=
  "/** Does a thing." +:+ JSText.nl
  +:+ " * @param {number} a - value" +:+ JSText.nl
  +:+ " * @return {number} result */".

(** A file that holds the block and, on the next line, a function. *)
Definition docFullText : string :=
  docBlock +:+ JSText.nl +:+ "function f(a) { return a; }".

(** The node of the function: its full start is the start of the file,
    its start is the [f] of [function]. *)
Definition functionNode : Node :=
  OtherNode
    {| nodeId := 1; syntaxKind := 262; getFullStart := 0;
       getStart := Z.of_nat (String.length docBlock) + 1;
       getEnd := Z.of_nat (String.length docFullText);
       canHaveModifiers := true; modifiers := [] |}.

(** What may follow the text of a tag in the slice the parser reports:
    nothing, white space, or the gutter of the next line. *)
Definition trailingGutters : list string :=
  [EmptyString; " "; JSText.nl; JSText.nl +:+ " "; JSText.nl +:+ " *";
   JSText.nl +:+ " * "].

(** What may follow the description in the comment the parser reports:
    nothing or white space. *)
Definition trailingSpaces : list string :=
  [EmptyString; " "; JSText.nl; JSText.nl +:+ " "].

(** The JSDoc node of the block: the description, and the two tags with
    the slices of the block that [getText] returns for them. *)
Definition docNode (b : NodeBase) (w0 w1 w2 : string) : Node :=
  JSDoc b (Some (CommentText ("Does a thing." +:+ w0)))
    (Some [ {| tagNameText := "param";
               tagGetText := "@param {number} a - value" +:+ w1 |};
            {| tagNameText := "return";
               tagGetText := "@return {number} result" +:+ w2 |} ]).

(** A parser that knows this one block: the statement after the block
    carries the JSDoc node, the end-of-file token carries nothing. *)
Definition docParser (text : string) : list (list Node) :=
  if String.eqb text (docBlock +:+ scratchSuffix)
  then [[docNode base0 EmptyString (JSText.nl +:+ " * ") " "]; []]
  else [].

(** The tags as the source computes them, and as the specification gives
    them. *)
Definition docTagsComputed : Dict (list string) :=
  [("description", ["Does a thing."]);
   ("param", ["{number} a - value"]);
   ("return", ["{number} result"])].

Definition docTagsClaimed : Dict (list string) :=
  [("description", ["Does a thing."]);
   ("param", ["{number} a - value"]);
   ("return", ["result"])].

(** One file with [interface Base] and [interface Child extends Base];
    both declare [foo]. *)
Definition baseInterface : CodeInfo :=
  interfaceInfo "Base" None
    [propertyInfo "x" "number" (Some (docletInfo [("description", ["d"])]));
     propertyInfo "foo" "number" None].

Definition childOwn : list CodeInfo :=
  [propertyInfo "foo" "boolean" None; propertyInfo "y" "string" None].

Definition childInterface : CodeInfo :=
  interfaceInfo "Child" (Some (ExtendsArray ["Base"])) childOwn.

Definition inheritedX : CodeInfo :=
  setInherited
    (propertyInfo "x" "number" (Some (docletInfo [("description", ["d"])]))).

Definition childExtended : CodeInfo :=
  interfaceInfo "Child" (Some (ExtendsArray ["Base"]))
    (childOwn ++ [inheritedX]).

(** The same child with a second base that is declared nowhere. *)
Definition childTwoBases : CodeInfo :=
  interfaceInfo "Child" (Some (ExtendsArray ["Base"; "Missing"])) childOwn.

Definition childTwoBasesAfter : CodeInfo :=
  interfaceInfo "Child" (Some (ExtendsArray ["Base"; "Missing"]))
    (childOwn ++ [inheritedX]).

Definition flattenSource : SourceInfo :=
  {| path := "/src/types.ts"; code := [baseInterface; childInterface] |}.

Definition flattenFiles : FileSystem :=
  <["/src/types.ts" := Some [baseInterface; childInterface]]> ∅.

(** No base name of the examples resolves to the extended record. *)
Definition noSelf (extendType : string) : bool := false.

(** A class that names itself as base, with a loose doclet in its body. *)
Definition selfClass : CodeInfo :=
  classInfo "Foo" (Some (ExtendsArray ["Foo"]))
    [docletInfo [("description", ["loose"])]; propertyInfo "a" "number" None].

Definition selfSource : SourceInfo :=
  {| path := "/src/foo.ts"; code := [selfClass] |}.

Definition isFoo (extendType : string) : bool := String.eqb extendType "Foo".

(** The objects of the property [x] of [Base]: the array of the
    description (0), the tag map (1), the doclet (2), the property (3). *)
Definition propertyHeap : Store.heap :=
  [ Store.Arr [Store.VString "d"];
    Store.Obj [("description", Store.VRef 0)];
    Store.Obj [("kind", Store.VString "Doclet"); ("tags", Store.VRef 1)];
    Store.Obj [("kind", Store.VString "Property");
               ("name", Store.VString "x");
               ("type", Store.VString "number");
               ("doclet", Store.VRef 2)] ].

(** A chain of two imports: [a] imports [Foo] from [b], [b] imports it
    from [c], and [c] declares it. *)
Definition chainA : list CodeInfo := [importInfo "./b.js" [("Foo", "Foo")]].
Definition chainB : list CodeInfo := [importInfo "./c.js" [("Foo", "Foo")]].
Definition chainC : list CodeInfo := [classInfo "Foo" None []].

Definition chainFiles : FileSystem :=
  <["/src/a.ts" := Some chainA]>
    (<["/src/b.ts" := Some chainB]> (<["/src/c.ts" := Some chainC]> ∅)).

Definition renameResult : ResolvedInfo :=
  {| resolved_path := "/src/main.ts";
     resolvedInfo := classInfo "Foo" None [];
     resolvedPath := "/src/other.ts";
     resolved_type := "Bar" |}.

End Sample.

(** ** Doclet tag operations

    The tag map of a doclet is an object literal: besides its own keys it
    answers to the names it inherits from [Object.prototype].  The
    [Dict] model describes the own keys; it is exact for tag names that
    are not among the inherited ones, which [plainKey] tells. *)

Definition objectPrototypeKeys : list string :=
  ["constructor"; "hasOwnProperty"; "isPrototypeOf"; "propertyIsEnumerable";
   "toLocaleString"; "toString"; "valueOf"; "__proto__";
   "__defineGetter__"; "__defineSetter__"; "__lookupGetter__";
   "__lookupSetter__"].

Definition plainKey (tag : string) : bool :=
  negb (includes objectPrototypeKeys tag).

Definition dictKeys {V : Type} (d : Dict V) : list string := fst <$> d.

(** [delete obj[key]]. *)
Definition dictDelete {V : Type} (key : string) (d : list (string * V))
  : list (string * V) :=
  filter (fun kv => kv.1 <> key) d.

(** The last element of a non-empty array, [arr[arr.length - 1]]. *)
Fixpoint lastOf (first : string) (rest : list string) : string :=
  match rest with
  | [] => first
  | x :: rest' => lastOf x rest'
  end.

(** The separator of [tagText.join('\n\n')]. *)
Definition blankLine : string := JSText.nl +:+ JSText.nl.

(** [extractTagText(doclet, tag, allText)].  The outer [None] is the
    [TypeError] for a doclet without [tags]; the inner [None] is
    [undefined], returned when the tag is absent or has no text. *)
Definition extractTagText (doclet : CodeInfo) (tag : string) (allText : bool)
  : option (option string) :=
  match tags doclet with
  | None => None
  | Some tags' =>
      Some (match dictGet tag tags' with
            | Some (first :: rest) =>
                Some (if allText
                      then JSText.join blankLine (first :: rest)
                      else lastOf first rest)
            | _ => None
            end)
  end.

(** [getTagText(doclet, tag)] of the older copy, [tools/lib/ts.js]: the
    last text only. *)
Definition getTagText (doclet : CodeInfo) (tag : string)
  : option (option string) :=
  match tags doclet with
  | None => None
  | Some tags' =>
      Some (match dictGet tag tags' with
            | Some (first :: rest) => Some (lastOf first rest)
            | _ => None
            end)
  end.

(** [removeTag(doclet, tag)]: the doclet as the call leaves it, and the
    returned value: the removed array, [undefined] ([None]) when the tag
    was absent, and the empty array for a doclet without [tags]. *)
Definition removeTag (doclet : CodeInfo) (tag : string)
  : CodeInfo * option (list string) :=
  match tags doclet with
  | Some tags' => (setTags doclet (dictDelete tag tags'), dictGet tag tags')
  | None => (doclet, Some [])
  end.

(** The innermost loop of [mergeDocletInfos], over the values of one tag
    of a source. *)
Fixpoint mergeValues (values : list string) (targetTag : list string)
  : list string :=
  match values with
  | [] => targetTag
  | value :: rest =>
      mergeValues rest
        (if includes targetTag value then targetTag
         else targetTag ++ [value])
  end.

(** The loop over the tags of one source. *)
Fixpoint mergeTags (sourceTags : Dict (list string))
    (targetTags : Dict (list string)) : Dict (list string) :=
  match sourceTags with
  | [] => targetTags
  | (tag, values) :: rest =>
      mergeTags rest
        (dictSet tag
           (mergeValues values (default [] (dictGet tag targetTags)))
           targetTags)
  end.

(** The loop over the sources; [None] is the [TypeError] for a source
    without [tags]. *)
Fixpoint mergeSources (sourceDoclets : list CodeInfo)
    (targetTags : Dict (list string)) : option (Dict (list string)) :=
  match sourceDoclets with
  | [] => Some targetTags
  | sourceDoclet :: rest =>
      match tags sourceDoclet with
      | None => None
      | Some sourceTags => mergeSources rest (mergeTags sourceTags targetTags)
      end
  end.

(** [mergeDocletInfos(targetDoclet, ...sourceDoclets)]: the target as the
    call leaves it, which is also the returned object; [None] is a
    [TypeError].  A target without [tags] survives only sources that have
    [tags] and no tag in them. *)
Definition mergeDocletInfos (targetDoclet : option CodeInfo)
    (sourceDoclets : list CodeInfo) : option CodeInfo :=
  let target := default newDocletInfo targetDoclet in
  match tags target with
  | None =>
      if forallb (fun sourceDoclet =>
                    match tags sourceDoclet with
                    | Some [] => true
                    | _ => false
                    end) sourceDoclets
      then Some target else None
  | Some targetTags =>
      match mergeSources sourceDoclets targetTags with
      | Some merged => Some (setTags target merged)
      | None => None
      end
  end.


(** [tagsGrow before after]: every tag of [before] is a tag of [after],
    with its values and possibly more values after them. *)
Definition tagsGrow (before after : Dict (list string)) : Prop :=
  forall tag l,
    dictGet tag before = Some l ->
    exists added, dictGet tag after = Some (l ++ added).

(** [covers target source]: every value of every tag of [source] is a
    value of that tag in [target]. *)
Definition covers (target source : Dict (list string)) : Prop :=
  forall tag values,
    (tag, values) ∈ source ->
    exists l, dictGet tag target = Some l /\ forall v, v ∈ values -> v ∈ l.

(** No tag holds the same text twice. *)
Definition valuesDistinct (d : Dict (list string)) : Prop :=
  forall tag l, (tag, l) ∈ d -> NoDup l.

(** Examples of doclets. *)
Module Doclets.

Definition described : CodeInfo :=
  Sample.docletInfo [("description", ["A chart."]); ("since", ["1.0"])].

Definition sampled : CodeInfo :=
  Sample.docletInfo [("sample", ["a.js"; "b.js"]); ("since", ["1.0"; "2.0"])].

Definition untagged : CodeInfo := emptyInfo KDoclet.

Definition mergedSample : CodeInfo :=
  Sample.docletInfo
    [("description", ["A chart."]); ("since", ["1.0"; "2.0"]);
     ("sample", ["a.js"; "b.js"])].

End Doclets.

(** A text of word characters only: no dot, no bracket, no space. *)
Fixpoint allWord (s : string) : bool :=
  match s with
  | EmptyString => true
  | String c s' => isWordChar c && allWord s'
  end.

(** The last character of a text is not a word character. *)
Fixpoint endsWithSeparator (s : string) : bool :=
  match s with
  | EmptyString => false
  | String c EmptyString => negb (isWordChar c)
  | String _ s' => endsWithSeparator s'
  end.

(** ** Measures of an edit list *)

(** The change in length an edit list asks for: for every edit, the length
    of its text less the length of the range it replaces. *)
Definition netGrowth (rs : list Replacement) : Z :=
  foldr (fun r acc =>
           (Z.of_nat (String.length (rtext r)) - (rend r - rstart r) + acc)%Z)
        0%Z rs.

(** ** More files for the examples *)
Module Modules.

(** A file that imports [Foo] from a module with no file and declares
    [Foo] itself. *)
Definition goneImport : CodeInfo :=
  Sample.importInfo "./gone.js" [("Foo", "Foo")].

Definition localFoo : CodeInfo := Sample.classInfo "Foo" None [].

Definition goneFiles : FileSystem :=
  <["/src/main.ts" := Some [goneImport; localFoo]]> ∅.

(** A file that imports [Foo] from a style sheet that is not there, and
    one that imports it from a file that cannot be read. *)
Definition styleImport : CodeInfo :=
  Sample.importInfo "./theme.css" [("Foo", "Foo")].

Definition lockedFiles : FileSystem :=
  <["/src/main.ts" := Some [Sample.importInfo "./other.js" [("Foo", "Foo")];
                            localFoo]]>
    (<["/src/other.ts" := None]> ∅).

(** A file that imports [Foo] twice from a module that does not declare
    it, and declares [Foo] itself. *)
Definition emptyModule : list CodeInfo := [Sample.classInfo "Bar" None []].

Definition twiceCode : list CodeInfo :=
  [Sample.importInfo "./other.js" [("Foo", "Foo")];
   Sample.importInfo "./other.js" [("Foo", "Baz")];
   localFoo].

Definition twiceFiles : FileSystem :=
  <["/src/main.ts" := Some twiceCode]>
    (<["/src/other.ts" := Some emptyModule]> ∅).

End Modules.

(** ** The record around its property list *)

(** The record with another value in its [properties] field. *)
Definition setProperties (info : CodeInfo) (ps : option (list CodeInfo))
  : CodeInfo :=
  match info with
  | mkInfo k n e i g _ pa r t v f im o d tg dc inh fl m =>
      mkInfo k n e i g ps pa r t v f im o d tg dc inh fl m
  end.

(** A record that differs from [info] in its property list at most, and
    has a list only if [info] has one. *)
Definition onlyProperties (info info' : CodeInfo) : Prop :=
  info' = setProperties info (properties info')
  /\ (properties info = None -> properties info' = None).

(** The property list of [final] starts with the property list of
    [info]; a record without a list is only compared with itself. *)
Definition propertiesGrow (info final : CodeInfo) : Prop :=
  match properties info with
  | Some own => exists added, properties final = Some (own ++ added)
  | None => properties final = None
  end.

(** Every record of the list is of a kind that [extractInfo] looks at. *)
Definition allNamedKinds (l : list CodeInfo) : Prop :=
  Forall (fun p => isNamedKind (kind p) = true) l.

(** The bases that the names in [extendsToDo] resolve to are classes or
    interfaces whose members are all of a named kind. *)
Definition basesNamed (host : Host) (fs : FileSystem) (sourceInfo : SourceInfo)
    (extendsToDo : list string) : Prop :=
  forall extendType r baseProperties,
    extendType ∈ extendsToDo ->
    resolveType host fs sourceInfo extendType = Found r ->
    isClassOrInterface (resolvedInfo r) = true ->
    properties (resolvedInfo r) = Some baseProperties ->
    allNamedKinds baseProperties.

Module Flatten.

(** A base with a doclet that stands alone in its body, and a child. *)
Definition looseDoclet : CodeInfo :=
  Sample.docletInfo [("description", ["loose"])].

Definition looseBase : CodeInfo :=
  Sample.interfaceInfo "Base" None
    [looseDoclet; Sample.propertyInfo "x" "number" None].

Definition looseChild : CodeInfo :=
  Sample.interfaceInfo "Child" (Some (ExtendsArray ["Base"])) [].

Definition looseSource : SourceInfo :=
  {| path := "/src/types.ts"; code := [looseBase; looseChild] |}.

End Flatten.

(** ** Doclets as the parser makes them *)

(** A doclet with a tag map of distinct keys in which every text is
    non-empty and has no white space at either end. *)
Definition tidyDoclet (doclet : CodeInfo) : Prop :=
  kind doclet = KDoclet
  /\ exists tags',
       tags doclet = Some tags'
       /\ NoDup (dictKeys tags')
       /\ forall tag texts text,
            dictGet tag tags' = Some texts -> text ∈ texts ->
            JSText.truthy text = true /\ JSText.trim text = text.

(** The names of the tags of the JSDoc nodes are none of those that an
    object inherits. *)
Definition plainTagNames (nodes : list Node) : Prop :=
  forall b comment docTags tag,
    JSDoc b comment (Some docTags) ∈ nodes -> tag ∈ docTags ->
    plainKey (tagNameText tag) = true.

(** The tag is a key of the tag map of the doclet. *)
Definition hasTag (doclet : CodeInfo) (tag : string) : Prop :=
  exists tags' texts,
    tags doclet = Some tags' /\ dictGet tag tags' = Some texts.

(** Every tag of every JSDoc node is a key of the tag map. *)
Definition tagsRegistered (nodes : list Node) (doclet : CodeInfo) : Prop :=
  forall b comment docTags tag,
    JSDoc b comment (Some docTags) ∈ nodes -> tag ∈ docTags ->
    hasTag doclet (tagNameText tag).

(** ** Doclet blocks *)

(** The text holds a star that is followed by a slash. *)
Fixpoint closes (s : string) : bool :=
  match s with
  | String c1 s1 =>
      match s1 with
      | String c2 _ => (isChar asterisk c1 && isChar slash c2) || closes s1
      | EmptyString => false
      end
  | EmptyString => false
  end.

Definition endsStar (s : string) : bool :=
  match JSText.last s with
  | Some c => isChar asterisk c
  | None => false
  end.

Definition startsSlash (s : string) : bool :=
  match s with
  | String c _ => isChar slash c
  | EmptyString => false
  end.

(** ** Import bindings *)

(** The key an import specifier is stored under: the original name of
    [import { original as local }], the local name when the specifier has
    no original name. *)
Definition specifierKey (propertyName : option string) (nameText : string)
  : string :=
  match propertyName with
  | Some t => if JSText.truthy t then t else nameText
  | None => nameText
  end.

(** A named import specifier of the children binds [item] to [local]. *)
Definition namedBinding (children : list Node) (item local : string) : Prop :=
  exists b propertyName,
    ImportSpecifier b propertyName local ∈ children
    /\ item = specifierKey propertyName local.

(** The import clause binds [item] to [local]: as its default import, or
    by a specifier of its named imports. *)
Definition clauseBinding (clauses : list Node) (item local : string) : Prop :=
  (item = "default" /\ exists b, Identifier b local ∈ clauses)
  \/ exists b children,
       NamedImports b children ∈ clauses /\ namedBinding children item local.

(** No child of the import clause is a default import or a list of named
    imports, as in [import * as NS from 'module']. *)
Definition namespaceOnly (clauses : list Node) : Prop :=
  forall clause, clause ∈ clauses ->
    match clause with
    | Identifier _ _ | NamedImports _ _ => False
    | _ => True
    end.

(** ** Stores that grow *)

(** The store [h'] is at least as large as [h] and has the objects of
    [h] at the locations below [n]. *)
Definition keepsBelow (n : nat) (h h' : Store.heap) : Prop :=
  (length h <= length h')%nat /\ take n h' = take n h.

(** What [newCodeInfo] puts into a field of the copy for the value [v] of
    the template, in a store [h]: a new array for an array, a new object
    for an object with a truthy [kind], and the value itself otherwise, a
    reference to an object without [kind] included. *)
Definition fieldCopied (h : Store.heap) (v v' : Store.value) : Prop :=
  match v with
  | Store.VRef l =>
      match h !! l with
      | Some (Store.Arr _) =>
          exists a, v' = Store.VRef a /\ (length h <= a)%nat
      | Some (Store.Obj _) =>
          if Store.truthy (Store.getField h l "kind")
          then exists l', v' = Store.VRef l' /\ (length h <= l')%nat
          else v' = v
      | None => True
      end
  | _ => v' = v
  end.

(** Every reference held by a field is a location of the store. *)
Definition fieldsInStore (h : Store.heap) (fields : Dict Store.value) : Prop :=
  forall key l, (key, Store.VRef l) ∈ fields -> (l < length h)%nat.

(** ** The classifier loop: [getChildInfos] *)

(** A node together with the nodes [getNodesChildren] returns for it. *)
#[warnings="-register-all"]
Inductive Tree : Type :=
| TreeNode (node : Node) (children : list Tree).

Definition root (tree : Tree) : Node :=
  match tree with TreeNode node _ => node end.

(** [_child.doclet = doclet]. *)
Definition setDoclet (info : CodeInfo) (doclet' : CodeInfo) : CodeInfo :=
  match info with
  | mkInfo k n e i g p pa r t v f im o d tg _ inh fl m =>
      mkInfo k n e i g p pa r t v f im o d tg (Some doclet') inh fl m
  end.

(** [arr.pop()]: the array without its last element, and that element. *)
Fixpoint popLast {A : Type} (l : list A) : option (list A * A) :=
  match l with
  | [] => None
  | x :: rest =>
      match popLast rest with
      | None => Some ([], x)
      | Some (front, y) => Some (x :: front, y)
      end
  end.

(** The records pushed for a classified node: the doclets read before it
    and the child, which takes the last doclet as its own unless it is an
    export or an import or the doclet carries the tag [apioption].  [None]
    is the [TypeError] for a doclet without [tags]. *)
Definition attach (_child : CodeInfo) (_doclets : list CodeInfo)
  : option (list CodeInfo) :=
  match popLast _doclets with
  | None => Some [_child]
  | Some (front, _doclet) =>
      if isKind (kind _child) KExport || isKind (kind _child) KImport
      then Some (_doclets ++ [_child])
      else
        match tags _doclet with
        | None => None
        | Some tags' =>
            match dictGet "apioption" tags' with
            | Some _ => Some (_doclets ++ [_child])
            | None => Some (front ++ [setDoclet _child _doclet])
            end
        end
  end.

Section Classifier.

(** [node.kind === TS.SyntaxKind.EndOfFileToken]. *)
Variable isEndOfFileToken : Node -> bool.

(** [TS.isVariableDeclarationList(node) || TS.isVariableStatement(node)]. *)
Variable isVariableList : Node -> bool.

(** The chain [getVariableInfo(node) || ... || getClassInfo(node)]. *)
Variable classify : Node -> option CodeInfo.

Variable parseDocletParts : string -> list (list Node).

(** The text of the source file the nodes belong to. *)
Variable fullText : string.

(** The nested call [getChildInfos(getNodesChildren(node))]. *)
Variable rec : Tree -> option (list CodeInfo).

(** The loop of [getChildInfos]: the records pushed from the given node
    on; [None] is a [TypeError]. *)
Fixpoint childInfosLoop (previousNode : Node) (nodes : list Tree)
  : option (list CodeInfo) :=
  match nodes with
  | [] => Some []
  | tree :: rest =>
      let node := root tree in
      if isEndOfFileToken node then Some []
      else if isVariableList node then
        match rec tree with
        | None => None
        | Some nested =>
            option_map (app nested) (childInfosLoop previousNode rest)
        end
      else
        match getDocletInfosBetween parseDocletParts fullText
                previousNode node with
        | None => None
        | Some _doclets =>
            match classify node with
            | None =>
                option_map (app _doclets) (childInfosLoop previousNode rest)
            | Some _child =>
                match attach _child _doclets with
                | None => None
                | Some pushed =>
                    option_map (app pushed) (childInfosLoop node rest)
                end
            end
        end
  end.

(** [getChildInfos(nodes)], with [previousNode = nodes[0]]. *)
Definition getChildInfosWith (nodes : list Tree) : option (list CodeInfo) :=
  match nodes with
  | [] => Some []
  | first :: _ => childInfosLoop (root first) nodes
  end.

End Classifier.

(** [getChildInfos(getNodesChildren(node))], by recursion on the tree. *)
Fixpoint nestedChildInfos (isEndOfFileToken isVariableList : Node -> bool)
    (classify : Node -> option CodeInfo)
    (parseDocletParts : string -> list (list Node)) (fullText : string)
    (tree : Tree) : option (list CodeInfo) :=
  match tree with
  | TreeNode _ children =>
      getChildInfosWith isEndOfFileToken isVariableList classify
        parseDocletParts fullText
        (nestedChildInfos isEndOfFileToken isVariableList classify
           parseDocletParts fullText)
        children
  end.

Definition getChildInfos (isEndOfFileToken isVariableList : Node -> bool)
    (classify : Node -> option CodeInfo)
    (parseDocletParts : string -> list (list Node)) (fullText : string)
    (nodes : list Tree) : option (list CodeInfo) :=
  getChildInfosWith isEndOfFileToken isVariableList classify
    parseDocletParts fullText
    (nestedChildInfos isEndOfFileToken isVariableList classify
       parseDocletParts fullText)
    nodes.


(** The scratch file [getDocletsBetween] has parsed. *)
Definition scratchText (fullText : string) (startNode endNode : Node)
  : string :=
  let end_ := getStart (nodeBase endNode) in
  let start :=
    if (nodeId (nodeBase startNode) =? nodeId (nodeBase endNode))%nat
    then getFullStart (nodeBase startNode)
    else getEnd (nodeBase startNode) in
  JSText.join EmptyString
    ((fun m => m +:+ scratchSuffix)
       <$> matchDoclets (JS.substring start end_ fullText) None).

(** A classifier for the examples: it knows the end-of-file token,
    variable statements and function declarations by their syntax
    kind. *)
Module Classified.

Definition isEndOfFileToken (node : Node) : bool :=
  (syntaxKind (nodeBase node) =? 1)%Z.

Definition isVariableList (node : Node) : bool :=
  (syntaxKind (nodeBase node) =? 243)%Z.

Definition functionInfo : CodeInfo :=
  mkInfo KFunction (Some "f") None None None None (Some []) None None None
         None None None None None None None None None.

Definition classify (node : Node) : option CodeInfo :=
  if (syntaxKind (nodeBase node) =? 262)%Z then Some functionInfo else None.

Definition endOfFile : Node :=
  OtherNode
    {| nodeId := 2; syntaxKind := 1;
       getFullStart := Z.of_nat (String.length Sample.docFullText);
       getStart := Z.of_nat (String.length Sample.docFullText);
       getEnd := Z.of_nat (String.length Sample.docFullText);
       canHaveModifiers := false; modifiers := [] |}.

Definition fileNodes : list Tree :=
  [TreeNode Sample.functionNode []; TreeNode endOfFile []].

End Classified.

(** Three statements of one file for the examples: a first one that ends
    at the start of the file, an expression statement behind the doclet
    block, and a statement at the end of the text. *)
Module Reread.

Definition statement (id : nat) (k : Z) (start end_ : Z) : Node :=
  OtherNode
    {| nodeId := id; syntaxKind := k; getFullStart := start;
       getStart := start; getEnd := end_;
       canHaveModifiers := false; modifiers := [] |}.

Definition first : Node := statement 10 262 0 0.

Definition unclassified : Node :=
  statement 11 244 (Z.of_nat (String.length Sample.docBlock) + 1)
    (Z.of_nat (String.length Sample.docBlock) + 9).

Definition next : Node :=
  statement 12 262 (Z.of_nat (String.length Sample.docFullText))
    (Z.of_nat (String.length Sample.docFullText)).

End Reread.

(** ** [newDocletInfo] on the store *)
Module DocletStore.

(** The loop [for (const tag of Object.keys(tags))] with its body
    [newTags[tag] = tags[tag].slice()]: an array is copied into a new
    array, a string is its own slice, and anything else has no [slice]. *)
Fixpoint sliceLoop (h : Store.heap) (tagEntries : Dict Store.value)
    (newTags : Store.loc) : Store.result Store.heap :=
  match tagEntries with
  | [] => Store.Ok h
  | (tag, v) :: rest =>
      match v with
      | Store.VRef a =>
          match h !! a with
          | Some (Store.Arr items) =>
              let '(h1, a') := Store.alloc h (Store.Arr items) in
              sliceLoop (Store.setField h1 newTags tag (Store.VRef a'))
                rest newTags
          | _ => Store.TypeError
          end
      | Store.VString _ =>
          sliceLoop (Store.setField h newTags tag v) rest newTags
      | _ => Store.TypeError
      end
  end.

(** The characters of a string as the entries [Object.keys] and indexing
    give for it. *)
Definition stringEntries (s : string) : Dict Store.value :=
  imap (fun i c => (pretty i, Store.VString (String c EmptyString)))
       (list_ascii_of_string s).

(** [newDocletInfo(template)]; the template may be absent. *)
Definition newDocletInfo (h : Store.heap) (template : option Store.loc)
  : Store.result (Store.heap * Store.loc) :=
  let '(h1, newTags) := Store.alloc h (Store.Obj []) in
  let '(h2, doclet) :=
    Store.alloc h1
      (Store.Obj [("kind", Store.VString "Doclet");
                  ("tags", Store.VRef newTags)]) in
  match template with
  | None => Store.Ok (h2, doclet)
  | Some template' =>
      match (match Store.getField h2 template' "tags" with
             | Store.VRef tags' =>
                 match h2 !! tags' with
                 | Some o => Some (Store.entries o)
                 | None => None
                 end
             | Store.VString s => Some (stringEntries s)
             | Store.VBool _ | Store.VNumber _ => Some []
             | Store.VUndefined | Store.VNull => None
             end) with
      | None => Store.TypeError
      | Some tagEntries =>
          match sliceLoop h2 tagEntries newTags with
          | Store.Ok h3 => Store.Ok (h3, doclet)
          | Store.TypeError => Store.TypeError
          | Store.OutOfFuel => Store.OutOfFuel
          end
      end
  end.

End DocletStore.

(** Every object of [h] other than the one at [l0] is the same object in
    [h']. *)
Definition keepsExcept (l0 : nat) (h h' : Store.heap) : Prop :=
  forall l o, l <> l0 -> h !! l = Some o -> h' !! l = Some o.

(** A tag map as the doclet parser makes it: every value is an array of
    the store. *)
Definition tagMapInStore (h : Store.heap) (fields : Dict Store.value)
  : Prop :=
  forall tag v,
    (tag, v) ∈ fields ->
    exists a items, v = Store.VRef a /\ h !! a = Some (Store.Arr items).

(** A doclet with one tag, as objects: the array of the texts (0), the
    tag map (1) and the doclet (2). *)
Module Copied.

Definition docletHeap : Store.heap :=
  [ Store.Arr [Store.VString "1.0"];
    Store.Obj [("since", Store.VRef 0)];
    Store.Obj [("kind", Store.VString "Doclet"); ("tags", Store.VRef 1)] ].

End Copied.
(** * Properties *)

(** ** Facts about the string primitives *)

Module JSFacts.
Import JS.

Lemma take_length_le n s : (String.length (take n s) <= n)%nat.
Proof.
  revert s; induction n as [|n IH]; intros [|c s]; simpl; try lia.
  specialize (IH s); lia.
Qed.

Lemma take_length n s :
  (n <= String.length s)%nat -> String.length (take n s) = n.
Proof.
  revert s; induction n as [|n IH]; intros [|c s]; simpl; intros; try lia.
  rewrite IH; lia.
Qed.

Lemma take_all n s : (String.length s <= n)%nat -> take n s = s.
Proof.
  revert s; induction n as [|n IH]; intros [|c s]; simpl; intros; try lia;
    try reflexivity.
  rewrite IH; [reflexivity | lia].
Qed.

Lemma take_take n m s : (n <= m)%nat -> take n (take m s) = take n s.
Proof.
  revert m s; induction n as [|n IH]; intros m s Hnm.
  - reflexivity.
  - destruct m as [|m]; [lia|]. destruct s as [|c s]; simpl; [reflexivity|].
    rewrite IH; [reflexivity | lia].
Qed.

Lemma take_app_le n s t :
  (n <= String.length s)%nat -> take n (s +:+ t) = take n s.
Proof.
  revert s; induction n as [|n IH]; intros s Hn.
  - reflexivity.
  - destruct s as [|c s]; simpl in *; [lia|].
    rewrite IH; [reflexivity | lia].
Qed.

Lemma drop_app_le n s t :
  (n <= String.length s)%nat -> drop n (s +:+ t) = drop n s +:+ t.
Proof.
  revert s; induction n as [|n IH]; intros s Hn.
  - reflexivity.
  - destruct s as [|c s]; simpl in *; [lia|]. apply IH; lia.
Qed.

Lemma drop_take n m s :
  (n <= m)%nat -> drop n (take m s) = take (m - n) (drop n s).
Proof.
  revert m s; induction n as [|n IH]; intros m s Hnm.
  - rewrite Nat.sub_0_r. reflexivity.
  - destruct m as [|m]; [lia|]. destruct s as [|c s]; simpl.
    + destruct (m - n)%nat; reflexivity.
    + apply IH; lia.
Qed.

Lemma take_drop_id n s : take n s +:+ drop n s = s.
Proof.
  revert s; induction n as [|n IH]; intros [|c s]; simpl; try reflexivity.
  change (String c (take n s +:+ drop n s) = String c s). f_equal. apply IH.
Qed.

End JSFacts.

(** ** The descending sort *)

Lemma insertDesc_perm r l : Permutation (r :: l) (insertDesc r l).
Proof.
  induction l as [|h t IH]; simpl; [reflexivity|].
  destruct (rstart r <? rstart h)%Z; [|reflexivity].
  rewrite perm_swap. now apply perm_skip.
Qed.

Lemma sortDesc_perm l : Permutation l (sortDesc l).
Proof.
  induction l as [|r l IH]; simpl; [constructor|].
  rewrite <- insertDesc_perm. now apply perm_skip.
Qed.

Lemma insertDesc_sorted r l :
  StronglySorted descByStart l -> StronglySorted descByStart (insertDesc r l).
Proof.
  induction 1 as [|h t Hs IH Hall]; simpl.
  - repeat constructor.
  - destruct (Z.ltb_spec (rstart r) (rstart h)) as [E|E].
    + constructor; [exact IH|].
      rewrite <- insertDesc_perm. constructor; [|exact Hall].
      unfold descByStart. lia.
    + constructor; [now constructor|].
      constructor; [unfold descByStart; lia|].
      eapply Forall_impl; [exact Hall|].
      unfold descByStart. intros a Ha. lia.
Qed.

Lemma sortDesc_sorted l : StronglySorted descByStart (sortDesc l).
Proof.
  induction l as [|r l IH]; simpl; [constructor|].
  now apply insertDesc_sorted.
Qed.

(** Stability: among the entries with one given [start], the order of the
    caller's array is kept. *)
Lemma sortDesc_stable (k : Z) l :
  filter (fun r => rstart r = k) (sortDesc l)
  = filter (fun r => rstart r = k) l.
Proof.
  induction l as [|r l IH]; simpl; [reflexivity|].
  rewrite filter_cons, <- IH. generalize (sortDesc l) as s. clear IH.
  induction s as [|h t IHt]; simpl.
  - rewrite filter_cons. reflexivity.
  - destruct (Z.ltb_spec (rstart r) (rstart h)) as [E|E].
    + rewrite !filter_cons, IHt.
      destruct (decide (rstart h = k)), (decide (rstart r = k));
        try reflexivity; lia.
    + rewrite !filter_cons. reflexivity.
Qed.

(** ** Text/Range utility *)

Lemma wellPlaced_bound len pos asc : wellPlaced len pos asc -> (pos <= len)%Z.
Proof.
  revert pos; induction asc as [|r rest IH]; simpl; intros pos H; [exact H|].
  destruct H as (H1 & H2 & H3). specialize (IH _ H3). lia.
Qed.

(** Applying the edits of an ascending, well-placed list from the last to
    the first leaves the text before [pos] alone and turns the text from
    [pos] on into the splice of the original. *)
Lemma applyAscending_splice (s : string) (asc : list Replacement) (pos : Z) :
  (0 <= pos)%Z ->
  wellPlaced (Z.of_nat (String.length s)) pos asc ->
  let result := fold_right (fun r acc => applyReplacement acc r) s asc in
  JS.take (Z.to_nat pos) result = JS.take (Z.to_nat pos) s /\
  JS.drop (Z.to_nat pos) result = spliceOriginal s (Z.to_nat pos) asc.
Proof.
  revert pos; induction asc as [|r rest IH]; intros pos Hpos Hwp; simpl.
  - split; reflexivity.
  - simpl in Hwp. destruct Hwp as (H1 & H2 & H3).
    pose proof (wellPlaced_bound _ _ _ H3) as Hend.
    destruct (IH (rend r) ltac:(lia) H3) as [IHt IHd].
    set (acc := fold_right (fun r acc => applyReplacement acc r) s rest) in *.
    unfold applyReplacement, JS.substringTo, JS.substringFrom.
    assert (Hs : JS.take (Z.to_nat (rstart r)) acc
                 = JS.take (Z.to_nat (rstart r)) s).
    { rewrite <- (JSFacts.take_take _ (Z.to_nat (rend r)) acc) by lia.
      rewrite IHt. apply JSFacts.take_take. lia. }
    rewrite Hs, IHd.
    assert (Hlen : String.length (JS.take (Z.to_nat (rstart r)) s)
                   = Z.to_nat (rstart r)).
    { apply JSFacts.take_length. lia. }
    split.
    + rewrite JSFacts.take_app_le by lia. apply JSFacts.take_take. lia.
    + rewrite JSFacts.drop_app_le by lia.
      rewrite JSFacts.drop_take by lia. reflexivity.
Qed.

Lemma changeSourceCode_fold s rs :
  (changeSourceCode s (Some rs)).1
  = fold_left applyReplacement (sortDesc rs) s.
Proof. destruct rs; reflexivity. Qed.

(** C4. [changeSourceCode] applies the edits in descending order of their
    start offset (a stable sort of the argument), from right to left; with
    no edits, or without an edit list, the text is returned as it is; for
    edits that lie inside the text without overlapping, the result is the
    original text with each range replaced, every offset read against the
    original; and the example of the specification evaluates as stated. *)
Theorem changeSourceCode_applies_descending :
  (forall s, (changeSourceCode s None).1 = s) /\
  (forall s, (changeSourceCode s (Some [])).1 = s) /\
  (forall s rs,
      (changeSourceCode s (Some rs)).1
      = fold_left applyReplacement (sortDesc rs) s
      /\ Permutation rs (sortDesc rs)
      /\ StronglySorted descByStart (sortDesc rs)) /\
  (forall s rs,
      wellPlaced (Z.of_nat (String.length s)) 0 (rev (sortDesc rs)) ->
      (changeSourceCode s (Some rs)).1
      = spliceOriginal s 0 (rev (sortDesc rs))) /\
  (changeSourceCode "abcdef" (Some [(1, 3, "X"); (4, 5, "Y")]%Z)).1
  = "aXdYf".
Proof.
  split; [reflexivity|]. split; [reflexivity|].
  split; [|split; [|reflexivity]].
  - intros s rs. split; [apply changeSourceCode_fold|].
    split; [apply sortDesc_perm | apply sortDesc_sorted].
  - intros s rs Hwp. rewrite changeSourceCode_fold.
    rewrite <- (rev_involutive (sortDesc rs)) at 1.
    rewrite <- fold_left_rev_right, rev_involutive.
    destruct (applyAscending_splice s (rev (sortDesc rs)) 0 ltac:(lia) Hwp)
      as [_ Hd].
    exact Hd.
Qed.

Lemma changeSourceCode_applies_descending_witness :
  wellPlaced (Z.of_nat (String.length "abcdef")) 0
    (rev (sortDesc [(1, 3, "X"); (4, 5, "Y")]%Z)) /\
  (changeSourceCode "abcdef" (Some [(1, 3, "X"); (4, 5, "Y")]%Z)).1
  = spliceOriginal "abcdef" 0 (rev (sortDesc [(1, 3, "X"); (4, 5, "Y")]%Z)).
Proof.
  assert (H : wellPlaced (Z.of_nat (String.length "abcdef")) 0
                (rev (sortDesc [(1, 3, "X"); (4, 5, "Y")]%Z))).
  { simpl. unfold rstart, rend. simpl. lia. }
  split; [exact H|].
  exact (proj1 (proj2 (proj2 (proj2 changeSourceCode_applies_descending)))
           "abcdef" _ H).
Defined.

(** C10. For a non-empty list, the array the caller passed is itself
    sorted: when the call returns it holds the same entries in descending
    order of their start offset (entries with equal starts in their former
    order).  Both copies of the function behave so. *)
Theorem changeSourceCode_sorts_argument_in_place :
  forall (s : string) (rs : list Replacement),
    rs <> [] ->
    (changeSourceCode s (Some rs)).2 = Some (sortDesc rs)
    /\ (Lib.changeSourceCode s (Some rs)).2 = Some (sortDesc rs)
    /\ Permutation rs (sortDesc rs)
    /\ StronglySorted descByStart (sortDesc rs)
    /\ (forall k, filter (fun r => rstart r = k) (sortDesc rs)
                  = filter (fun r => rstart r = k) rs).
Proof.
  intros s rs Hne. destruct rs as [|r rs]; [congruence|].
  split; [reflexivity|]. split; [reflexivity|].
  split; [apply sortDesc_perm|]. split; [apply sortDesc_sorted|].
  intros k. apply sortDesc_stable.
Qed.

Lemma changeSourceCode_sorts_argument_in_place_witness :
  [(1, 3, "X"); (4, 5, "Y")]%Z <> ([] : list Replacement) /\
  (changeSourceCode "abcdef" (Some [(1, 3, "X"); (4, 5, "Y")]%Z)).2
  = Some [(4, 5, "Y"); (1, 3, "X")]%Z.
Proof.
  split; [discriminate|].
  exact (proj1 (changeSourceCode_sorts_argument_in_place "abcdef"
                  [(1, 3, "X"); (4, 5, "Y")]%Z ltac:(discriminate))).
Defined.

(** ** Type resolver: termination *)

Lemma stack_measure_insert (D : gset string) (st : gmap string SourceInfo)
    (q : string) (v : SourceInfo) :
  q ∈ D -> st !! q = None ->
  (size (D ∖ dom (<[q := v]> st)) < size (D ∖ dom st))%nat.
Proof.
  intros Hq Hst. apply subset_size. rewrite dom_insert_L.
  assert (Hn : q ∉ dom st)
    by (rewrite elem_of_dom, Hst; intros [? ?]; discriminate).
  split.
  - intros x. rewrite !elem_of_difference, elem_of_union. tauto.
  - intros Hsub.
    assert (Hin : q ∈ D ∖ ({[q]} ∪ dom st))
      by (apply Hsub, elem_of_difference; auto).
    apply elem_of_difference in Hin as [_ Hin]. apply Hin.
    apply elem_of_union. left. now apply elem_of_singleton.
Qed.

Lemma stack_measure_mono (D : gset string) (st st' : gmap string SourceInfo) :
  dom st ⊆ dom st' -> (size (D ∖ dom st') <= size (D ∖ dom st))%nat.
Proof.
  intros H. apply subseteq_size. intros x.
  rewrite !elem_of_difference. intros [Hx Hn]. split; [exact Hx|]. auto.
Qed.

Lemma readSourceInfo_Some fs p src :
  readSourceInfo fs p = Some src ->
  exists c, fs !! p = Some (Some c) /\ src = {| path := p; code := c |}.
Proof.
  unfold readSourceInfo. destruct (fs !! p) as [[c|]|]; try discriminate.
  intros [= <-]. eauto.
Qed.

Lemma stack_lookup_decide (st : gmap string SourceInfo) (p : string) :
  bool_decide (is_Some (st !! p)) = false -> st !! p = None.
Proof.
  intros H. apply bool_decide_eq_false in H.
  destruct (st !! p) eqn:E; [exfalso; apply H; eauto | reflexivity].
Qed.

Section Termination.

Variable host : Host.
Variable fs : FileSystem.
Variable fuel : nat.
Variable rec : SourceInfo -> string -> Stack -> option (Outcome * Stack).

(** What is known of the nested calls: with fewer files off the stack
    than [fuel], a call returns, and a call that returns [undefined]
    leaves every path on the stack that was there. *)
Hypothesis rec_returns :
  forall src type (st : gmap string SourceInfo),
    (size (dom fs ∖ dom st) < fuel)%nat ->
    exists o st', rec src type st = Some (o, st')
                  /\ (o = NotFound -> dom st ⊆ dom st').

Lemma importLoop_returns sourcePath from type items
    (st : gmap string SourceInfo) :
  (size (dom fs ∖ dom st) <= fuel)%nat ->
  exists o st',
    importLoop host fs rec sourcePath from type items st = Some (o, st')
    /\ (o = None \/ o = Some NotFound -> dom st ⊆ dom st').
Proof.
  revert st; induction items as [|[item local] rest IH]; intros st Hm; simpl.
  - eauto.
  - destruct (String.eqb item type || String.eqb local type); [|auto].
    destruct (importTarget host fs sourcePath from) as [[q|]|];
      [| auto | eauto].
    destruct (bool_decide (is_Some (st !! q))) eqn:Hst; [eauto|].
    apply stack_lookup_decide in Hst.
    destruct (readSourceInfo fs q) as [src|] eqn:Hread; [|eauto].
    apply readSourceInfo_Some in Hread as (c & Hc & ->).
    assert (Hq : q ∈ dom fs) by (apply elem_of_dom; eauto).
    pose proof (stack_measure_insert (dom fs) st q
                  {| path := q; code := c |} Hq Hst) as Hlt.
    destruct (rec_returns {| path := q; code := c |} item
                (<[q := {| path := q; code := c |}]> st) ltac:(lia))
      as (o & st2 & -> & Hdom).
    destruct o as [r| |].
    + eexists _, _. split; [reflexivity|].
      intros [?|?]; discriminate.
    + specialize (Hdom eq_refl).
      assert (Hsub : dom st ⊆ dom st2).
      { rewrite dom_insert_L in Hdom. intros x Hx.
        apply Hdom, elem_of_union. now right. }
      destruct (IH st2) as (o' & st3 & -> & Hdom3).
      { pose proof (stack_measure_mono (dom fs) _ _ Hdom). lia. }
      eexists _, _. split; [reflexivity|]. intros Ho.
      specialize (Hdom3 Ho). etrans; eauto.
    + eexists _, _. split; [reflexivity|].
      intros [?|?]; discriminate.
Qed.

Lemma codeLoop_returns sourcePath type code (st : gmap string SourceInfo) :
  (size (dom fs ∖ dom st) <= fuel)%nat ->
  exists o st',
    codeLoop host fs rec sourcePath type code st = Some (o, st')
    /\ (o = NotFound -> dom st ⊆ dom st').
Proof.
  revert st; induction code as [|info rest IH]; intros st Hm; simpl.
  - eauto.
  - unfold importStep.
    destruct (isKind (kind info) KImport).
    + destruct (importLoop_returns sourcePath (from info) type
                  (default [] (imports info)) st Hm)
        as (o & st1 & -> & Hdom).
      destruct o as [o|].
      * eexists _, _. split; [reflexivity|]. intros ->. auto.
      * specialize (Hdom (or_introl eq_refl)).
        destruct (localMatch info type).
        { eexists _, _. split; [reflexivity|]. discriminate. }
        destruct (IH st1) as (o' & st2 & -> & Hdom2).
        { pose proof (stack_measure_mono (dom fs) _ _ Hdom). lia. }
        eexists _, _. split; [reflexivity|]. intros Ho.
        specialize (Hdom2 Ho). etrans; eauto.
    + destruct (localMatch info type).
      { eexists _, _. split; [reflexivity|]. discriminate. }
      apply IH. exact Hm.
Qed.

End Termination.

(** With more fuel than there are files off the stack, the call returns;
    and a call that returns [undefined] has only added to the stack. *)
Lemma resolveTypeFuel_returns host fs fuel :
  forall src type (st : gmap string SourceInfo),
    (size (dom fs ∖ dom st) < fuel)%nat ->
    exists o st', resolveTypeFuel host fs fuel src type st = Some (o, st')
                  /\ (o = NotFound -> dom st ⊆ dom st').
Proof.
  induction fuel as [|fuel IH]; intros src type st Hm; [lia|].
  simpl. apply codeLoop_returns with (fuel := fuel); [exact IH | lia].
Qed.

(** The bound of [resolveType] is never reached. *)
Lemma resolveTypeFuel_enough host fs src type :
  exists o st',
    resolveTypeFuel host fs (S (size fs)) src type ∅ = Some (o, st')
    /\ resolveType host fs src type = o.
Proof.
  destruct (resolveTypeFuel_returns host fs (S (size fs)) src type ∅)
    as (o & st' & H & _).
  { rewrite dom_empty_L, difference_empty_L, size_dom. lia. }
  exists o, st'. split; [exact H|]. unfold resolveType. now rewrite H.
Qed.

(** ** Type resolver: the result does not depend on the fuel *)

Section Monotone.

Variable host : Host.
Variable fs : FileSystem.
Variables rec rec' : SourceInfo -> string -> Stack -> option (Outcome * Stack).

Hypothesis rec_le :
  forall s t st r, rec s t st = Some r -> rec' s t st = Some r.

Lemma importLoop_mono p from type items st r :
  importLoop host fs rec p from type items st = Some r ->
  importLoop host fs rec' p from type items st = Some r.
Proof.
  revert st; induction items as [|[item local] rest IH]; simpl; intros st H;
    [exact H|].
  destruct (String.eqb item type || String.eqb local type); [|auto].
  destruct (importTarget host fs p from) as [[q|]|]; auto.
  destruct (bool_decide (is_Some (st !! q))); auto.
  destruct (readSourceInfo fs q) as [src|]; auto.
  destruct (rec src item (<[q:=src]> st)) as [[o st2]|] eqn:E;
    [|discriminate].
  rewrite (rec_le _ _ _ _ E). destruct o; auto.
Qed.

Lemma codeLoop_mono p type code st r :
  codeLoop host fs rec p type code st = Some r ->
  codeLoop host fs rec' p type code st = Some r.
Proof.
  revert st; induction code as [|info rest IH]; simpl; intros st H;
    [exact H|].
  unfold importStep in *.
  destruct (isKind (kind info) KImport).
  - destruct (importLoop host fs rec p (from info) type
                (default [] (imports info)) st) as [[o st1]|] eqn:E;
      [|discriminate].
    rewrite (importLoop_mono _ _ _ _ _ _ E).
    destruct o; auto. destruct (localMatch info type); auto.
  - destruct (localMatch info type); auto.
Qed.

End Monotone.

Lemma resolveTypeFuel_mono host fs fuel fuel' src type st r :
  (fuel <= fuel')%nat ->
  resolveTypeFuel host fs fuel src type st = Some r ->
  resolveTypeFuel host fs fuel' src type st = Some r.
Proof.
  revert fuel' src type st r.
  induction fuel as [|fuel IH]; intros fuel' src type st r Hle H;
    [discriminate|].
  destruct fuel' as [|fuel']; [lia|]. simpl in *.
  eapply codeLoop_mono; [|exact H].
  intros s t st0 r0 Hr. eapply IH; [lia | exact Hr].
Qed.

(** A call has one outcome. *)
Lemma returns_functional host fs src type st o1 o2 :
  returns host fs src type st o1 -> returns host fs src type st o2 -> o1 = o2.
Proof.
  intros (f1 & s1 & H1) (f2 & s2 & H2).
  apply (resolveTypeFuel_mono _ _ _ (Nat.max f1 f2)) in H1; [|lia].
  apply (resolveTypeFuel_mono _ _ _ (Nat.max f1 f2)) in H2; [|lia].
  congruence.
Qed.

(** [resolveType] is the outcome of the call on the empty stack. *)
Lemma resolveType_returns host fs src type o :
  resolveType host fs src type = o <-> returns host fs src type ∅ o.
Proof.
  destruct (resolveTypeFuel_enough host fs src type) as (o' & st' & H & Ho).
  split.
  - intros <-. rewrite Ho. now exists (S (size fs)), st'.
  - intros Hr. rewrite Ho. eapply returns_functional; [|exact Hr].
    now exists (S (size fs)), st'.
Qed.

(** ** Type resolver: what a successful resolution returns *)

Lemma localMatch_declaredAs info Y d :
  localMatch info Y = Some d -> declaredAs info Y d.
Proof.
  unfold localMatch, declaredAs. intros H.
  destruct (kind info) eqn:Hk; try discriminate.
  - destruct (bool_decide (name info = Some Y)) eqn:E; [|discriminate].
    apply bool_decide_eq_true in E. injection H as <-. auto.
  - destruct (object info) as [o|] eqn:Ho; [|discriminate].
    destruct (bool_decide (name info = Some Y)) eqn:E1;
      destruct (bool_decide (name o = Some Y)) eqn:E2; simpl in H;
      try discriminate; injection H as <-; right;
      repeat split; auto;
      try (apply bool_decide_eq_true in E1; auto);
      try (apply bool_decide_eq_true in E2; auto).
  - destruct (bool_decide (name info = Some Y)) eqn:E; [|discriminate].
    apply bool_decide_eq_true in E. injection H as <-. auto.
  - destruct (bool_decide (name info = Some Y)) eqn:E; [|discriminate].
    apply bool_decide_eq_true in E. injection H as <-. auto.
  - destruct (bool_decide (name info = Some Y)) eqn:E; [|discriminate].
    apply bool_decide_eq_true in E. injection H as <-. auto.
Qed.

Lemma binding_matches (item local type : string) :
  String.eqb item type || String.eqb local type = true ->
  item = type \/ local = type.
Proof.
  intros H. apply orb_true_iff in H as [H|H]; apply String.eqb_eq in H; auto.
Qed.

Section Soundness.

Variable host : Host.
Variable fs : FileSystem.
Variable rec : SourceInfo -> string -> Stack -> option (Outcome * Stack).

Hypothesis rec_sound :
  forall s t st r st',
    rec s t st = Some (Found r, st') -> foundSpec host fs s t r.

Lemma importLoop_sound F X imp items st r st' :
  imp ∈ code F ->
  kind imp = KImport ->
  (forall b, b ∈ items -> b ∈ default [] (imports imp)) ->
  importLoop host fs rec (path F) (from imp) X items st
  = Some (Some (Found r), st') ->
  foundSpec host fs F X r.
Proof.
  intros Himp Hk. revert st.
  induction items as [|[item local] rest IH]; simpl; intros st Hsub H;
    [discriminate|].
  assert (Hrest : forall b, b ∈ rest -> b ∈ default [] (imports imp)).
  { intros b Hb. apply Hsub. now right. }
  destruct (String.eqb item X || String.eqb local X) eqn:Hm; [|eauto].
  apply binding_matches in Hm.
  destruct (importTarget host fs (path F) (from imp)) as [[q|]|] eqn:Ht;
    [| eauto | discriminate].
  destruct (bool_decide (is_Some (st !! q))); [discriminate|].
  destruct (readSourceInfo fs q) as [src|] eqn:Hread; [|discriminate].
  apply readSourceInfo_Some in Hread as (c & Hc & ->).
  destruct (rec _ item _) as [[[r'| |] st2]|] eqn:E; try discriminate;
    [|eauto].
  injection H as <- <-.
  destruct (rec_sound _ _ _ _ _ E)
    as (Hp & _ & G & Y & n & info & Hreach & Hin & Hlm & Hd & _ & _).
  split; [reflexivity|]. split; [reflexivity|].
  exists G, Y, (S n), info. simpl.
  split; [|repeat split; auto; try discriminate].
  - eapply reaches_import; eauto. apply Hsub. now left.
  - intros [= ->]. inversion Hreach; subst. exact Hp.
Qed.

Lemma codeLoop_sound F X code' st r st' :
  (forall i, i ∈ code' -> i ∈ code F) ->
  codeLoop host fs rec (path F) X code' st = Some (Found r, st') ->
  foundSpec host fs F X r.
Proof.
  revert st. induction code' as [|info rest IH]; simpl; intros st Hsub H;
    [discriminate|].
  assert (Hrest : forall i, i ∈ rest -> i ∈ code F).
  { intros i Hi. apply Hsub. now right. }
  assert (Hinfo : info ∈ code F) by (apply Hsub; now left).
  assert (Hlocal : forall st1,
    match localMatch info X with
    | Some declaration =>
        Some (Found {| resolved_path := path F;
                       resolvedInfo := declaration;
                       resolvedPath := path F;
                       resolved_type := X |}, st1)
    | None => codeLoop host fs rec (path F) X rest st1
    end = Some (Found r, st') -> foundSpec host fs F X r).
  { intros st1 H1. destruct (localMatch info X) as [d|] eqn:Hlm; [|eauto].
    injection H1 as <- <-.
    split; [reflexivity|]. split; [reflexivity|].
    exists F, X, 0%nat, info. simpl.
    repeat split; auto using localMatch_declaredAs. constructor. }
  unfold importStep in H.
  destruct (isKind (kind info) KImport) eqn:Hk; [|eauto].
  apply bool_decide_eq_true in Hk.
  destruct (importLoop _ _ _ _ _ _ _ _) as [[[o|] st1]|] eqn:E;
    try discriminate; [|eauto].
  injection H as -> <-.
  eapply importLoop_sound; eauto.
Qed.

End Soundness.

Lemma resolveTypeFuel_sound host fs fuel :
  forall s t st r st',
    resolveTypeFuel host fs fuel s t st = Some (Found r, st') ->
    foundSpec host fs s t r.
Proof.
  induction fuel as [|fuel IH]; intros s t st r st' H; [discriminate|].
  simpl in H. eapply codeLoop_sound; [exact IH | | exact H]. auto.
Qed.

(** C3, as the code has it.  When [resolveType(F, X)] succeeds, [path] and
    [type] of the result are those of the query, and [resolvedInfo] is a
    declaration that a record of some file [G] yields for a name [Y],
    where following import bindings leads from [X] in [F] to [Y] in [G]
    ([Y] is the original exported name of the last binding; it is [X] when
    the declaration is found in [F]).  The record is the declaration
    itself, named [Y], or an export of it.  [resolvedPath] is the path of
    [F] when the declaration is found in [F], and the path of [G] when [G]
    is the file [F] imports from. *)
Theorem resolveType_found_declared :
  forall host fs F X r,
    resolveType host fs F X = Found r ->
    resolved_path r = path F /\ resolved_type r = X /\
    exists G Y n info,
      Reaches host fs F X G Y n /\ info ∈ code G /\
      localMatch info Y = Some (resolvedInfo r) /\
      declaredAs info Y (resolvedInfo r) /\
      (n = 0%nat -> resolvedPath r = path F) /\
      (n = 1%nat -> resolvedPath r = path G).
Proof.
  intros host fs F X r H.
  apply resolveType_returns in H as (fuel & st' & H).
  exact (resolveTypeFuel_sound _ _ _ _ _ _ _ _ H).
Qed.

Lemma resolveType_found_declared_witness :
  resolveType Sample.host Sample.renameFiles Sample.mainSource "Bar"
  = Found Sample.renameResult /\
  resolved_path Sample.renameResult = "/src/main.ts" /\
  resolved_type Sample.renameResult = "Bar".
Proof.
  assert (H : resolveType Sample.host Sample.renameFiles Sample.mainSource
                "Bar" = Found Sample.renameResult) by (vm_compute; reflexivity).
  split; [exact H|].
  destruct (resolveType_found_declared _ _ _ _ _ H) as (H1 & H2 & _).
  split; [exact H1 | exact H2].
Defined.

(** Over a chain of two imports the declaration of [/src/c.ts] is found,
    and [resolvedPath] is the path of the file in between: the field is
    taken from [path] of the nested result. *)
Example resolveType_two_imports :
  resolveType Sample.host Sample.chainFiles
    {| path := "/src/a.ts"; code := Sample.chainA |} "Foo"
  = Found {| resolved_path := "/src/a.ts";
             resolvedInfo := Sample.classInfo "Foo" None [];
             resolvedPath := "/src/b.ts";
             resolved_type := "Foo" |}.
Proof. vm_compute. reflexivity. Qed.

(** C3, as the specification states it, fails when an import renames: the
    name [Bar] resolves to the class that [/src/other.ts] declares under
    the name [Foo]; no record of that file is named [Bar]. *)
Lemma resolveType_renamed_import_counterexample :
  exists r,
    resolveType Sample.host Sample.renameFiles Sample.mainSource "Bar"
    = Found r
    /\ ~ namedAtResolvedPath Sample.renameFiles "Bar" r.
Proof.
  exists Sample.renameResult. split; [vm_compute; reflexivity|].
  intros (c & info & Hfs & Hin & Hn).
  assert (Hc : c = Sample.otherCode).
  { vm_compute in Hfs. injection Hfs as <-. reflexivity. }
  subst c. unfold Sample.otherCode in Hin.
  apply list_elem_of_singleton in Hin. subst info.
  destruct Hn as [[_ Hn]|[Hk _]]; discriminate.
Qed.

(** ** Type resolver: the order of the checks *)

Section Order.

Variable host : Host.
Variable fs : FileSystem.
Variable rec : SourceInfo -> string -> Stack -> option (Outcome * Stack).

(** Bindings that do not match the name are passed over. *)
Lemma importLoop_skip p from X before items st :
  (forall b : string * string,
      b ∈ before -> String.eqb b.1 X || String.eqb b.2 X = false) ->
  importLoop host fs rec p from X (before ++ items) st
  = importLoop host fs rec p from X items st.
Proof.
  induction before as [|[item local] rest IH]; intros H; simpl;
    [reflexivity|].
  pose proof (H (item, local) ltac:(now left)) as Hb. simpl in Hb.
  rewrite Hb. apply IH. intros b Hb'. apply H. now right.
Qed.

Lemma importStep_no_mention p X info st :
  mentions info X = false ->
  importStep host fs rec p X info st = Some (None, st).
Proof.
  unfold mentions, importStep. destruct (isKind (kind info) KImport);
    [|reflexivity].
  simpl. intros H.
  rewrite <- (app_nil_r (default [] (imports info))).
  rewrite importLoop_skip; [reflexivity|].
  intros b Hb.
  destruct (String.eqb b.1 X || String.eqb b.2 X) eqn:E; [|reflexivity].
  rewrite <- H. symmetry. apply existsb_exists.
  exists b. split; [now apply list_elem_of_In | exact E].
Qed.

(** Records that neither bind nor declare the name are passed over. *)
Lemma codeLoop_skip p X pre rest st :
  (forall i, i ∈ pre -> mentions i X = false /\ localMatch i X = None) ->
  codeLoop host fs rec p X (pre ++ rest) st
  = codeLoop host fs rec p X rest st.
Proof.
  induction pre as [|info pre IH]; intros H; simpl; [reflexivity|].
  destruct (H info ltac:(now left)) as [Hm Hl].
  rewrite importStep_no_mention, Hl by exact Hm.
  apply IH. intros i Hi. apply H. now right.
Qed.

End Order.

(** A local declaration reached before any import that binds the name is
    the result, on any stack. *)
Lemma returns_local_first host fs F X pre d post decl st :
  code F = pre ++ d :: post ->
  (forall i, i ∈ pre -> mentions i X = false /\ localMatch i X = None) ->
  mentions d X = false ->
  localMatch d X = Some decl ->
  returns host fs F X st
    (Found {| resolved_path := path F; resolvedInfo := decl;
              resolvedPath := path F; resolved_type := X |}).
Proof.
  intros Hc Hpre Hm Hl.
  exists 1%nat, st. simpl. rewrite Hc, codeLoop_skip by exact Hpre.
  simpl. now rewrite importStep_no_mention, Hl by exact Hm.
Qed.

Lemma resolveType_local_first host fs F X pre d post decl :
  code F = pre ++ d :: post ->
  (forall i, i ∈ pre -> mentions i X = false /\ localMatch i X = None) ->
  mentions d X = false ->
  localMatch d X = Some decl ->
  resolveType host fs F X
  = Found {| resolved_path := path F; resolvedInfo := decl;
             resolvedPath := path F; resolved_type := X |}.
Proof.
  intros Hc Hpre Hm Hl. apply resolveType_returns.
  eapply returns_local_first; eauto.
Qed.

(** An import binding reached before any declaration of the name, whose
    target resolves the original name, gives the result. *)
Lemma resolveType_import_first host fs F X pre imp post before item local
    after q c r' :
  code F = pre ++ imp :: post ->
  (forall i, i ∈ pre -> mentions i X = false /\ localMatch i X = None) ->
  kind imp = KImport ->
  imports imp = Some (before ++ (item, local) :: after) ->
  (forall b : string * string,
      b ∈ before -> String.eqb b.1 X || String.eqb b.2 X = false) ->
  item = X \/ local = X ->
  importTarget host fs (path F) (from imp) = Some (Some q) ->
  fs !! q = Some (Some c) ->
  returns host fs {| path := q; code := c |} item
    (<[q := {| path := q; code := c |}]> ∅) (Found r') ->
  resolveType host fs F X
  = Found {| resolved_path := path F; resolvedInfo := resolvedInfo r';
             resolvedPath := resolved_path r'; resolved_type := X |}.
Proof.
  intros Hc Hpre Hk Him Hbefore Hm Ht Hq (fuel & st' & Hr).
  apply resolveType_returns. exists (S fuel), (delete q st').
  simpl. rewrite Hc, codeLoop_skip by exact Hpre. simpl.
  unfold importStep, isKind. rewrite Hk, bool_decide_eq_true_2 by reflexivity.
  rewrite Him. simpl. rewrite importLoop_skip by exact Hbefore. simpl.
  assert (Hb : String.eqb item X || String.eqb local X = true).
  { destruct Hm as [->| ->]; rewrite String.eqb_refl; auto using orb_true_r. }
  rewrite Hb, Ht. rewrite lookup_empty.
  rewrite bool_decide_eq_false_2 by (intros [? ?]; discriminate).
  unfold readSourceInfo. rewrite Hq, Hr. reflexivity.
Qed.

(** C2, as the code has it.  The records of a file are examined in the
    order of the code list, in one pass; at each record the import
    bindings of the name are followed first and the record is then matched
    as a declaration.  So of an import that binds the name and a local
    declaration of the name, the one that comes first decides: a
    declaration that comes first is returned, whatever imports follow it;
    an import that comes first and resolves gives the result, whatever
    declarations follow it. *)
Theorem resolveType_first_record_decides :
  forall host fs F X pre,
    (forall i, i ∈ pre -> mentions i X = false /\ localMatch i X = None) ->
    (forall d post decl,
        code F = pre ++ d :: post ->
        mentions d X = false ->
        localMatch d X = Some decl ->
        resolveType host fs F X
        = Found {| resolved_path := path F; resolvedInfo := decl;
                   resolvedPath := path F; resolved_type := X |})
    /\
    (forall imp post before item local after q c r',
        code F = pre ++ imp :: post ->
        kind imp = KImport ->
        imports imp = Some (before ++ (item, local) :: after) ->
        (forall b : string * string,
            b ∈ before -> String.eqb b.1 X || String.eqb b.2 X = false) ->
        item = X \/ local = X ->
        importTarget host fs (path F) (from imp) = Some (Some q) ->
        fs !! q = Some (Some c) ->
        returns host fs {| path := q; code := c |} item
          (<[q := {| path := q; code := c |}]> ∅) (Found r') ->
        resolveType host fs F X
        = Found {| resolved_path := path F; resolvedInfo := resolvedInfo r';
                   resolvedPath := resolved_path r'; resolved_type := X |}).
Proof.
  intros host fs F X pre Hpre. split.
  - intros d post decl Hc Hm Hl.
    eapply resolveType_local_first; eauto.
  - intros imp post before item local after q c r' Hc Hk Him Hb Hm Ht Hq Hr.
    eapply resolveType_import_first; eauto.
Qed.

Lemma resolveType_first_record_decides_witness :
  resolveType Sample.host Sample.shadowFiles Sample.shadowSource "Foo"
  = Found {| resolved_path := "/src/main.ts";
             resolvedInfo := Sample.classInfo "Foo" None [];
             resolvedPath := "/src/main.ts"; resolved_type := "Foo" |}
  /\
  resolveType Sample.host Sample.renameFiles Sample.mainSource "Bar"
  = Found Sample.renameResult.
Proof.
  split.
  - refine (proj1 (resolveType_first_record_decides Sample.host
                     Sample.shadowFiles Sample.shadowSource "Foo" [] _)
                  (Sample.classInfo "Foo" None [])
                  [Sample.importInfo "./other.js" [("Foo", "Foo")]]
                  (Sample.classInfo "Foo" None []) _ _ _);
      [intros i Hi; inversion Hi | reflexivity | reflexivity | reflexivity].
  - refine (proj2 (resolveType_first_record_decides Sample.host
                     Sample.renameFiles Sample.mainSource "Bar" [] _)
                  (Sample.importInfo "./other.js" [("Foo", "Bar")])
                  [] [] "Foo" "Bar" [] "/src/other.ts" Sample.otherCode
                  {| resolved_path := "/src/other.ts";
                     resolvedInfo := Sample.classInfo "Foo" None [];
                     resolvedPath := "/src/other.ts";
                     resolved_type := "Foo" |}
                  _ _ _ _ _ _ _ _);
      [intros i Hi; inversion Hi | reflexivity | reflexivity | reflexivity
      | intros b Hb; inversion Hb | right; reflexivity
      | vm_compute; reflexivity | vm_compute; reflexivity |].
    exists 1%nat, (<["/src/other.ts" :=
                     {| path := "/src/other.ts"; code := Sample.otherCode |}]> ∅).
    reflexivity.
Defined.

(** C2, as the specification states it, fails: in [Sample.shadowSource]
    the class [Foo] comes before the import of [Foo], the import would
    resolve to the interface of [/src/other.ts], and the class is what
    [resolveType] returns. *)
Lemma resolveType_local_before_import_counterexample :
  ~ importPreferred Sample.host Sample.shadowFiles Sample.shadowSource "Foo".
Proof.
  intros H.
  destruct (H (Sample.importInfo "./other.js" [("Foo", "Foo")])
              "Foo" "Foo" "/src/other.ts" Sample.otherInterface
              {| resolved_path := "/src/other.ts";
                 resolvedInfo := Sample.interfaceInfo "Foo" None [];
                 resolvedPath := "/src/other.ts";
                 resolved_type := "Foo" |}
              (Sample.classInfo "Foo" None []))
    as (r & Hr & Hinfo & Hpath).
  - right; left.
  - reflexivity.
  - left.
  - now left.
  - vm_compute; reflexivity.
  - vm_compute; reflexivity.
  - exists 1%nat, (<["/src/other.ts" :=
                     {| path := "/src/other.ts";
                        code := Sample.otherInterface |}]> ∅).
    reflexivity.
  - left.
  - eexists. reflexivity.
  - assert (Hc : resolveType Sample.host Sample.shadowFiles
                   Sample.shadowSource "Foo"
                 = Found {| resolved_path := "/src/main.ts";
                            resolvedInfo := Sample.classInfo "Foo" None [];
                            resolvedPath := "/src/main.ts";
                            resolved_type := "Foo" |})
      by (vm_compute; reflexivity).
    rewrite Hc in Hr. injection Hr as <-. simpl in Hpath. discriminate.
Qed.

(** ** Type resolver: circular imports *)

Section ClosedWorld.

Variable host : Host.
Variable fs : FileSystem.
Variable W : gset string.
Variable Names : string -> Prop.

(** Every file of [W] can be read, imports only from [W] and declares
    none of the names. *)
Hypothesis files_closed :
  forall p, p ∈ W ->
    exists c, fs !! p = Some (Some c)
              /\ forall info, info ∈ c -> closedInfo host fs W Names p info.

Variable fuel : nat.
Variable rec : SourceInfo -> string -> Stack -> option (Outcome * Stack).

Hypothesis rec_not_found :
  forall src type (st : gmap string SourceInfo),
    path src ∈ W -> fs !! path src = Some (Some (code src)) ->
    Names type ->
    (size (W ∖ dom st) < fuel)%nat ->
    exists st', rec src type st = Some (NotFound, st') /\ dom st ⊆ dom st'.

Lemma importLoop_closed p from type items (st : gmap string SourceInfo) :
  (forall b : string * string, b ∈ items -> Names b.1) ->
  (importTarget host fs p from = Some None
   \/ exists q, importTarget host fs p from = Some (Some q) /\ q ∈ W) ->
  (size (W ∖ dom st) <= fuel)%nat ->
  exists o st',
    importLoop host fs rec p from type items st = Some (o, st')
    /\ (o = None \/ o = Some NotFound) /\ dom st ⊆ dom st'.
Proof.
  intros Hnames Ht. revert st.
  induction items as [|[item local] rest IH]; intros st Hm; simpl.
  - eauto 6.
  - assert (Hrest : forall b : string * string, b ∈ rest -> Names b.1).
    { intros b Hb. apply Hnames. now right. }
    specialize (IH Hrest).
    destruct (String.eqb item type || String.eqb local type); [|auto].
    destruct Ht as [Ht|(q & Ht & Hq)]; rewrite Ht; [auto|].
    destruct (bool_decide (is_Some (st !! q))) eqn:Hst; [eauto 6|].
    apply stack_lookup_decide in Hst.
    destruct (files_closed q Hq) as (c & Hc & _).
    unfold readSourceInfo. rewrite Hc.
    pose proof (stack_measure_insert W st q
                  {| path := q; code := c |} Hq Hst) as Hlt.
    destruct (rec_not_found {| path := q; code := c |} item
                (<[q := {| path := q; code := c |}]> st)
                Hq Hc (Hnames (item, local) ltac:(now left))
                ltac:(lia))
      as (st2 & -> & Hdom).
    assert (Hsub : dom st ⊆ dom st2).
    { rewrite dom_insert_L in Hdom. intros x Hx.
      apply Hdom, elem_of_union. now right. }
    destruct (IH st2) as (o' & st3 & -> & Ho & Hdom3).
    { pose proof (stack_measure_mono W _ _ Hdom). lia. }
    eexists _, _. split; [reflexivity|]. split; [exact Ho|].
    etrans; eauto.
Qed.

Lemma codeLoop_closed p type code' (st : gmap string SourceInfo) :
  (forall info, info ∈ code' -> closedInfo host fs W Names p info) ->
  Names type ->
  (size (W ∖ dom st) <= fuel)%nat ->
  exists st',
    codeLoop host fs rec p type code' st = Some (NotFound, st')
    /\ dom st ⊆ dom st'.
Proof.
  intros Hc Hn. revert st.
  induction code' as [|info rest IH]; intros st Hm; simpl.
  - eauto.
  - destruct (Hc info ltac:(now left)) as [Hlocal Himp].
    assert (Hrest : forall i, i ∈ rest -> closedInfo host fs W Names p i).
    { intros i Hi. apply Hc. now right. }
    specialize (IH Hrest). rewrite (Hlocal _ Hn).
    unfold importStep, isKind.
    destruct (bool_decide (kind info = KImport)) eqn:Hk; [|auto].
    apply bool_decide_eq_true in Hk. destruct (Himp Hk) as [Hnames Ht].
    destruct (importLoop_closed p (from info) type
                (default [] (imports info)) st Hnames Ht Hm)
      as (o & st1 & -> & [-> | ->] & Hdom).
    + destruct (IH st1) as (st2 & -> & Hdom2).
      { pose proof (stack_measure_mono W _ _ Hdom). lia. }
      eexists. split; [reflexivity|]. etrans; eauto.
    + eauto.
Qed.

End ClosedWorld.

(** In a set of files that import only from one another and declare none
    of the names asked for, every call returns [undefined], whatever the
    cycles among the imports. *)
Lemma resolveTypeFuel_closed host fs W Names :
  (forall p, p ∈ W ->
     exists c, fs !! p = Some (Some c)
               /\ forall info, info ∈ c -> closedInfo host fs W Names p info) ->
  forall fuel src type (st : gmap string SourceInfo),
    path src ∈ W -> fs !! path src = Some (Some (code src)) ->
    Names type ->
    (size (W ∖ dom st) < fuel)%nat ->
    exists st',
      resolveTypeFuel host fs fuel src type st = Some (NotFound, st')
      /\ dom st ⊆ dom st'.
Proof.
  intros Hfiles. induction fuel as [|fuel IH]; intros src type st Hp Hc Hn Hm;
    [lia|].
  simpl. destruct (Hfiles _ Hp) as (c & Hc' & Hclosed).
  assert (c = code src) by congruence. subst c.
  eapply codeLoop_closed with (fuel := fuel); eauto. lia.
Qed.

(** C1. Let file [A] import from [B] and [B] import back from [A], and
    let neither file declare the name asked for nor any name their import
    bindings ask for.  Then [resolveType] on [A] returns [undefined]: the
    call ends within the bound of [resolveType], without an exception.
    Moreover an import whose target is on the stack ends the call with
    [undefined] at once, whatever the nested call would do: the file is
    not entered again. *)
Theorem resolveType_circular_imports_not_found :
  forall host fs pa pb codeA codeB X,
    fs !! pa = Some (Some codeA) ->
    fs !! pb = Some (Some codeB) ->
    (forall imp, imp ∈ codeA -> kind imp = KImport ->
       importTarget host fs pa (from imp) = Some (Some pb)) ->
    (forall imp, imp ∈ codeB -> kind imp = KImport ->
       importTarget host fs pb (from imp) = Some (Some pa)) ->
    (forall n info,
       n = X \/ importedName codeA n \/ importedName codeB n ->
       info ∈ codeA \/ info ∈ codeB ->
       localMatch info n = None) ->
    resolveType host fs {| path := pa; code := codeA |} X = NotFound
    /\ (exists st',
          resolveTypeFuel host fs (S (size fs))
            {| path := pa; code := codeA |} X ∅ = Some (NotFound, st'))
    /\ (forall rec sourcePath from type item local rest
               (st : gmap string SourceInfo) q,
          String.eqb item type || String.eqb local type = true ->
          importTarget host fs sourcePath from = Some (Some q) ->
          is_Some (st !! q) ->
          importLoop host fs rec sourcePath from type
            ((item, local) :: rest) st = Some (Some NotFound, st)).
Proof.
  intros host fs pa pb codeA codeB X HA HB HimpA HimpB Hnone.
  set (Names := fun n => n = X \/ importedName codeA n \/ importedName codeB n).
  assert (Hfiles : forall p, p ∈ ({[pa; pb]} : gset string) ->
            exists c, fs !! p = Some (Some c)
              /\ forall info, info ∈ c ->
                   closedInfo host fs {[pa; pb]} Names p info).
  { intros p Hp.
    assert (Hcase : p = pa \/ p = pb).
    { apply elem_of_union in Hp as [Hp|Hp]; apply elem_of_singleton in Hp;
        auto. }
    destruct Hcase as [-> | ->].
    - exists codeA. split; [exact HA|]. intros info Hin. split.
      + intros n Hn. apply Hnone; auto.
      + intros Hk. split.
        * intros [item local] Hb. right; left. exists info, local. auto.
        * right. exists pb. split; [auto|].
          apply elem_of_union. right. now apply elem_of_singleton.
    - exists codeB. split; [exact HB|]. intros info Hin. split.
      + intros n Hn. apply Hnone; auto.
      + intros Hk. split.
        * intros [item local] Hb. right; right. exists info, local. auto.
        * right. exists pa. split; [auto|].
          apply elem_of_union. left. now apply elem_of_singleton. }
  assert (Hsize : (size ({[pa; pb]} : gset string) <= size fs)%nat).
  { rewrite <- size_dom. apply subseteq_size.
    intros p Hp. apply elem_of_dom.
    assert (Hcase : p = pa \/ p = pb).
    { apply elem_of_union in Hp as [Hp|Hp]; apply elem_of_singleton in Hp;
        auto. }
    destruct Hcase as [-> | ->]; eauto. }
  destruct (resolveTypeFuel_closed host fs {[pa; pb]} Names Hfiles
              (S (size fs)) {| path := pa; code := codeA |} X ∅)
    as (st' & Hr & _).
  { apply elem_of_union. left. now apply elem_of_singleton. }
  { exact HA. }
  { now left. }
  { rewrite dom_empty_L, difference_empty_L. lia. }
  split; [|split].
  - unfold resolveType. now rewrite Hr.
  - eauto.
  - intros rec sourcePath from type item local rest st q Hm Ht Hst. simpl.
    rewrite Hm, Ht. now rewrite bool_decide_eq_true_2.
Qed.

Lemma resolveType_circular_imports_not_found_witness :
  resolveType Sample.host Sample.cycleFiles
    {| path := "/src/a.ts"; code := Sample.cycleA |} "X" = NotFound.
Proof.
  refine (proj1 (resolveType_circular_imports_not_found Sample.host
                   Sample.cycleFiles "/src/a.ts" "/src/b.ts"
                   Sample.cycleA Sample.cycleB "X" _ _ _ _ _)).
  - vm_compute; reflexivity.
  - vm_compute; reflexivity.
  - intros imp Hin _. apply list_elem_of_singleton in Hin. subst imp.
    vm_compute; reflexivity.
  - intros imp Hin _. apply list_elem_of_singleton in Hin. subst imp.
    vm_compute; reflexivity.
  - intros n info _ [Hin|Hin]; apply list_elem_of_singleton in Hin;
      subst info; reflexivity.
Defined.

(** ** Imports that rename *)

(** The [.js] suffix of a module specifier is removed by the resolver,
    when it computes the path to load, and the extension is then probed. *)
Lemma importTarget_js host fs sourcePath from p :
  resolveFrom host sourcePath from = Some p ->
  extname host p = ".js" ->
  importTarget host fs sourcePath from
  = Some (probeExtension host fs
            (JS.take (String.length p - 3) p)).
Proof.
  intros Hr He. unfold importTarget, stripJs, JS.substringTo.
  rewrite Hr, He. simpl. do 3 f_equal. lia.
Qed.

(** C7, as the code has it.  The declaration
    [import { Foo as Bar } from './other.js'] is classified as an import
    record whose [from] is [./other.js], the specifier without its quotes,
    and whose [imports] map the original name [Foo] to the local name
    [Bar].  The resolver removes the [.js] suffix when it computes the
    path to load.  Resolving [Bar] in a file whose first record that binds
    or declares [Bar] is this import finds, in the file the import is
    loaded from, the declaration of [Foo]. *)
Theorem import_rename_classified_and_resolved :
  (forall b1 b2 b3,
     exists info,
       getImportInfo
         (ImportDeclaration b1 "'./other.js'"
            (Some [NamedImports b2 [ImportSpecifier b3 (Some "Foo") "Bar"]]))
       = Some info
       /\ kind info = KImport
       /\ from info = Some "./other.js"
       /\ imports info = Some [("Foo", "Bar")])
  /\
  (forall host fs sourcePath p,
     resolveFrom host sourcePath (Some "./other.js") = Some p ->
     extname host p = ".js" ->
     importTarget host fs sourcePath (Some "./other.js")
     = Some (probeExtension host fs (JS.take (String.length p - 3) p)))
  /\
  (forall host fs F info pre post q c pre' d post' decl,
     kind info = KImport ->
     from info = Some "./other.js" ->
     imports info = Some [("Foo", "Bar")] ->
     code F = pre ++ info :: post ->
     (forall i, i ∈ pre ->
        mentions i "Bar" = false /\ localMatch i "Bar" = None) ->
     importTarget host fs (path F) (Some "./other.js") = Some (Some q) ->
     fs !! q = Some (Some c) ->
     c = pre' ++ d :: post' ->
     (forall i, i ∈ pre' ->
        mentions i "Foo" = false /\ localMatch i "Foo" = None) ->
     mentions d "Foo" = false ->
     localMatch d "Foo" = Some decl ->
     resolveType host fs F "Bar"
     = Found {| resolved_path := path F; resolvedInfo := decl;
                resolvedPath := q; resolved_type := "Bar" |}).
Proof.
  split; [|split].
  - intros b1 b2 b3. eexists. split; [reflexivity|]. repeat split.
  - intros host fs sourcePath p Hr He. now apply importTarget_js.
  - intros host fs F info pre post q c pre' d post' decl
           Hk Hf Him Hc Hpre Ht Hq Hc' Hpre' Hm Hl.
    rewrite (resolveType_import_first host fs F "Bar" pre info post []
               "Foo" "Bar" [] q c
               {| resolved_path := q; resolvedInfo := decl;
                  resolvedPath := q; resolved_type := "Foo" |});
      auto.
    + intros b Hb. inversion Hb.
    + now rewrite Hf.
    + apply (returns_local_first host fs {| path := q; code := c |} "Foo"
               pre' d post' decl); auto.
Qed.

Lemma import_rename_classified_and_resolved_witness :
  resolveType Sample.host Sample.classifiedFiles Sample.classifiedSource "Bar"
  = Found Sample.renameResult.
Proof.
  refine (proj2 (proj2 import_rename_classified_and_resolved)
            Sample.host Sample.classifiedFiles Sample.classifiedSource
            Sample.classifiedImport [] [] "/src/other.ts" Sample.otherCode
            [] (Sample.classInfo "Foo" None []) []
            (Sample.classInfo "Foo" None [])
            _ _ _ _ _ _ _ _ _ _ _);
    try reflexivity; try (intros i Hi; inversion Hi);
    vm_compute; reflexivity.
Defined.

(** C7, as the specification states it, fails in the [from] field: the
    classifier keeps the [.js] of the specifier. *)
Lemma getImportInfo_from_counterexample :
  ~ exists info,
      getImportInfo Sample.importFooAsBar = Some info
      /\ from info = Some "./other"
      /\ imports info = Some [("Foo", "Bar")].
Proof.
  intros (info & Hg & Hf & _).
  vm_compute in Hg. injection Hg as <-. discriminate.
Qed.

(** ** Doclet parser *)

(** The block of the example is the one doclet block of the text before
    the function. *)
Lemma matchDoclets_docBlock :
  matchDoclets
    (JS.substring (getFullStart (nodeBase Sample.functionNode))
       (getStart (nodeBase Sample.functionNode)) Sample.docFullText) None
  = [Sample.docBlock].
Proof. vm_compute. reflexivity. Qed.

(** C8, as the code has it.  Let the parser report, for the block of the
    specification, one JSDoc node with its description (possibly followed
    by white space) and its two tags, each tag with the slice of the block
    that starts at its [@] (what follows the text of a tag in that slice
    is white space or comment gutter).  Then the block
    parses to one doclet whose tags are, in this order, [description] with
    [Does a thing.], [param] with [{number} a - value], and [return] with
    [{number} result]: only the name of the tag is removed from the text of
    a tag, the type expression stays. *)
Theorem getDocletInfosBetween_block :
  forall parse b w0 w1 w2,
    In w0 Sample.trailingSpaces ->
    In w1 Sample.trailingGutters ->
    In w2 Sample.trailingGutters ->
    filter (fun parts : list Node => parts <> [])
      (parse (Sample.docBlock +:+ scratchSuffix))
    = [[Sample.docNode b w0 w1 w2]] ->
    exists d,
      getDocletInfosBetween parse Sample.docFullText
        Sample.functionNode Sample.functionNode = Some [d]
      /\ kind d = KDoclet
      /\ tags d = Some Sample.docTagsComputed.
Proof.
  intros parse b w0 w1 w2 H0 H1 H2 Hparse.
  unfold getDocletInfosBetween, getDocletsBetween.
  change (nodeId (nodeBase Sample.functionNode)
          =? nodeId (nodeBase Sample.functionNode))%nat with true.
  cbv iota. rewrite matchDoclets_docBlock.
  change (JSText.join EmptyString
            ((fun m => m +:+ scratchSuffix) <$> [Sample.docBlock]))
    with (Sample.docBlock +:+ scratchSuffix).
  rewrite Hparse. clear Hparse.
  simpl in H0, H1, H2.
  destruct H0 as [<-|[<-|[<-|[<-|[]]]]];
    destruct H1 as [<-|[<-|[<-|[<-|[<-|[<-|[]]]]]]];
    destruct H2 as [<-|[<-|[<-|[<-|[<-|[<-|[]]]]]]];
    (eexists; split; [vm_compute; reflexivity|]; split; reflexivity).
Qed.

Lemma getDocletInfosBetween_block_witness :
  exists d,
    getDocletInfosBetween Sample.docParser Sample.docFullText
      Sample.functionNode Sample.functionNode = Some [d]
    /\ kind d = KDoclet
    /\ tags d = Some Sample.docTagsComputed.
Proof.
  apply (getDocletInfosBetween_block Sample.docParser Sample.base0
           EmptyString (JSText.nl +:+ " * ") " ").
  - simpl. auto.
  - simpl. auto 10.
  - simpl. auto.
  - vm_compute. reflexivity.
Defined.

(** C8, as the specification states it, fails for the [return] tag: the
    stored text is [{number} result], not [result]. *)
Lemma getDocletInfosBetween_return_counterexample :
  ~ exists d,
      getDocletInfosBetween Sample.docParser Sample.docFullText
        Sample.functionNode Sample.functionNode = Some [d]
      /\ tags d = Some Sample.docTagsClaimed.
Proof.
  intros (d & Hd & Ht).
  vm_compute in Hd. injection Hd as <-. discriminate.
Qed.

(** ** Inheritance flattener *)

Lemma name_setInherited p : name (setInherited p) = name p.
Proof. now destruct p. Qed.

Lemma inherited_setInherited p : inherited (setInherited p) = Some true.
Proof. now destruct p. Qed.

Lemma name_newCodeInfo p : name (newCodeInfo p) = name p.
Proof. now destruct p. Qed.

Lemma properties_pushProperty info own p :
  properties (pushProperty info own p) = Some (own ++ [p]).
Proof. now destruct info. Qed.

Lemma Pushed_trans own mid final :
  Pushed own mid -> Pushed mid final -> Pushed own final.
Proof.
  intros H1 H2. induction H2 as [|current property H IH He Hi]; [exact H1|].
  now apply pushed_more.
Qed.

Lemma inheritLoop_pushed baseProperties :
  forall info own,
    properties info = Some own ->
    exists final,
      properties (inheritLoop baseProperties info).1 = Some final
      /\ Pushed own final.
Proof.
  induction baseProperties as [|property rest IH]; intros info own Hp; simpl.
  - exists own. split; [exact Hp | constructor].
  - rewrite Hp. destruct (extractInfo own (name property)) eqn:He.
    + now apply IH.
    + destruct (IH (pushProperty info own
                      (setInherited (newCodeInfo property)))
                   (own ++ [setInherited (newCodeInfo property)])
                   (properties_pushProperty _ _ _))
        as (final & Hf & Hpushed).
      exists final. split; [exact Hf|].
      eapply Pushed_trans; [|exact Hpushed].
      apply pushed_more; [constructor | |apply inherited_setInherited].
      now rewrite name_setInherited, name_newCodeInfo.
Qed.

Lemma inheritLive_pushed fuel :
  forall index info own info' ok,
    properties info = Some own ->
    inheritLive fuel index info = Some (info', ok) ->
    exists final, properties info' = Some final /\ Pushed own final.
Proof.
  induction fuel as [|fuel IH]; intros index info own info' ok Hp H;
    [discriminate|].
  simpl in H. rewrite Hp in H.
  destruct (own !! index) as [property|].
  - destruct (extractInfo own (name property)) eqn:He.
    + eapply IH; eauto.
    + destruct (IH _ _ _ _ _ (properties_pushProperty info own
                  (setInherited (newCodeInfo property))) H)
        as (final & Hf & Hpushed).
      exists final. split; [exact Hf|].
      eapply Pushed_trans; [|exact Hpushed].
      apply pushed_more; [constructor | |apply inherited_setInherited].
      now rewrite name_setInherited, name_newCodeInfo.
  - injection H as <- <-. exists own. split; [exact Hp | constructor].
Qed.

Lemma extendLoop_pushed host fs src self fuel extendsToDo :
  forall info own info' out,
    properties info = Some own ->
    extendLoop host fs src self fuel extendsToDo info = Some (info', out) ->
    exists final, properties info' = Some final /\ Pushed own final.
Proof.
  induction extendsToDo as [|extendType rest IH];
    intros info own info' out Hp H; simpl in H.
  - injection H as <- <-. exists own. split; [exact Hp | constructor].
  - destruct (resolveType host fs src extendType) as [r| |];
      try (injection H as <- <-; exists own; split; [exact Hp | constructor]).
    destruct (self extendType).
    + destruct (isClassOrInterface info); [|eauto].
      destruct (inheritLive fuel 0 info) as [[mid ok]|] eqn:Hl;
        [|discriminate].
      destruct (inheritLive_pushed _ _ _ _ _ _ Hp Hl) as (m & Hm & Hpushed).
      destruct ok.
      * destruct (IH _ _ _ _ Hm H) as (final & Hf & Hpushed').
        exists final. split; [exact Hf|]. eapply Pushed_trans; eauto.
      * injection H as <- <-. eauto.
    + destruct (isClassOrInterface (resolvedInfo r)); [|eauto].
      destruct (properties (resolvedInfo r)) as [baseProperties|];
        [|injection H as <- <-; exists own; split; [exact Hp | constructor]].
      destruct (inheritLoop_pushed baseProperties info own Hp)
        as (m & Hm & Hpushed).
      destruct (inheritLoop baseProperties info) as [mid ok]. simpl in Hm.
      destruct ok.
      * destruct (IH _ _ _ _ Hm H) as (final & Hf & Hpushed').
        exists final. split; [exact Hf|]. eapply Pushed_trans; eauto.
      * injection H as <- <-. eauto.
Qed.

(** When no base is the record itself, the call ends whatever the fuel. *)
Lemma extendLoop_ends host fs src self fuel extendsToDo :
  (forall n, self n = false) ->
  forall info, is_Some (extendLoop host fs src self fuel extendsToDo info).
Proof.
  intros Hself. induction extendsToDo as [|extendType rest IH];
    intros info; simpl; [eauto|].
  destruct (resolveType host fs src extendType) as [r| |]; eauto.
  rewrite Hself.
  destruct (isClassOrInterface (resolvedInfo r)); [|apply IH].
  destruct (properties (resolvedInfo r)) as [baseProperties|]; eauto.
  destruct (inheritLoop baseProperties info) as [mid []]; eauto.
Qed.

Lemma extractInfo_app_None l l' n :
  extractInfo (l ++ l') n = None -> extractInfo l n = None.
Proof.
  unfold extractInfo. rewrite filter_app.
  destruct (filter _ l); [reflexivity|discriminate].
Qed.

(** What the pushes amount to, in terms of the lists. *)
Lemma Pushed_appended own final :
  Pushed own final ->
  exists added,
    final = own ++ added
    /\ Forall (fun p => inherited p = Some true) added
    /\ (forall before p after,
          added = before ++ p :: after ->
          extractInfo (own ++ before) (name p) = None).
Proof.
  induction 1 as [|current property H IH He Hi].
  - exists []. split; [now rewrite app_nil_r|]. split; [constructor|].
    intros before p after Heq. destruct before; discriminate.
  - destruct IH as (added & -> & Hall & Hfirst).
    exists (added ++ [property]). split; [now rewrite app_assoc|].
    split; [apply Forall_app; split; [exact Hall | now repeat constructor]|].
    intros before p after Heq.
    destruct after as [|a after _] using rev_ind.
    + apply app_inj_tail in Heq as [-> ->]. exact He.
    + rewrite app_comm_cons, app_assoc in Heq.
      apply app_inj_tail in Heq as [-> _]. eapply Hfirst. reflexivity.
Qed.

Lemma kind_pushed_copy p : kind (setInherited (newCodeInfo p)) = kind p.
Proof. now destruct p. Qed.

Lemma extractInfo_self own index p :
  own !! index = Some p -> isNamedKind (kind p) = true ->
  extractInfo own (name p) <> None.
Proof.
  intros Hl Hk. unfold extractInfo.
  assert (Hin : p ∈ filter (fun info => isNamedKind (kind info) = true
                                       /\ name info = name p) own).
  { apply list_elem_of_filter. split; [auto|].
    eapply list_elem_of_lookup_2. exact Hl. }
  destruct (filter _ own); [inversion Hin | discriminate].
Qed.

Lemma extractInfo_push_unnamed own q n :
  isNamedKind (kind q) = false ->
  extractInfo (own ++ [q]) n = extractInfo own n.
Proof.
  intros Hk. unfold extractInfo. rewrite filter_app.
  rewrite (filter_cons_False _ q []); [|rewrite Hk; intros [? _]; discriminate].
  now rewrite filter_nil, app_nil_r.
Qed.

(** The loop over the record's own array never ends once a record that
    [extractInfo] does not find lies at or after the iterator: its copy is
    pushed behind it and is not found either. *)
Lemma inheritLive_never_ends fuel :
  forall index info own j p,
    properties info = Some own ->
    (index <= j)%nat -> own !! j = Some p ->
    extractInfo own (name p) = None ->
    inheritLive fuel index info = None.
Proof.
  induction fuel as [|fuel IH]; intros index info own j p Hp Hle Hj He;
    [reflexivity|].
  simpl. rewrite Hp.
  assert (Hlen : (index < length own)%nat).
  { apply lookup_lt_Some in Hj. lia. }
  destruct (lookup_lt_is_Some_2 own index Hlen) as [q Hq]. rewrite Hq.
  assert (Hunnamed : forall r i, own !! i = Some r ->
            extractInfo own (name r) = None -> isNamedKind (kind r) = false).
  { intros r i Hr Hn. destruct (isNamedKind (kind r)) eqn:Hk; [|reflexivity].
    exfalso. eapply extractInfo_self; eauto. }
  destruct (extractInfo own (name q)) eqn:Heq.
  - assert (j <> index) by (intros ->; congruence).
    eapply (IH (S index) info own j p); eauto. lia.
  - pose proof (Hunnamed q index Hq Heq) as Hkq.
    set (q' := setInherited (newCodeInfo q)).
    assert (Hkq' : isNamedKind (kind q') = false)
      by (unfold q'; now rewrite kind_pushed_copy).
    destruct (decide (j = index)) as [->|Hne].
    + assert (p = q) by congruence. subst p.
      eapply (IH (S index) _ (own ++ [q']) (length own) q').
      * apply properties_pushProperty.
      * lia.
      * rewrite lookup_app_r by lia. now rewrite Nat.sub_diag.
      * rewrite extractInfo_push_unnamed by exact Hkq'.
        unfold q'. now rewrite name_setInherited, name_newCodeInfo.
    + eapply (IH (S index) _ (own ++ [q']) j p).
      * apply properties_pushProperty.
      * lia.
      * rewrite lookup_app_l; [exact Hj | now apply lookup_lt_Some in Hj].
      * now rewrite extractInfo_push_unnamed by exact Hkq'.
Qed.

(** C5. Let the record have a property list.  After [autoExtendInfo] the
    list is the old list followed by the records copied from the bases;
    every copied record is marked [inherited = true]; a record is copied
    only when [extractInfo] finds no record of its name before it, in the
    old list or among the records copied earlier (local members win, the
    first inherited occurrence wins); hence for a name [foo] that the old
    list declares, the records named [foo] of the new list are exactly
    those of the old list, untouched: if there was one, there is one, the
    local one, with its [inherited] field as it was.  This holds however
    the call ends; and the call does end when no base is the record
    itself. *)
Theorem autoExtendInfo_local_members_win :
  forall host fs sourceInfo resolvesToSelf fuel infoToExtend own,
    properties infoToExtend = Some own ->
    (forall infoToExtend' out,
       autoExtendInfo host fs sourceInfo resolvesToSelf fuel infoToExtend
       = Some (infoToExtend', out) ->
       exists added,
         properties infoToExtend' = Some (own ++ added)
         /\ Forall (fun p => inherited p = Some true) added
         /\ (forall before p after,
               added = before ++ p :: after ->
               extractInfo (own ++ before) (name p) = None)
         /\ (forall foo,
               extractInfo own (Some foo) <> None ->
               filter (fun p => name p = Some foo) (own ++ added)
               = filter (fun p => name p = Some foo) own))
    /\ ((forall n, resolvesToSelf n = false) ->
        is_Some (autoExtendInfo host fs sourceInfo resolvesToSelf fuel
                   infoToExtend)).
Proof.
  intros host fs sourceInfo self fuel infoToExtend own Hp.
  split; [|intros Hself; now apply extendLoop_ends].
  intros info' out Hrun.
  destruct (extendLoop_pushed host fs sourceInfo self fuel
              (gatherExtends host infoToExtend) infoToExtend own info' out
              Hp Hrun)
    as (final & Hf & Hpushed).
  destruct (Pushed_appended _ _ Hpushed) as (added & -> & Hall & Hfirst).
  exists added. split; [exact Hf|]. split; [exact Hall|].
  split; [exact Hfirst|].
  intros foo Hfoo. rewrite filter_app.
  assert (Hnone : filter (fun p => name p = Some foo) added = []).
  { destruct (filter (fun p => name p = Some foo) added) as [|p t] eqn:E;
      [reflexivity|].
    assert (Hp' : p ∈ filter (fun p => name p = Some foo) added)
      by (rewrite E; left).
    apply list_elem_of_filter in Hp' as [Hname Hin].
    apply list_elem_of_split in Hin as (before & after & ->).
    specialize (Hfirst before p after eq_refl). rewrite Hname in Hfirst.
    apply extractInfo_app_None in Hfirst. contradiction. }
  now rewrite Hnone, app_nil_r.
Qed.

Lemma autoExtendInfo_local_members_win_witness :
  properties Sample.childInterface = Some Sample.childOwn /\
  autoExtendInfo Sample.host Sample.flattenFiles Sample.flattenSource
    Sample.noSelf 0 Sample.childInterface
  = Some (Sample.childExtended, Returns None) /\
  exists added,
    properties Sample.childExtended = Some (Sample.childOwn ++ added)
    /\ Forall (fun p => inherited p = Some true) added.
Proof.
  assert (Hrun : autoExtendInfo Sample.host Sample.flattenFiles
                   Sample.flattenSource Sample.noSelf 0 Sample.childInterface
                 = Some (Sample.childExtended, Returns None))
    by (vm_compute; reflexivity).
  split; [reflexivity|]. split; [exact Hrun|].
  destruct (proj1 (autoExtendInfo_local_members_win Sample.host
                     Sample.flattenFiles Sample.flattenSource Sample.noSelf
                     0 Sample.childInterface Sample.childOwn eq_refl)
              _ _ Hrun) as (added & H1 & H2 & _).
  exists added. split; [exact H1 | exact H2].
Defined.

(** A record that is its own base and has a loose doclet in its body: the
    loop over its own array copies the doclet, then the copy, and so on;
    the call does not end, whatever the bound. *)
Example autoExtendInfo_self_base :
  resolveType Sample.host ∅ Sample.selfSource "Foo"
  = Found {| resolved_path := "/src/foo.ts"; resolvedInfo := Sample.selfClass;
             resolvedPath := "/src/foo.ts"; resolved_type := "Foo" |}
  /\ forall fuel,
       autoExtendInfo Sample.host ∅ Sample.selfSource Sample.isFoo fuel
         Sample.selfClass = None.
Proof.
  assert (Hr : resolveType Sample.host ∅ Sample.selfSource "Foo"
               = Found {| resolved_path := "/src/foo.ts";
                          resolvedInfo := Sample.selfClass;
                          resolvedPath := "/src/foo.ts";
                          resolved_type := "Foo" |})
    by (vm_compute; reflexivity).
  split; [exact Hr|]. intros fuel.
  unfold autoExtendInfo.
  change (gatherExtends Sample.host Sample.selfClass) with ["Foo"].
  cbn [extendLoop]. rewrite Hr.
  change (Sample.isFoo "Foo") with true.
  change (isClassOrInterface Sample.selfClass) with true. cbv iota.
  rewrite (inheritLive_never_ends fuel 0 Sample.selfClass _ 0
             (Sample.docletInfo [("description", ["loose"])]) eq_refl);
    [reflexivity | lia | reflexivity | reflexivity].
Qed.

(** C6, on the code.  The call returns [undefined] on every path that
    does not throw: [autoExtendInfo] has no [return] with a value.  In the
    example every base resolves and the record is extended, yet the call
    returns [undefined]; and with a second base that does not resolve the
    call returns [undefined] after the members of the first base have been
    pushed. *)
Theorem autoExtendInfo_returns_undefined :
  (forall host fs sourceInfo resolvesToSelf fuel infoToExtend info' v,
     autoExtendInfo host fs sourceInfo resolvesToSelf fuel infoToExtend
     <> Some (info', Returns (Some v)))
  /\ autoExtendInfo Sample.host Sample.flattenFiles Sample.flattenSource
       Sample.noSelf 0 Sample.childInterface
     = Some (Sample.childExtended, Returns None)
  /\ resolveType Sample.host Sample.flattenFiles Sample.flattenSource
       "Missing" = NotFound
  /\ autoExtendInfo Sample.host Sample.flattenFiles Sample.flattenSource
       Sample.noSelf 0 Sample.childTwoBases
     = Some (Sample.childTwoBasesAfter, Returns None)
  /\ Sample.childTwoBasesAfter <> Sample.childTwoBases.
Proof.
  split; [|split; [|split; [|split]]]; try (vm_compute; reflexivity).
  - intros host fs sourceInfo self fuel infoToExtend info' v.
    unfold autoExtendInfo.
    generalize (gatherExtends host infoToExtend) as todo.
    intros todo. revert infoToExtend.
    induction todo as [|extendType rest IH]; intros info; simpl;
      [discriminate|].
    destruct (resolveType host fs sourceInfo extendType) as [r| |];
      try discriminate.
    destruct (self extendType).
    + destruct (isClassOrInterface info); [|apply IH].
      destruct (inheritLive fuel 0 info) as [[mid []]|];
        [apply IH | discriminate | discriminate].
    + destruct (isClassOrInterface (resolvedInfo r)); [|apply IH].
      destruct (properties (resolvedInfo r)); [|discriminate].
      destruct (inheritLoop l info) as [mid []]; [apply IH | discriminate].
  - discriminate.
Qed.

(** ** Copies and shared tag maps *)

(** C9, on the code.  [newCodeInfo] copies the property (object 3) and its
    doclet (object 2) into new objects, but the copy of the doclet refers
    to the tag map of the template (object 1): the map has no [kind], so
    it is taken over as it is.  A tag added to the doclet of the copy is
    then a tag of the doclet of the template. *)
Theorem newCodeInfo_shares_doclet_tags :
  exists h1 copy docletCopy h2,
    Store.newCodeInfo 3 Sample.propertyHeap 3 = Store.Ok (h1, copy)
    /\ copy <> 3%nat
    /\ Store.getField h1 copy "doclet" = Store.VRef docletCopy
    /\ docletCopy <> 2%nat
    /\ Store.getField h1 docletCopy "tags" = Store.VRef 1
    /\ Store.getField h1 2%nat "tags" = Store.VRef 1
    /\ Store.tagValues h1 2%nat "since" = None
    /\ Store.addTag h1 docletCopy "since" "1.0" = Store.Ok h2
    /\ Store.tagValues h2 2%nat "since" = Some [Store.VString "1.0"].
Proof.
  eexists _, _, _, _.
  split; [vm_compute; reflexivity|].
  split; [discriminate|].
  split; [vm_compute; reflexivity|].
  split; [discriminate|].
  split; [vm_compute; reflexivity|].
  split; [vm_compute; reflexivity|].
  split; [vm_compute; reflexivity|].
  split; [vm_compute; reflexivity|].
  vm_compute; reflexivity.
Qed.

(** * Further properties of the engine *)

(** ** Objects as dictionaries *)

Lemma dictGet_dictSet_eq {V : Type} (k : string) (v : V) (d : Dict V) :
  dictGet k (dictSet k v d) = Some v.
Proof.
  induction d as [|[k' w] d IH]; simpl.
  - now rewrite String.eqb_refl.
  - destruct (String.eqb k' k) eqn:E; simpl; rewrite E; [reflexivity|exact IH].
Qed.

Lemma dictGet_dictSet_ne {V : Type} (k k' : string) (v : V) (d : Dict V) :
  k' <> k -> dictGet k' (dictSet k v d) = dictGet k' d.
Proof.
  intros Hne. induction d as [|[k0 w] d IH]; simpl.
  - destruct (String.eqb_spec k k'); [congruence|reflexivity].
  - destruct (String.eqb_spec k0 k) as [->|Hk]; simpl.
    + destruct (String.eqb_spec k k'); [congruence|reflexivity].
    + destruct (String.eqb_spec k0 k'); [reflexivity|exact IH].
Qed.

Lemma dictGet_None_keys {V : Type} (k : string) (d : Dict V) :
  dictGet k d = None <-> k ∉ dictKeys d.
Proof.
  unfold dictKeys. induction d as [|[k0 w] d IH]; simpl.
  - split; [intros _ H; inversion H | reflexivity].
  - rewrite not_elem_of_cons. destruct (String.eqb_spec k0 k) as [->|Hk].
    + split; [discriminate | intros [H _]; congruence].
    + rewrite IH. split; [intros H; split; [congruence|exact H] | tauto].
Qed.

Lemma dictSet_absent {V : Type} (k : string) (v : V) (d : Dict V) :
  dictGet k d = None -> dictSet k v d = d ++ [(k, v)].
Proof.
  induction d as [|[k0 w] d IH]; simpl; [reflexivity|].
  destruct (String.eqb k0 k); [discriminate|]. intros H. now rewrite IH.
Qed.

Lemma dictSet_same {V : Type} (k : string) (v : V) (d : Dict V) :
  dictGet k d = Some v -> dictSet k v d = d.
Proof.
  induction d as [|[k0 w] d IH]; simpl; [discriminate|].
  destruct (String.eqb_spec k0 k) as [->|Hk].
  - now intros [= ->].
  - intros H. now rewrite IH.
Qed.

Lemma dictKeys_dictSet {V : Type} (k : string) (v : V) (d : Dict V) :
  dictKeys (dictSet k v d)
  = dictKeys d ++ (match dictGet k d with Some _ => [] | None => [k] end).
Proof.
  unfold dictKeys. induction d as [|[k0 w] d IH]; simpl; [reflexivity|].
  destruct (String.eqb_spec k0 k) as [->|Hk].
  - rewrite app_nil_r. reflexivity.
  - rewrite fmap_cons. simpl. f_equal. exact IH.
Qed.

Lemma dictSet_NoDup {V : Type} (k : string) (v : V) (d : Dict V) :
  NoDup (dictKeys d) -> NoDup (dictKeys (dictSet k v d)).
Proof.
  intros H. rewrite dictKeys_dictSet.
  destruct (dictGet k d) eqn:E; [now rewrite app_nil_r|].
  apply NoDup_app. split; [exact H|]. split.
  - intros x Hx Hk. apply list_elem_of_singleton in Hk. subst x.
    now apply dictGet_None_keys in E.
  - apply NoDup_singleton.
Qed.

Lemma dictGet_dictDelete_eq {V : Type} (k : string) (d : Dict V) :
  dictGet k (dictDelete k d) = None.
Proof.
  apply dictGet_None_keys. unfold dictKeys, dictDelete.
  intros H. apply list_elem_of_fmap in H as ([k0 w] & -> & H).
  apply list_elem_of_filter in H as [H _]. now apply H.
Qed.

Lemma dictGet_dictDelete_ne {V : Type} (k k' : string) (d : Dict V) :
  k' <> k -> dictGet k' (dictDelete k d) = dictGet k' d.
Proof.
  intros Hne. unfold dictDelete.
  induction d as [|[k0 w] d IH]; [reflexivity|].
  rewrite filter_cons. cbn [fst]. destruct (decide (k0 <> k)) as [Hk|Hk].
  - cbn [dictGet]. now rewrite IH.
  - assert (k0 = k) by (destruct (decide (k0 = k)); tauto). subst k0.
    cbn [dictGet]. destruct (String.eqb_spec k k'); [congruence|exact IH].
Qed.

Lemma dictDelete_NoDup {V : Type} (k : string) (d : Dict V) :
  NoDup (dictKeys d) -> NoDup (dictKeys (dictDelete k d)).
Proof.
  unfold dictKeys, dictDelete. induction d as [|[k0 w] d IH];
    [intros; constructor|].
  rewrite fmap_cons. cbn [fst]. intros H. apply NoDup_cons in H as [Hn H].
  rewrite filter_cons. cbn [fst]. destruct (decide (k0 <> k)); [|auto].
  rewrite fmap_cons. cbn [fst]. apply NoDup_cons. split; [|auto].
  intros Hin. apply Hn. apply list_elem_of_fmap in Hin as ([k1 w1] & -> & Hin).
  apply list_elem_of_filter in Hin as [_ Hin].
  apply list_elem_of_fmap. now exists (k1, w1).
Qed.

Lemma dictDelete_absent {V : Type} (k : string) (d : Dict V) :
  dictGet k d = None -> dictDelete k d = d.
Proof.
  unfold dictDelete. induction d as [|[k0 w] d IH]; [reflexivity|].
  cbn [dictGet]. destruct (String.eqb_spec k0 k) as [->|Hk]; [discriminate|].
  intros H. rewrite filter_cons_True by exact Hk. now rewrite IH.
Qed.

Lemma includes_elem_of (l : list string) (x : string) :
  includes l x = true <-> x ∈ l.
Proof.
  unfold includes. rewrite existsb_exists. split.
  - intros (y & Hin & He). apply String.eqb_eq in He. subst y.
    now apply list_elem_of_In.
  - intros H. exists x. split; [now apply list_elem_of_In|].
    apply String.eqb_refl.
Qed.

Lemma includes_false (l : list string) (x : string) :
  includes l x = false <-> x ∉ l.
Proof.
  rewrite <- includes_elem_of. destruct (includes l x); split; congruence.
Qed.

Lemma lastOf_app first rest x : lastOf first (rest ++ [x]) = x.
Proof. revert first; induction rest as [|y rest IH]; intros; simpl; auto. Qed.

Lemma tags_setTags d t : tags (setTags d t) = Some t.
Proof. now destruct d. Qed.

(** ** Doclet tags: [addTag], [extractTagText], [removeTag] *)

Lemma lastOf_snoc (l : list string) (x : string) :
  match l ++ [x] with
  | first :: rest => Some (lastOf first rest)
  | [] => None
  end = Some x.
Proof. destruct l as [|y l]; simpl; [reflexivity|]. now rewrite lastOf_app. Qed.

(** X1. A text added with [addTag] is what [extractTagText] returns for
    the tag afterwards, as does [getTagText] of the older copy: it is put
    behind the texts the tag had, the other tags are as they were, and the
    keys of the tag map stay distinct. *)
Theorem addTag_then_extractTagText :
  forall doclet tags0 tag text,
    tags doclet = Some tags0 ->
    plainKey tag = true ->
    JSText.truthy text = true ->
    exists doclet' tags1,
      addTag doclet tag text = Some doclet'
      /\ tags doclet' = Some tags1
      /\ dictGet tag tags1 = Some (default [] (dictGet tag tags0) ++ [text])
      /\ extractTagText doclet' tag false = Some (Some text)
      /\ getTagText doclet' tag = Some (Some text)
      /\ (forall other allText,
            other <> tag ->
            extractTagText doclet' other allText
            = extractTagText doclet other allText)
      /\ (NoDup (dictKeys tags0) -> NoDup (dictKeys tags1)).
Proof.
  intros doclet tags0 tag text Ht _ Htext.
  unfold addTag. rewrite Ht, Htext.
  eexists _, _. split; [reflexivity|]. split; [apply tags_setTags|].
  split; [apply dictGet_dictSet_eq|]. split; [|split; [|split]].
  - unfold extractTagText. rewrite tags_setTags, dictGet_dictSet_eq.
    now rewrite lastOf_snoc.
  - unfold getTagText. rewrite tags_setTags, dictGet_dictSet_eq.
    now rewrite lastOf_snoc.
  - intros other allText Hne. unfold extractTagText.
    rewrite tags_setTags, Ht. now rewrite dictGet_dictSet_ne.
  - apply dictSet_NoDup.
Qed.

Lemma addTag_then_extractTagText_witness :
  exists doclet',
    addTag Doclets.described "since" "2.0" = Some doclet'
    /\ extractTagText doclet' "since" false = Some (Some "2.0")
    /\ extractTagText doclet' "since" true
       = Some (Some ("1.0" +:+ blankLine +:+ "2.0")).
Proof.
  destruct (addTag_then_extractTagText Doclets.described _ "since" "2.0"
              eq_refl eq_refl eq_refl)
    as (d & t & Ha & Ht & Hg & He & _).
  exists d. split; [exact Ha|]. split; [exact He|].
  vm_compute in Ha. injection Ha as <-. vm_compute. reflexivity.
Defined.



(** X3. [removeTag] returns the texts the tag had ([undefined] for an
    absent tag) and leaves a doclet in which [extractTagText] finds
    nothing for the tag; the other tags are as they were and the keys stay
    distinct.  Removing a tag that [addTag] has just created restores the
    tag map.  For a doclet without a tag map the call returns the empty
    array and changes nothing. *)
Theorem removeTag_removes :
  (forall doclet tags0 tag,
     tags doclet = Some tags0 ->
     plainKey tag = true ->
     (removeTag doclet tag).2 = dictGet tag tags0
     /\ (forall allText,
           extractTagText (removeTag doclet tag).1 tag allText = Some None)
     /\ (forall other allText,
           other <> tag ->
           extractTagText (removeTag doclet tag).1 other allText
           = extractTagText doclet other allText)
     /\ (NoDup (dictKeys tags0) ->
         exists tags1, tags (removeTag doclet tag).1 = Some tags1
                       /\ NoDup (dictKeys tags1))
     /\ (dictGet tag tags0 = None ->
         forall text doclet',
           addTag doclet tag text = Some doclet' ->
           tags (removeTag doclet' tag).1 = Some tags0))
  /\ (forall doclet tag,
        tags doclet = None -> removeTag doclet tag = (doclet, Some [])).
Proof.
  split.
  - intros doclet tags0 tag Ht _. unfold removeTag. rewrite Ht. simpl.
    split; [reflexivity|]. split; [|split; [|split]].
    + intros allText. unfold extractTagText.
      now rewrite tags_setTags, dictGet_dictDelete_eq.
    + intros other allText Hne. unfold extractTagText.
      now rewrite tags_setTags, Ht, dictGet_dictDelete_ne.
    + intros Hnd. eexists. split; [apply tags_setTags|].
      now apply dictDelete_NoDup.
    + intros Hn text doclet' Ha. unfold addTag in Ha. rewrite Ht, Hn in Ha.
      injection Ha as <-. rewrite tags_setTags. simpl.
      rewrite tags_setTags. f_equal. rewrite dictSet_absent by exact Hn.
      unfold dictDelete. rewrite filter_app.
      rewrite (filter_cons_False _ (tag, _) []) by (simpl; tauto).
      rewrite filter_nil, app_nil_r.
      apply (dictDelete_absent tag tags0 Hn).
  - intros doclet tag Ht. unfold removeTag. now rewrite Ht.
Qed.

Lemma removeTag_removes_witness :
  (removeTag Doclets.described "since").2 = Some ["1.0"]
  /\ extractTagText (removeTag Doclets.described "since").1 "since" false
     = Some None
  /\ extractTagText (removeTag Doclets.described "since").1
       "description" false
     = Some (Some "A chart.").
Proof.
  destruct (proj1 removeTag_removes Doclets.described _ "since"
              eq_refl eq_refl) as (H1 & H2 & H3 & _).
  split; [exact H1|]. split; [apply H2|].
  rewrite H3 by discriminate. reflexivity.
Defined.

(** ** Doclet tags: [mergeDocletInfos] *)

Lemma mergeValues_prefix values target :
  exists added, mergeValues values target = target ++ added.
Proof.
  revert target; induction values as [|v values IH]; intros target; simpl.
  - exists []. now rewrite app_nil_r.
  - destruct (includes target v); [apply IH|].
    destruct (IH (target ++ [v])) as (added & ->).
    exists (v :: added). now rewrite <- app_assoc.
Qed.

Lemma mergeValues_target values target v :
  v ∈ target -> v ∈ mergeValues values target.
Proof.
  intros H. destruct (mergeValues_prefix values target) as (added & ->).
  apply elem_of_app. now left.
Qed.

Lemma mergeValues_values values target v :
  v ∈ values -> v ∈ mergeValues values target.
Proof.
  revert target; induction values as [|w values IH]; intros target H;
    [inversion H|].
  simpl. apply elem_of_cons in H as [->|H]; [|now apply IH].
  apply mergeValues_target.
  destruct (includes target w) eqn:E.
  - now apply includes_elem_of.
  - apply elem_of_app. right. now left.
Qed.

Lemma mergeValues_NoDup values target :
  NoDup target -> NoDup (mergeValues values target).
Proof.
  revert target; induction values as [|v values IH]; intros target H; simpl;
    [exact H|].
  destruct (includes target v) eqn:E; [now apply IH|].
  apply IH. apply NoDup_app. split; [exact H|]. split.
  - intros x Hx Hv. apply list_elem_of_singleton in Hv. subst x.
    now apply includes_false in E.
  - apply NoDup_singleton.
Qed.

Lemma mergeValues_covered values target :
  (forall v, v ∈ values -> v ∈ target) -> mergeValues values target = target.
Proof.
  induction values as [|v values IH]; intros H; simpl; [reflexivity|].
  assert (Hv : includes target v = true)
    by (apply includes_elem_of, H; now left).
  rewrite Hv. apply IH. intros w Hw. apply H. now right.
Qed.

Lemma dictGet_elem_of {V : Type} (k : string) (v : V) (d : Dict V) :
  dictGet k d = Some v -> (k, v) ∈ d.
Proof.
  induction d as [|[k0 w] d IH]; simpl; [discriminate|].
  destruct (String.eqb_spec k0 k) as [->|Hk].
  - intros [= ->]. now left.
  - intros H. right. auto.
Qed.

Lemma elem_of_dictSet {V : Type} (k k' : string) (v v' : V) (d : Dict V) :
  (k', v') ∈ dictSet k v d -> (k', v') = (k, v) \/ (k', v') ∈ d.
Proof.
  induction d as [|[k0 w] d IH]; simpl.
  - intros H. apply list_elem_of_singleton in H. now left.
  - destruct (String.eqb_spec k0 k) as [->|Hk]; intros H;
      apply elem_of_cons in H as [H|H].
    + now left.
    + right. now right.
    + right. rewrite H. now left.
    + destruct (IH H) as [?|?]; [now left|right; now right].
Qed.

Lemma tagsGrow_refl d : tagsGrow d d.
Proof. intros tag l H. exists []. now rewrite app_nil_r. Qed.

Lemma tagsGrow_trans a b c : tagsGrow a b -> tagsGrow b c -> tagsGrow a c.
Proof.
  intros H1 H2 tag l H. destruct (H1 _ _ H) as (x & Hb).
  destruct (H2 _ _ Hb) as (y & Hc). exists (x ++ y).
  now rewrite app_assoc.
Qed.

Lemma tagsGrow_merge_one tag values d :
  tagsGrow d
    (dictSet tag (mergeValues values (default [] (dictGet tag d))) d).
Proof.
  intros t l H. destruct (decide (t = tag)) as [->|Hne].
  - rewrite dictGet_dictSet_eq, H. simpl.
    destruct (mergeValues_prefix values l) as (added & ->). eauto.
  - rewrite dictGet_dictSet_ne by exact Hne. exists [].
    now rewrite app_nil_r.
Qed.

Lemma mergeTags_grows source target : tagsGrow target (mergeTags source target).
Proof.
  revert target; induction source as [|[tag values] source IH];
    intros target; simpl; [apply tagsGrow_refl|].
  eapply tagsGrow_trans; [apply tagsGrow_merge_one | apply IH].
Qed.

Lemma covers_grow target target' source :
  covers target source -> tagsGrow target target' -> covers target' source.
Proof.
  intros Hc Hg tag values Hin. destruct (Hc _ _ Hin) as (l & Hl & Hv).
  destruct (Hg _ _ Hl) as (added & Hl'). exists (l ++ added).
  split; [exact Hl'|]. intros v H. apply elem_of_app. left. auto.
Qed.

Lemma mergeTags_covers source target : covers (mergeTags source target) source.
Proof.
  revert target; induction source as [|[tag values] source IH];
    intros target; simpl.
  - intros t v H. inversion H.
  - intros t v H. apply elem_of_cons in H as [[= -> ->]|H]; [|now apply IH].
    destruct (mergeTags_grows source
                (dictSet tag
                   (mergeValues values (default [] (dictGet tag target)))
                   target) tag _ (dictGet_dictSet_eq _ _ _))
      as (added & Hg).
    eexists. split; [exact Hg|]. intros x Hx. apply elem_of_app. left.
    now apply mergeValues_values.
Qed.

Lemma mergeTags_covered source target :
  covers target source -> mergeTags source target = target.
Proof.
  revert target; induction source as [|[tag values] source IH];
    intros target H; simpl; [reflexivity|].
  destruct (H tag values ltac:(now left)) as (l & Hl & Hv).
  rewrite Hl. simpl. rewrite (mergeValues_covered _ _ Hv).
  rewrite (dictSet_same _ _ _ Hl). apply IH.
  intros t v Hin. apply H. now right.
Qed.

Lemma mergeTags_NoDup_keys source target :
  NoDup (dictKeys target) -> NoDup (dictKeys (mergeTags source target)).
Proof.
  revert target; induction source as [|[tag values] source IH];
    intros target H; simpl; [exact H|].
  apply IH. now apply dictSet_NoDup.
Qed.

Lemma mergeTags_valuesDistinct source target :
  valuesDistinct target -> valuesDistinct (mergeTags source target).
Proof.
  revert target; induction source as [|[tag values] source IH];
    intros target H; simpl; [exact H|].
  apply IH. intros t l Hin.
  apply elem_of_dictSet in Hin as [[= -> ->]|Hin]; [|now apply (H t)].
  apply mergeValues_NoDup.
  destruct (dictGet tag target) as [l0|] eqn:E; simpl; [|constructor].
  apply (H tag). now apply dictGet_elem_of.
Qed.

(** What the loop over the sources keeps. *)
Lemma mergeSources_spec sources :
  forall target,
    (forall s, s ∈ sources -> is_Some (tags s)) ->
    exists merged,
      mergeSources sources target = Some merged
      /\ tagsGrow target merged
      /\ (forall s st, s ∈ sources -> tags s = Some st -> covers merged st)
      /\ (NoDup (dictKeys target) -> NoDup (dictKeys merged))
      /\ (valuesDistinct target -> valuesDistinct merged).
Proof.
  induction sources as [|s sources IH]; intros target Hs; simpl.
  - exists target. split; [reflexivity|]. split; [apply tagsGrow_refl|].
    split; [intros s st H; inversion H|]. auto.
  - destruct (Hs s ltac:(now left)) as [st Hst]. rewrite Hst.
    destruct (IH (mergeTags st target)) as (merged & Hm & Hg & Hc & Hk & Hv).
    { intros s' H'. apply Hs. now right. }
    exists merged. split; [exact Hm|]. split; [|split; [|split]].
    + eapply tagsGrow_trans; [apply mergeTags_grows | exact Hg].
    + intros s' st' Hin Ht. apply elem_of_cons in Hin as [->|Hin].
      * assert (st' = st) by congruence. subst st'.
        eapply covers_grow; [apply mergeTags_covers | exact Hg].
      * eapply Hc; eauto.
    + intros H. apply Hk. now apply mergeTags_NoDup_keys.
    + intros H. apply Hv. now apply mergeTags_valuesDistinct.
Qed.

Lemma mergeSources_covered sources :
  forall target,
    (forall s st, s ∈ sources -> tags s = Some st -> covers target st) ->
    (forall s, s ∈ sources -> is_Some (tags s)) ->
    mergeSources sources target = Some target.
Proof.
  induction sources as [|s sources IH]; intros target Hc Hs; simpl;
    [reflexivity|].
  destruct (Hs s ltac:(now left)) as [st Hst]. rewrite Hst.
  rewrite (mergeTags_covered st target) by (eapply Hc; [now left|exact Hst]).
  apply IH.
  - intros s' st' Hin. apply Hc. now right.
  - intros s' Hin. apply Hs. now right.
Qed.

Lemma setTags_setTags d t t' : setTags (setTags d t) t' = setTags d t'.
Proof. now destruct d. Qed.



(** X5. [mergeDocletInfos] adds no duplicates and is idempotent: distinct
    keys stay distinct, tags whose texts are pairwise different stay so,
    and merging the same sources once more into the result changes
    nothing. *)
Theorem mergeDocletInfos_idempotent :
  forall target targetTags sources merged,
    tags target = Some targetTags ->
    (forall s, s ∈ sources -> is_Some (tags s)) ->
    mergeDocletInfos (Some target) sources = Some merged ->
    mergeDocletInfos (Some merged) sources = Some merged
    /\ exists mergedTags,
         tags merged = Some mergedTags
         /\ (NoDup (dictKeys targetTags) -> NoDup (dictKeys mergedTags))
         /\ (valuesDistinct targetTags -> valuesDistinct mergedTags).
Proof.
  intros target targetTags sources merged Ht Hs Hrun.
  destruct (mergeSources_spec sources targetTags Hs)
    as (mergedTags & Hm & Hg & Hc & Hk & Hv).
  unfold mergeDocletInfos in Hrun. simpl in Hrun. rewrite Ht, Hm in Hrun.
  injection Hrun as <-. split.
  - unfold mergeDocletInfos. simpl. rewrite tags_setTags.
    rewrite (mergeSources_covered sources mergedTags Hc Hs).
    now rewrite setTags_setTags.
  - exists mergedTags. split; [apply tags_setTags|]. auto.
Qed.

Lemma mergeDocletInfos_idempotent_witness :
  mergeDocletInfos (Some Doclets.described) [Doclets.sampled]
  = Some Doclets.mergedSample
  /\ mergeDocletInfos (Some Doclets.mergedSample) [Doclets.sampled]
     = Some Doclets.mergedSample.
Proof.
  assert (Hs : forall s, s ∈ [Doclets.sampled] -> is_Some (tags s)).
  { intros s Hs. apply list_elem_of_singleton in Hs. subst s.
    eexists. reflexivity. }
  assert (Hm : mergeDocletInfos (Some Doclets.described) [Doclets.sampled]
               = Some Doclets.mergedSample) by (vm_compute; reflexivity).
  split; [exact Hm|].
  exact (proj1 (mergeDocletInfos_idempotent Doclets.described _
                  [Doclets.sampled] _ eq_refl Hs Hm)).
Defined.

(** ** Doclet tags: copies *)






(** ** Type extraction *)

Lemma allWord_snoc s c :
  allWord (s +:+ String c EmptyString) = allWord s && isWordChar c.
Proof.
  induction s as [|c' s IH]; simpl.
  - now rewrite andb_true_r.
  - change (String c' s +:+ String c EmptyString)
      with (String c' (s +:+ String c EmptyString)).
    simpl. rewrite IH. now rewrite andb_assoc.
Qed.

Lemma splitTypes_allWord s :
  forall cur inSeparator piece,
    allWord cur = true ->
    piece ∈ splitTypes s cur inSeparator ->
    allWord piece = true.
Proof.
  induction s as [|c s IH]; intros cur b piece Hcur Hin; simpl in Hin.
  - apply list_elem_of_singleton in Hin. now subst.
  - destruct (isWordChar c) eqn:Hc.
    + eapply IH; [|exact Hin]. rewrite allWord_snoc, Hcur, Hc. reflexivity.
    + destruct b.
      * eapply IH; eauto.
      * apply elem_of_cons in Hin as [->|Hin]; [exact Hcur|].
        eapply IH; [|exact Hin]. reflexivity.
Qed.

Lemma splitTypes_trailing_empty s :
  forall cur inSeparator,
    (inSeparator = true -> cur = EmptyString) ->
    endsWithSeparator s = true ->
    EmptyString ∈ splitTypes s cur inSeparator.
Proof.
  induction s as [|c s IH]; intros cur b Hinv Hend; [discriminate|].
  simpl. destruct s as [|c' s'].
  - simpl in Hend. apply negb_true_iff in Hend. rewrite Hend.
    destruct b; simpl.
    + rewrite (Hinv eq_refl). now left.
    + right. now left.
  - assert (Hend' : endsWithSeparator (String c' s') = true) by exact Hend.
    destruct (isWordChar c).
    + apply IH; [discriminate | exact Hend'].
    + destruct b.
      * apply IH; [exact Hinv | exact Hend'].
      * right. apply IH; [reflexivity | exact Hend'].
Qed.

Lemma extractTypesLoop_spec host native parts :
  forall types,
    exists added,
      extractTypesLoop host native parts types = types ++ added
      /\ (NoDup types -> NoDup (types ++ added))
      /\ (forall t, t ∈ added ->
            t ∈ parts /\ (native = false -> isNativeType host t = false))
      /\ (forall p, p ∈ parts ->
            native = true \/ isNativeType host p = false ->
            p ∈ types ++ added).
Proof.
  induction parts as [|part parts IH]; intros types; simpl.
  - exists []. rewrite app_nil_r. split; [reflexivity|]. split; [auto|].
    split; [intros t H; inversion H | intros p H; inversion H].
  - destruct (negb native && isNativeType host part) eqn:Hskip.
    + destruct (IH types) as (added & -> & Hnd & Hin & Hall).
      exists added. split; [reflexivity|]. split; [exact Hnd|]. split.
      * intros t Ht. destruct (Hin t Ht). split; [now right | auto].
      * intros p Hp Hok. apply elem_of_cons in Hp as [->|Hp]; [|auto].
        apply andb_true_iff in Hskip as [Hn Hnat].
        apply negb_true_iff in Hn. destruct Hok; congruence.
    + destruct (includes types part) eqn:Hinc.
      * destruct (IH types) as (added & -> & Hnd & Hin & Hall).
        exists added. split; [reflexivity|]. split; [exact Hnd|]. split.
        -- intros t Ht. destruct (Hin t Ht). split; [now right | auto].
        -- intros p Hp Hok. apply elem_of_cons in Hp as [->|Hp]; [|auto].
           apply elem_of_app. left. now apply includes_elem_of.
      * destruct (IH (types ++ [part])) as (added & -> & Hnd & Hin & Hall).
        exists (part :: added). rewrite <- app_assoc. simpl.
        split; [reflexivity|]. split; [|split].
        -- intros H. rewrite <- app_assoc in Hnd. apply Hnd.
           apply NoDup_app. split; [exact H|]. split.
           ++ intros x Hx Hp. apply list_elem_of_singleton in Hp. subst x.
              now apply includes_false in Hinc.
           ++ apply NoDup_singleton.
        -- intros t Ht. apply elem_of_cons in Ht as [->|Ht].
           ++ split; [now left|]. intros ->. simpl in Hskip. exact Hskip.
           ++ destruct (Hin t Ht). split; [now right | auto].
        -- intros p Hp Hok. rewrite <- app_assoc in Hall. simpl in Hall.
           apply elem_of_cons in Hp as [->|Hp]; [|auto].
           apply elem_of_app. right. now left.
Qed.

Lemma isNativeType_false host t :
  isNativeType host t = false ->
  (2 <= String.length t)%nat /\ isCapitalCase t = true
  /\ includes NATIVE_TYPES t = false /\ NATIVE_HELPER_test t = false
  /\ syntaxKindPositive host t = false.
Proof.
  unfold isNativeType. intros H.
  repeat (apply orb_false_iff in H as [H ?]).
  repeat split; auto.
  - apply Nat.ltb_ge in H. exact H.
  - now apply negb_false_iff.
Qed.

(** X7. [extractTypes] without native types returns each name once, and
    only names a declaration of the user can have: pieces of the type
    text made of word characters only (no dot, no bracket), at least two
    characters long, not starting with a lower-case letter, none of the
    native types or helpers, and no name of a syntax kind. *)
Theorem extractTypes_user_types_only :
  forall host typeString,
    NoDup (extractTypes host typeString false)
    /\ forall t,
         t ∈ extractTypes host typeString false ->
         t ∈ splitTypes typeString EmptyString false
         /\ allWord t = true
         /\ (2 <= String.length t)%nat
         /\ isCapitalCase t = true
         /\ includes NATIVE_TYPES t = false
         /\ NATIVE_HELPER_test t = false
         /\ syntaxKindPositive host t = false.
Proof.
  intros host typeString. unfold extractTypes.
  destruct (extractTypesLoop_spec host false
              (splitTypes typeString EmptyString false) [])
    as (added & -> & Hnd & Hin & _).
  simpl. split; [apply Hnd; constructor|].
  intros t Ht. destruct (Hin t Ht) as [Hp Hn].
  split; [exact Hp|]. split.
  - eapply splitTypes_allWord; [|exact Hp]. reflexivity.
  - apply isNativeType_false. auto.
Qed.

(** X8. [extractTypes] with native types returns every piece of the type
    text once; a type text that ends in a character that is no word
    character (as [Array<Foo>] does) therefore yields the empty text as
    one of its types. *)
Theorem extractTypes_with_native_types :
  forall host typeString,
    NoDup (extractTypes host typeString true)
    /\ (forall t,
          t ∈ extractTypes host typeString true
          <-> t ∈ splitTypes typeString EmptyString false)
    /\ (endsWithSeparator typeString = true ->
        EmptyString ∈ extractTypes host typeString true).
Proof.
  intros host typeString. unfold extractTypes.
  destruct (extractTypesLoop_spec host true
              (splitTypes typeString EmptyString false) [])
    as (added & -> & Hnd & Hin & Hall).
  simpl in *. split; [apply Hnd; constructor|].
  assert (Hiff : forall t,
            t ∈ added <-> t ∈ splitTypes typeString EmptyString false).
  { intros t. split; [intros Ht; now destruct (Hin t Ht) | auto]. }
  split; [exact Hiff|].
  intros Hend. apply Hiff. apply splitTypes_trailing_empty; [discriminate|].
  exact Hend.
Qed.

Lemma extractTypes_with_native_types_witness :
  endsWithSeparator "Array<Foo>" = true
  /\ extractTypes Sample.host "Array<Foo>" true = ["Array"; "Foo"; EmptyString]
  /\ EmptyString ∈ extractTypes Sample.host "Array<Foo>" true.
Proof.
  split; [reflexivity|]. split; [reflexivity|].
  exact (proj2 (proj2 (extractTypes_with_native_types Sample.host
                         "Array<Foo>")) eq_refl).
Defined.

Lemma gatherLoop_spec extracted :
  forall todo,
    exists added,
      gatherLoop extracted todo = todo ++ added
      /\ (NoDup todo -> NoDup (todo ++ added))
      /\ (forall t, t ∈ added -> t ∈ extracted)
      /\ (forall t, t ∈ extracted -> t ∈ todo ++ added).
Proof.
  induction extracted as [|e extracted IH]; intros todo; simpl.
  - exists []. rewrite app_nil_r. split; [reflexivity|]. split; [auto|].
    split; intros t H; inversion H.
  - destruct (includes todo e) eqn:Hinc.
    + destruct (IH todo) as (added & -> & Hnd & Hin & Hall).
      exists added. split; [reflexivity|]. split; [exact Hnd|]. split.
      * intros t Ht. right. auto.
      * intros t Ht. apply elem_of_cons in Ht as [->|Ht]; [|auto].
        apply elem_of_app. left. now apply includes_elem_of.
    + destruct (IH (todo ++ [e])) as (added & -> & Hnd & Hin & Hall).
      exists (e :: added). rewrite <- app_assoc. simpl.
      split; [reflexivity|]. split; [|split].
      * intros H. rewrite <- app_assoc in Hnd. apply Hnd.
        apply NoDup_app. split; [exact H|]. split.
        -- intros x Hx Hp. apply list_elem_of_singleton in Hp. subst x.
           now apply includes_false in Hinc.
        -- apply NoDup_singleton.
      * intros t Ht. apply elem_of_cons in Ht as [->|Ht]; [now left|].
        right. auto.
      * intros t Ht. rewrite <- app_assoc in Hall. simpl in Hall.
        apply elem_of_cons in Ht as [->|Ht]; [|auto].
        apply elem_of_app. right. now left.
Qed.

(** X9. The names [autoExtendInfo] sets out to resolve are pairwise
    different, each is a user type of one entry of [extends] (so never a
    native type, a lower-case name or a dotted name), and every user type
    of every entry is among them. *)
Theorem gatherExtends_distinct_user_types :
  forall host infoToExtend extendsTypes,
    extends infoToExtend = Some (ExtendsArray extendsTypes) ->
    NoDup (gatherExtends host infoToExtend)
    /\ (forall t,
          t ∈ gatherExtends host infoToExtend <->
          exists extendsType,
            extendsType ∈ extendsTypes
            /\ t ∈ extractTypes host extendsType false)
    /\ (forall t,
          t ∈ gatherExtends host infoToExtend ->
          isNativeType host t = false /\ allWord t = true).
Proof.
  intros host info extendsTypes He. unfold gatherExtends. rewrite He.
  assert (Hgen : forall l todo,
    NoDup todo ->
    NoDup (fold_left (fun extendsToDo extendsType =>
                        gatherLoop (extractTypes host extendsType false)
                                   extendsToDo) l todo)
    /\ forall t,
         t ∈ fold_left (fun extendsToDo extendsType =>
                          gatherLoop (extractTypes host extendsType false)
                                     extendsToDo) l todo
         <-> t ∈ todo
             \/ exists extendsType,
                  extendsType ∈ l
                  /\ t ∈ extractTypes host extendsType false).
  { induction l as [|e l IH]; intros todo Hnd; simpl.
    - split; [exact Hnd|]. intros t. split; [auto|].
      intros [H|(x & H & _)]; [exact H | inversion H].
    - destruct (gatherLoop_spec (extractTypes host e false) todo)
        as (added & Heq & Hnd' & Hin & Hall).
      rewrite Heq. destruct (IH (todo ++ added) (Hnd' Hnd)) as [H1 H2].
      split; [exact H1|]. intros t. rewrite H2. split.
      + intros [H|(x & Hx & Ht)].
        * apply elem_of_app in H as [H|H]; [now left|].
          right. exists e. split; [now left | auto].
        * right. exists x. split; [now right | exact Ht].
      + intros [H|(x & Hx & Ht)].
        * left. apply elem_of_app. now left.
        * apply elem_of_cons in Hx as [->|Hx].
          -- left. auto.
          -- right. eauto. }
  destruct (Hgen extendsTypes [] ltac:(constructor)) as [Hnd Hiff].
  split; [exact Hnd|]. split.
  - intros t. rewrite Hiff. split; [|auto].
    intros [H|H]; [inversion H | exact H].
  - intros t Ht. apply Hiff in Ht as [Ht|(x & _ & Ht)]; [inversion Ht|].
    destruct (extractTypesLoop_spec host false
                (splitTypes x EmptyString false) [])
      as (added & Heq & _ & Hin & _).
    unfold extractTypes in Ht. rewrite Heq in Ht. simpl in Ht.
    destruct (Hin t Ht) as [Hp Hn]. split; [auto|].
    eapply splitTypes_allWord; [|exact Hp]. reflexivity.
Qed.

Lemma gatherExtends_distinct_user_types_witness :
  gatherExtends Sample.host
    (Sample.classInfo "Chart" (Some (ExtendsArray ["Base<Options>"; "Base"]))
       [])
  = ["Base"; "Options"]
  /\ NoDup (gatherExtends Sample.host
              (Sample.classInfo "Chart"
                 (Some (ExtendsArray ["Base<Options>"; "Base"])) [])).
Proof.
  split; [reflexivity|].
  exact (proj1 (gatherExtends_distinct_user_types Sample.host
                  (Sample.classInfo "Chart"
                     (Some (ExtendsArray ["Base<Options>"; "Base"])) [])
                  ["Base<Options>"; "Base"] eq_refl)).
Defined.

(** ** [extractInfo] *)


(** ** [sanitizeText] *)

Lemma last_snoc s c : JSText.last (s +:+ String c EmptyString) = Some c.
Proof.
  induction s as [|c' s IH]; [reflexivity|].
  change (String c' s +:+ String c EmptyString)
    with (String c' (s +:+ String c EmptyString)).
  simpl. rewrite IH. now destruct (s +:+ String c EmptyString).
Qed.

Lemma length_snoc s c :
  String.length (s +:+ String c EmptyString) = S (String.length s).
Proof.
  induction s as [|c' s IH]; [reflexivity|].
  change (String c' s +:+ String c EmptyString)
    with (String c' (s +:+ String c EmptyString)).
  simpl. now rewrite IH.
Qed.

Lemma take_snoc s c :
  JS.take (String.length s) (s +:+ String c EmptyString) = s.
Proof.
  induction s as [|c' s IH]; [reflexivity|].
  change (String c' s +:+ String c EmptyString)
    with (String c' (s +:+ String c EmptyString)).
  simpl. now rewrite IH.
Qed.

Lemma append_String c (x y : string) :
  String c x +:+ y = String c (x +:+ y).
Proof. reflexivity. Qed.

Lemma last_Some_snoc s c :
  JSText.last s = Some c ->
  s = JS.take (String.length s - 1) s +:+ String c EmptyString.
Proof.
  induction s as [|c' s IH]; [discriminate|].
  destruct s as [|c'' s'].
  - simpl. now intros [= ->].
  - intros H. specialize (IH H).
    replace (String.length (String c' (String c'' s')) - 1)%nat
      with (S (String.length (String c'' s') - 1)) by (simpl; lia).
    cbn [JS.take]. rewrite append_String. now rewrite <- IH.
Qed.

(** X11. [sanitizeText] removes one pair of surrounding quote characters
    and nothing else: a text in quotes of one kind loses them; any other
    text comes back as it is, also a text that only starts with a quote or
    whose quotes differ.  So the result is the text itself or the text
    without its first and last character. *)
Theorem sanitizeText_strips_one_pair :
  (forall q s,
     isQuote q = true ->
     sanitizeText (String q (s +:+ String q EmptyString)) = s)
  /\ (forall c s, isQuote c = false -> sanitizeText (String c s) = String c s)
  /\ (forall text,
        sanitizeText text = text
        \/ exists q,
             isQuote q = true
             /\ text = String q (sanitizeText text +:+ String q EmptyString)).
Proof.
  split; [|split].
  - intros q s Hq. unfold sanitizeText. rewrite Hq, last_snoc.
    rewrite Ascii.eqb_refl, length_snoc. simpl. rewrite Nat.sub_0_r.
    apply take_snoc.
  - intros c s Hc. unfold sanitizeText. now rewrite Hc.
  - intros text. destruct text as [|q rest]; [now left|].
    unfold sanitizeText. destruct (isQuote q) eqn:Hq; [|now left].
    destruct (JSText.last rest) as [q'|] eqn:Hl; [|now left].
    destruct (Ascii.eqb_spec q q') as [<-|Hne]; [|now left].
    right. exists q. split; [exact Hq|]. f_equal.
    now apply last_Some_snoc.
Qed.

Lemma sanitizeText_strips_one_pair_witness :
  sanitizeText "'./other.js'" = "./other.js"
  /\ sanitizeText "`a'" = "`a'".
Proof.
  split.
  - exact (proj1 sanitizeText_strips_one_pair "'"%char "./other.js" eq_refl).
  - reflexivity.
Defined.

(** ** [changeSourceCode]: order of the argument, length, clamping *)

Lemma length_append (s t : string) :
  String.length (s +:+ t) = (String.length s + String.length t)%nat.
Proof.
  induction s as [|c s IH]; [reflexivity|].
  rewrite append_String. simpl. now rewrite IH.
Qed.

Lemma append_assoc (s t u : string) : (s +:+ t) +:+ u = s +:+ t +:+ u.
Proof.
  induction s as [|c s IH]; [reflexivity|].
  rewrite !append_String. now rewrite IH.
Qed.

Lemma drop_length n s :
  String.length (JS.drop n s) = (String.length s - n)%nat.
Proof.
  revert s. induction n as [|n IH]; intros [|c s]; simpl; auto.
Qed.

Lemma drop_all n s : (String.length s <= n)%nat -> JS.drop n s = EmptyString.
Proof.
  revert s. induction n as [|n IH]; intros [|c s]; simpl; intros H;
    try reflexivity; try lia.
  apply IH. lia.
Qed.

Lemma append_empty_r (s : string) : s +:+ EmptyString = s.
Proof.
  induction s as [|c s IH]; [reflexivity|].
  rewrite append_String. now rewrite IH.
Qed.

(** Two descending lists with the same entries and pairwise different
    starts are the same list. *)
Lemma sortedDesc_unique (l1 l2 : list Replacement) :
  Permutation l1 l2 ->
  NoDup (rstart <$> l1) ->
  StronglySorted descByStart l1 ->
  StronglySorted descByStart l2 ->
  l1 = l2.
Proof.
  revert l2. induction l1 as [|a t1 IH]; intros l2 Hp Hnd Hs1 Hs2.
  - now apply Permutation_nil in Hp.
  - destruct l2 as [|b t2].
    { symmetry in Hp. now apply Permutation_nil in Hp. }
    assert (Hab : a = b).
    { destruct (decide (a = b)) as [|Hne]; [assumption|exfalso].
      assert (Ha : a ∈ b :: t2).
      { rewrite <- Hp. left. }
      assert (Hb : b ∈ a :: t1).
      { rewrite Hp. left. }
      apply elem_of_cons in Ha as [->|Ha]; [congruence|].
      apply elem_of_cons in Hb as [->|Hb]; [congruence|].
      apply StronglySorted_inv in Hs1 as [_ Hall1].
      apply StronglySorted_inv in Hs2 as [_ Hall2].
      rewrite List.Forall_forall in Hall1, Hall2.
      apply list_elem_of_In in Ha, Hb.
      pose proof (Hall1 _ Hb) as H1. pose proof (Hall2 _ Ha) as H2.
      unfold descByStart in H1, H2.
      rewrite fmap_cons in Hnd. apply NoDup_cons in Hnd as [Hnotin _].
      apply Hnotin. apply list_elem_of_fmap. exists b.
      split; [lia | now apply list_elem_of_In]. }
    subst b. f_equal.
    apply IH.
    + now apply Permutation_cons_inv in Hp.
    + rewrite fmap_cons in Hnd. now apply NoDup_cons in Hnd as [_ ?].
    + now apply StronglySorted_inv in Hs1 as [? _].
    + now apply StronglySorted_inv in Hs2 as [? _].
Qed.

Lemma sortDesc_permutation_invariant (rs rs' : list Replacement) :
  Permutation rs rs' ->
  NoDup (rstart <$> rs) ->
  sortDesc rs = sortDesc rs'.
Proof.
  intros Hp Hnd. apply sortedDesc_unique.
  - rewrite <- (sortDesc_perm rs), <- (sortDesc_perm rs'). exact Hp.
  - rewrite <- (sortDesc_perm rs). exact Hnd.
  - apply sortDesc_sorted.
  - apply sortDesc_sorted.
Qed.

(** X12. The order in which the caller lists the edits does not matter
    when no two edits have the same start: the text returned and the
    contents the argument array is left with are the same for every
    arrangement.  With equal starts the order does matter: two insertions
    at one offset of the text come out in the reverse of the order
    given. *)
Theorem changeSourceCode_order_independent :
  (forall s rs rs',
     Permutation rs rs' ->
     NoDup (rstart <$> rs) ->
     changeSourceCode s (Some rs) = changeSourceCode s (Some rs'))
  /\ (forall s (k : Z) a b,
        (k <= Z.of_nat (String.length s))%Z ->
        (changeSourceCode s (Some [(k, k, a); (k, k, b)])).1
        = JS.substringTo k s +:+ b +:+ a +:+ JS.substringFrom k s).
Proof.
  split.
  - intros s rs rs' Hp Hnd.
    pose proof (sortDesc_permutation_invariant rs rs' Hp Hnd) as Hs.
    destruct rs as [|r rs].
    + apply Permutation_nil in Hp. now subst.
    + destruct rs' as [|r' rs'].
      { symmetry in Hp. now apply Permutation_nil in Hp. }
      unfold changeSourceCode. now rewrite Hs.
  - intros s k a b Hk.
    rewrite changeSourceCode_fold.
    unfold sortDesc. cbn [foldr insertDesc]. unfold rstart at 1 2.
    cbn [fst]. rewrite Z.ltb_irrefl.
    cbn [fold_left]. unfold applyReplacement, rstart, rend, rtext.
    cbn [fst snd]. unfold JS.substringTo, JS.substringFrom.
    set (n := Z.to_nat k).
    assert (Hle : (n <= String.length s)%nat) by lia.
    rewrite JSFacts.take_app_le
      by (rewrite JSFacts.take_length by exact Hle; lia).
    rewrite JSFacts.take_take by lia.
    assert (Hd : JS.drop n (JS.take n s +:+ a +:+ JS.drop n s)
                 = a +:+ JS.drop n s).
    { clear -Hle. revert s Hle. induction n as [|n IH]; intros s Hle.
      - destruct s; reflexivity.
      - destruct s as [|c s]; [simpl in Hle; lia|].
        cbn [JS.take JS.drop]. rewrite append_String. cbn [JS.drop].
        apply IH. simpl in Hle. lia. }
    rewrite Hd. reflexivity.
Qed.

Lemma changeSourceCode_order_independent_witness :
  changeSourceCode "abcdef" (Some [(1, 3, "X"); (4, 5, "Y")]%Z)
  = changeSourceCode "abcdef" (Some [(4, 5, "Y"); (1, 3, "X")]%Z)
  /\ (changeSourceCode "abcdef" (Some [(2, 2, "X"); (2, 2, "Y")]%Z)).1
     = "abYXcdef".
Proof.
  split.
  - apply (proj1 changeSourceCode_order_independent).
    + apply perm_swap.
    + simpl. unfold rstart. simpl.
      repeat constructor; rewrite ?not_elem_of_cons; repeat split;
        try discriminate; apply not_elem_of_nil.
  - apply (proj2 changeSourceCode_order_independent "abcdef" 2%Z "X" "Y").
    simpl. lia.
Defined.

Lemma take_length_min n s :
  String.length (JS.take n s) = Nat.min n (String.length s).
Proof.
  revert s. induction n as [|n IH]; intros [|c s]; simpl; auto.
Qed.

Lemma netGrowth_perm (l l' : list Replacement) :
  Permutation l l' -> netGrowth l = netGrowth l'.
Proof.
  induction 1; unfold netGrowth in *; cbn [foldr]; lia.
Qed.

Lemma spliceOriginal_length (s : string) (asc : list Replacement) :
  forall pos : Z,
    (0 <= pos)%Z ->
    wellPlaced (Z.of_nat (String.length s)) pos asc ->
    Z.of_nat (String.length (spliceOriginal s (Z.to_nat pos) asc))
    = (Z.of_nat (String.length s) - pos + netGrowth asc)%Z.
Proof.
  induction asc as [|r rest IH]; intros pos Hpos Hwp.
  - cbn [spliceOriginal netGrowth foldr]. rewrite drop_length.
    cbn [wellPlaced] in Hwp. lia.
  - cbn [wellPlaced] in Hwp. destruct Hwp as (H1 & H2 & Hrest).
    pose proof (wellPlaced_bound _ _ _ Hrest) as Hb.
    cbn [spliceOriginal]. rewrite !length_append, take_length_min,
      drop_length.
    specialize (IH (rend r) ltac:(lia) Hrest).
    unfold netGrowth in *. cbn [foldr]. lia.
Qed.

(** X13. For edits that lie inside the text and do not overlap, the text
    returned is as long as the original, plus the texts put in, less the
    ranges taken out. *)
Theorem changeSourceCode_length :
  forall s rs,
    wellPlaced (Z.of_nat (String.length s)) 0 (rev (sortDesc rs)) ->
    Z.of_nat (String.length (changeSourceCode s (Some rs)).1)
    = (Z.of_nat (String.length s) + netGrowth rs)%Z.
Proof.
  intros s rs Hwp. rewrite changeSourceCode_fold.
  rewrite <- (rev_involutive (sortDesc rs)) at 1.
  rewrite <- fold_left_rev_right, rev_involutive.
  destruct (applyAscending_splice s (rev (sortDesc rs)) 0 ltac:(lia) Hwp)
    as [_ Hd].
  cbn zeta in Hd. change (Z.to_nat 0) with 0%nat in Hd.
  assert (Hd0 : forall t, JS.drop 0 t = t) by (intros []; reflexivity).
  rewrite Hd0 in Hd. rewrite Hd.
  change 0%nat with (Z.to_nat 0).
  rewrite (spliceOriginal_length s _ 0 ltac:(lia) Hwp).
  rewrite (netGrowth_perm (rev (sortDesc rs)) rs); [lia|].
  rewrite <- Permutation_rev. symmetry. apply sortDesc_perm.
Qed.

Lemma changeSourceCode_length_witness :
  Z.of_nat (String.length
              (changeSourceCode "abcdef"
                 (Some [(1, 3, "XYZ"); (4, 5, EmptyString)]%Z)).1)
  = (Z.of_nat (String.length "abcdef")
     + netGrowth [(1, 3, "XYZ"); (4, 5, EmptyString)]%Z)%Z.
Proof.
  apply changeSourceCode_length.
  simpl. unfold rstart, rend. simpl. lia.
Defined.

Lemma take_split m n s :
  (m <= n)%nat -> (n <= String.length s)%nat ->
  JS.take n s = JS.take m s +:+ JS.take (n - m) (JS.drop m s).
Proof.
  revert n s. induction m as [|m IH]; intros n s Hmn Hn.
  - rewrite Nat.sub_0_r. destruct s, n; reflexivity.
  - destruct n as [|n]; [lia|].
    destruct s as [|c s]; [simpl in Hn; lia|].
    cbn [JS.take JS.drop]. rewrite append_String.
    change (S n - S m)%nat with (n - m)%nat.
    rewrite <- IH; [reflexivity|lia|simpl in Hn; lia].
Qed.

Lemma drop_split m n s :
  (m <= n)%nat -> (n <= String.length s)%nat ->
  JS.drop m s = JS.take (n - m) (JS.drop m s) +:+ JS.drop n s.
Proof.
  revert n s. induction m as [|m IH]; intros n s Hmn Hn.
  - rewrite Nat.sub_0_r.
    replace (JS.drop 0 s) with s by (destruct s; reflexivity).
    now rewrite JSFacts.take_drop_id.
  - destruct n as [|n]; [lia|].
    destruct s as [|c s]; [simpl in Hn; lia|].
    cbn [JS.drop]. change (S n - S m)%nat with (n - m)%nat.
    apply IH; [lia|simpl in Hn; lia].
Qed.

(** X14. A single edit with offsets outside the text is clamped, not
    refused: both offsets at or below zero put the text in front, both at
    or past the end put it behind, a start at or below zero with an end at
    or past the end replaces everything.  Start and end are never
    exchanged: when the end lies before the start, the text between them
    is kept on both sides of the text put in, and the result grows by that
    much. *)
Theorem changeSourceCode_clamps_offsets :
  forall s b e text,
    let len := Z.of_nat (String.length s) in
    let result := (changeSourceCode s (Some [(b, e, text)])).1 in
    ((b <= 0)%Z -> (e <= 0)%Z -> result = text +:+ s)
    /\ ((len <= b)%Z -> (len <= e)%Z -> result = s +:+ text)
    /\ ((b <= 0)%Z -> (len <= e)%Z -> result = text)
    /\ ((0 <= e)%Z -> (e <= b)%Z -> (b <= len)%Z ->
        result
        = JS.substringTo e s +:+ JS.substring e b s +:+ text
          +:+ JS.substring e b s +:+ JS.substringFrom b s
        /\ Z.of_nat (String.length result)
           = (len + Z.of_nat (String.length text) + (b - e))%Z).
Proof.
  intros s b e text len result.
  assert (Hr : result
               = JS.take (Z.to_nat b) s +:+ text +:+ JS.drop (Z.to_nat e) s).
  { reflexivity. }
  repeat split.
  - intros Hb He. rewrite Hr.
    replace (Z.to_nat b) with 0%nat by lia.
    replace (Z.to_nat e) with 0%nat by lia.
    destruct s; reflexivity.
  - intros Hb He. rewrite Hr.
    rewrite JSFacts.take_all by lia. rewrite drop_all by lia.
    now rewrite append_empty_r.
  - intros Hb He. rewrite Hr.
    replace (Z.to_nat b) with 0%nat by lia.
    rewrite drop_all by lia. rewrite append_empty_r.
    destruct s; reflexivity.
  - rewrite Hr. unfold JS.substringTo, JS.substring, JS.substringFrom.
    rewrite Nat.min_l, Nat.max_r by lia.
    set (m := Z.to_nat e). set (n := Z.to_nat b).
    assert (Hmn : (m <= n)%nat) by lia.
    assert (Hn : (n <= String.length s)%nat) by lia.
    clearbody m n. clear -Hmn Hn.
    pose proof (take_split m n s Hmn Hn) as Ht.
    pose proof (drop_split m n s Hmn Hn) as Hd.
    rewrite Ht, append_assoc. do 3 f_equal. exact Hd.
  - rewrite Hr. rewrite !length_append, take_length_min, drop_length.
    fold len. lia.
Qed.

Lemma changeSourceCode_clamps_offsets_witness :
  (changeSourceCode "abcdef" (Some [(-2, 0, "X")]%Z)).1 = "Xabcdef"
  /\ (changeSourceCode "abcdef" (Some [(6, 9, "X")]%Z)).1 = "abcdefX"
  /\ (changeSourceCode "abcdef" (Some [(-1, 7, "X")]%Z)).1 = "X"
  /\ (changeSourceCode "abcdef" (Some [(4, 2, "X")]%Z)).1 = "abcdXcdef"
  /\ Z.of_nat (String.length
                 (changeSourceCode "abcdef" (Some [(4, 2, "X")]%Z)).1)
     = 9%Z.
Proof.
  pose proof (changeSourceCode_clamps_offsets "abcdef") as H.
  split; [|split; [|split; [|split]]].
  - apply (proj1 (H (-2)%Z 0%Z "X")); lia.
  - apply (proj1 (proj2 (H 6%Z 9%Z "X"))); simpl; lia.
  - apply (proj1 (proj2 (proj2 (H (-1)%Z 7%Z "X")))); simpl; lia.
  - apply (proj2 (proj2 (proj2 (H 4%Z 2%Z "X")))); simpl; lia.
  - apply (proj2 (proj2 (proj2 (H 4%Z 2%Z "X")))); simpl; lia.
Defined.

(** ** [resolveType]: termination, and the imports that lead nowhere *)

(** X15. Every call of [resolveType] ends, for every file system, code
    list, name and stack: the depth of the nested calls never exceeds the
    number of files that are not on the stack, the outcome is the same for
    every larger bound, and a call that returns [undefined] has taken no
    path off the stack. *)
Theorem resolveType_depth_bounded :
  forall host fs src type (st : Stack),
    exists o st',
      (forall fuel,
         (size (dom fs ∖ dom st) < fuel)%nat ->
         resolveTypeFuel host fs fuel src type st = Some (o, st'))
      /\ (o = NotFound -> dom st ⊆ dom st')
      /\ (st = ∅ -> resolveType host fs src type = o).
Proof.
  intros host fs src type st.
  destruct (resolveTypeFuel_returns host fs (S (size (dom fs ∖ dom st)))
              src type st ltac:(lia)) as (o & st' & Hr & Hdom).
  exists o, st'. split; [|split; [exact Hdom|]].
  - intros fuel Hf.
    eapply resolveTypeFuel_mono; [|exact Hr]. lia.
  - intros ->. apply resolveType_returns.
    exists (S (size (dom fs ∖ dom (∅ : Stack)))), st'. exact Hr.
Qed.

(** X16. A name that no record of the code list binds in an import or
    declares is not found, whatever the files on disk are; the stack is
    left as it was. *)
Theorem resolveType_unbound_name :
  forall host fs F X (st : Stack) fuel,
    (forall i, i ∈ code F -> mentions i X = false /\ localMatch i X = None) ->
    resolveTypeFuel host fs (S fuel) F X st = Some (NotFound, st)
    /\ resolveType host fs F X = NotFound.
Proof.
  intros host fs F X st fuel Hall.
  assert (H : forall fuel' st',
             resolveTypeFuel host fs (S fuel') F X st' = Some (NotFound, st')).
  { intros fuel' st'. cbn [resolveTypeFuel].
    rewrite <- (app_nil_r (code F)).
    now rewrite codeLoop_skip by exact Hall. }
  split; [apply H|].
  unfold resolveType. now rewrite H.
Qed.

Lemma resolveType_unbound_name_witness :
  resolveType Sample.host Sample.renameFiles Sample.mainSource "Baz"
  = NotFound.
Proof.
  apply (resolveType_unbound_name Sample.host Sample.renameFiles
           Sample.mainSource "Baz" ∅ 0).
  intros i Hi. apply list_elem_of_singleton in Hi as ->.
  split; reflexivity.
Defined.

Section Skipping.

Variable host : Host.
Variable fs : FileSystem.
Variable rec : SourceInfo -> string -> Stack -> option (Outcome * Stack).

Lemma importLoop_missing p from X items (st : Stack) :
  importTarget host fs p from = Some None ->
  importLoop host fs rec p from X items st = Some (None, st).
Proof.
  intros Ht. induction items as [|[item local] rest IH]; [reflexivity|].
  cbn [importLoop]. rewrite Ht.
  now destruct (String.eqb item X || String.eqb local X).
Qed.

Lemma codeLoop_drop_record p X pre imp post :
  kind imp = KImport ->
  importTarget host fs p (from imp) = Some None ->
  forall st : Stack,
    codeLoop host fs rec p X (pre ++ imp :: post) st
    = codeLoop host fs rec p X (pre ++ post) st.
Proof.
  intros Hk Ht. induction pre as [|info pre IH]; intros st.
  - cbn [app codeLoop]. unfold importStep, isKind.
    rewrite Hk, bool_decide_eq_true_2 by reflexivity.
    rewrite importLoop_missing by exact Ht.
    unfold localMatch. now rewrite Hk.
  - cbn [app codeLoop].
    destruct (importStep host fs rec p X info st) as [[[o|] st1]|];
      try reflexivity.
    destruct (localMatch info X); [reflexivity|]. apply IH.
Qed.

End Skipping.

Lemma importTarget_missing host fs sourcePath from p :
  resolveFrom host sourcePath from = Some p ->
  extname host (stripJs host p) = EmptyString ->
  fs !! (stripJs host p +:+ ".d.ts") = None ->
  fs !! (stripJs host p +:+ ".ts") = None ->
  importTarget host fs sourcePath from = Some None.
Proof.
  intros Hp He Hd Ht. unfold importTarget, probeExtension, existsSync.
  rewrite Hp, He, Hd, Ht. cbn [JSText.truthy].
  rewrite !bool_decide_eq_false_2 by (intros [? ?]; discriminate).
  reflexivity.
Qed.

(** X17. An import from a module that has no file is passed over in
    silence: when the path of the module, without a [.js] at its end, has
    no extension and neither the [.d.ts] nor the [.ts] file exists, the
    call gives what it gives for the code list without the import
    record. *)
Theorem resolveType_missing_module_skipped :
  forall host fs sourcePath pre imp post X p,
    kind imp = KImport ->
    resolveFrom host sourcePath (from imp) = Some p ->
    extname host (stripJs host p) = EmptyString ->
    fs !! (stripJs host p +:+ ".d.ts") = None ->
    fs !! (stripJs host p +:+ ".ts") = None ->
    resolveType host fs {| path := sourcePath; code := pre ++ imp :: post |} X
    = resolveType host fs {| path := sourcePath; code := pre ++ post |} X.
Proof.
  intros host fs sourcePath pre imp post X p Hk Hp He Hd Ht.
  pose proof (importTarget_missing host fs sourcePath (from imp) p
                Hp He Hd Ht) as Hmiss.
  unfold resolveType. cbn [resolveTypeFuel path code].
  now rewrite codeLoop_drop_record.
Qed.

Lemma resolveType_missing_module_skipped_witness :
  resolveType Sample.host Modules.goneFiles
    {| path := "/src/main.ts";
       code := [] ++ Modules.goneImport :: [Modules.localFoo] |} "Foo"
  = resolveType Sample.host Modules.goneFiles
      {| path := "/src/main.ts"; code := [] ++ [Modules.localFoo] |} "Foo".
Proof.
  apply (resolveType_missing_module_skipped Sample.host Modules.goneFiles
           "/src/main.ts" [] Modules.goneImport [Modules.localFoo] "Foo"
           "/src/gone.js");
    vm_compute; reflexivity.
Defined.

Lemma binding_matches_intro (item local X : string) :
  item = X \/ local = X ->
  String.eqb item X || String.eqb local X = true.
Proof.
  intros [->| ->]; rewrite String.eqb_refl; auto using orb_true_r.
Qed.

(** X18. The first import that binds the name ends the call with an
    exception when the path of the module cannot be computed, or when the
    file to load cannot be read; and a module path that keeps an
    extension (any but [.js]) is loaded without asking whether the file
    exists.  Declarations of the name further down the code list do not
    help. *)
Theorem resolveType_unreadable_module_throws :
  (forall host fs F X pre imp post before item local after,
     code F = pre ++ imp :: post ->
     (forall i, i ∈ pre -> mentions i X = false /\ localMatch i X = None) ->
     kind imp = KImport ->
     imports imp = Some (before ++ (item, local) :: after) ->
     (forall b : string * string,
         b ∈ before -> String.eqb b.1 X || String.eqb b.2 X = false) ->
     item = X \/ local = X ->
     (importTarget host fs (path F) (from imp) = None
      \/ exists q,
           importTarget host fs (path F) (from imp) = Some (Some q)
           /\ (fs !! q = None \/ fs !! q = Some None)) ->
     resolveType host fs F X = Thrown)
  /\ (forall host fs sourcePath from p,
        resolveFrom host sourcePath from = Some p ->
        JSText.truthy (extname host (stripJs host p)) = true ->
        importTarget host fs sourcePath from = Some (Some (stripJs host p))).
Proof.
  split.
  - intros host fs F X pre imp post before item local after
      Hc Hpre Hk Him Hbefore Hm Hbad.
    apply resolveType_returns. exists 1%nat, ∅.
    cbn [resolveTypeFuel]. rewrite Hc, codeLoop_skip by exact Hpre.
    cbn [codeLoop]. unfold importStep, isKind.
    rewrite Hk, bool_decide_eq_true_2 by reflexivity.
    rewrite Him. simpl. rewrite importLoop_skip by exact Hbefore.
    simpl. rewrite (binding_matches_intro _ _ _ Hm).
    destruct Hbad as [-> | (q & -> & Hq)]; [reflexivity|].
    rewrite lookup_empty.
    rewrite bool_decide_eq_false_2 by (intros [? ?]; discriminate).
    unfold readSourceInfo. now destruct Hq as [-> | ->].
  - intros host fs sourcePath from p Hp He.
    unfold importTarget, probeExtension. now rewrite Hp, He.
Qed.

Lemma resolveType_unreadable_module_throws_witness :
  resolveType Sample.host Modules.lockedFiles
    {| path := "/src/main.ts";
       code := [Sample.importInfo "./other.js" [("Foo", "Foo")];
                Modules.localFoo] |} "Foo" = Thrown
  /\ resolveType Sample.host Modules.goneFiles
       {| path := "/src/main.ts";
          code := [Modules.styleImport; Modules.localFoo] |} "Foo" = Thrown
  /\ importTarget Sample.host Modules.goneFiles "/src/main.ts"
       (Some "./theme.css") = Some (Some "/src/theme.css").
Proof.
  split; [|split].
  - apply (proj1 resolveType_unreadable_module_throws Sample.host
             Modules.lockedFiles
             {| path := "/src/main.ts";
                code := [Sample.importInfo "./other.js" [("Foo", "Foo")];
                         Modules.localFoo] |}
             "Foo" [] (Sample.importInfo "./other.js" [("Foo", "Foo")])
             [Modules.localFoo] [] "Foo" "Foo" []);
      try reflexivity.
    + intros i Hi. now apply elem_of_nil in Hi.
    + intros b Hb. now apply elem_of_nil in Hb.
    + now left.
    + right. exists "/src/other.ts". split; [vm_compute; reflexivity|].
      right. vm_compute. reflexivity.
  - apply (proj1 resolveType_unreadable_module_throws Sample.host
             Modules.goneFiles
             {| path := "/src/main.ts";
                code := [Modules.styleImport; Modules.localFoo] |}
             "Foo" [] Modules.styleImport [Modules.localFoo] [] "Foo" "Foo"
             []);
      try reflexivity.
    + intros i Hi. now apply elem_of_nil in Hi.
    + intros b Hb. now apply elem_of_nil in Hb.
    + now left.
    + right. exists "/src/theme.css". split; [vm_compute; reflexivity|].
      left. vm_compute. reflexivity.
  - apply (proj2 resolveType_unreadable_module_throws Sample.host
             Modules.goneFiles "/src/main.ts" (Some "./theme.css")
             "/src/theme.css"); vm_compute; reflexivity.
Defined.

(** X19. A file in which an import failed to find the name is not tried
    again in the same call: it stays on the stack, so a second import
    that binds the name to a module in the same file ends the call with
    [undefined], also when a declaration of the name follows it in the
    code list. *)
Theorem resolveType_failed_file_blocks_later_import :
  forall host fs F X pre imp1 mid imp2 post item1 local1
         before2 item2 local2 after2 q c,
    code F = (pre ++ imp1 :: mid) ++ imp2 :: post ->
    (forall i, i ∈ pre -> mentions i X = false /\ localMatch i X = None) ->
    (forall i, i ∈ mid -> mentions i X = false /\ localMatch i X = None) ->
    kind imp1 = KImport ->
    imports imp1 = Some [(item1, local1)] ->
    item1 = X \/ local1 = X ->
    importTarget host fs (path F) (from imp1) = Some (Some q) ->
    fs !! q = Some (Some c) ->
    returns host fs {| path := q; code := c |} item1
      (<[q := {| path := q; code := c |}]> ∅) NotFound ->
    kind imp2 = KImport ->
    imports imp2 = Some (before2 ++ (item2, local2) :: after2) ->
    (forall b : string * string,
        b ∈ before2 -> String.eqb b.1 X || String.eqb b.2 X = false) ->
    item2 = X \/ local2 = X ->
    importTarget host fs (path F) (from imp2) = Some (Some q) ->
    resolveType host fs F X = NotFound.
Proof.
  intros host fs F X pre imp1 mid imp2 post item1 local1
    before2 item2 local2 after2 q c
    Hc Hpre Hmid Hk1 Him1 Hm1 Ht1 Hq (fuel & st' & Hr)
    Hk2 Him2 Hbefore2 Hm2 Ht2.
  (* the nested call leaves the file on the stack *)
  assert (Hst : is_Some (st' !! q)).
  { set (src := {| path := q; code := c |}) in *.
    set (st0 := <[q := src]> (∅ : Stack)) in *.
    set (n := size (dom fs ∖ dom st0)).
    destruct (resolveTypeFuel_returns host fs (S (fuel + n)) src item1 st0)
      as (o2 & st2 & Hr2 & Hdom); [unfold n; lia|].
    rewrite (resolveTypeFuel_mono host fs fuel (S (fuel + n)) src item1
               st0 _ ltac:(lia) Hr) in Hr2.
    injection Hr2 as <- <-.
    apply elem_of_dom, (Hdom eq_refl).
    unfold st0. rewrite dom_insert_L. apply elem_of_union. left.
    now apply elem_of_singleton. }
  apply resolveType_returns. exists (S fuel), st'.
  cbn [resolveTypeFuel]. rewrite Hc, <- app_assoc.
  rewrite codeLoop_skip by exact Hpre.
  cbn [app codeLoop]. unfold importStep at 1, isKind.
  rewrite Hk1, bool_decide_eq_true_2 by reflexivity.
  rewrite Him1. simpl.
  rewrite (binding_matches_intro _ _ _ Hm1), Ht1, lookup_empty.
  rewrite bool_decide_eq_false_2 by (intros [? ?]; discriminate).
  unfold readSourceInfo at 1. rewrite Hq, Hr.
  assert (Hl1 : localMatch imp1 X = None).
  { unfold localMatch. now rewrite Hk1. }
  rewrite Hl1, codeLoop_skip by exact Hmid.
  cbn [codeLoop]. unfold importStep, isKind.
  rewrite Hk2, bool_decide_eq_true_2 by reflexivity.
  rewrite Him2. simpl. rewrite importLoop_skip by exact Hbefore2.
  simpl. rewrite (binding_matches_intro _ _ _ Hm2), Ht2.
  now rewrite bool_decide_eq_true_2 by exact Hst.
Qed.

Lemma resolveType_failed_file_blocks_later_import_witness :
  resolveType Sample.host Modules.twiceFiles
    {| path := "/src/main.ts"; code := Modules.twiceCode |} "Foo"
  = NotFound.
Proof.
  apply (resolveType_failed_file_blocks_later_import Sample.host
           Modules.twiceFiles
           {| path := "/src/main.ts"; code := Modules.twiceCode |} "Foo"
           [] (Sample.importInfo "./other.js" [("Foo", "Foo")]) []
           (Sample.importInfo "./other.js" [("Foo", "Baz")])
           [Modules.localFoo] "Foo" "Foo" [] "Foo" "Baz" []
           "/src/other.ts" Modules.emptyModule);
    try reflexivity.
  - intros i Hi. now apply elem_of_nil in Hi.
  - intros i Hi. now apply elem_of_nil in Hi.
  - now left.
  - exists 1%nat. eexists. vm_compute. reflexivity.
  - intros b Hb. now apply elem_of_nil in Hb.
  - now left.
Defined.

(** ** [autoExtendInfo]: what a call leaves alone, and a second call *)

Lemma setProperties_id info : setProperties info (properties info) = info.
Proof. now destruct info. Qed.

Lemma setProperties_twice info a b :
  setProperties (setProperties info a) b = setProperties info b.
Proof. now destruct info. Qed.

Lemma properties_setProperties info ps :
  properties (setProperties info ps) = ps.
Proof. now destruct info. Qed.

Lemma pushProperty_setProperties info own p :
  pushProperty info own p = setProperties info (Some (own ++ [p])).
Proof. now destruct info. Qed.

Lemma onlyProperties_refl info : onlyProperties info info.
Proof. split; [now rewrite setProperties_id | auto]. Qed.

Lemma onlyProperties_trans a b c :
  onlyProperties a b -> onlyProperties b c -> onlyProperties a c.
Proof.
  intros [H1 N1] [H2 N2]. split; [|auto].
  rewrite H2 at 1. rewrite H1. now rewrite setProperties_twice.
Qed.

Lemma onlyProperties_push info own p :
  properties info = Some own ->
  onlyProperties info (pushProperty info own p).
Proof.
  intros Hp. rewrite pushProperty_setProperties. split.
  - now rewrite properties_setProperties.
  - rewrite Hp. discriminate.
Qed.

Lemma inheritLoop_only baseProperties :
  forall info, onlyProperties info (inheritLoop baseProperties info).1.
Proof.
  induction baseProperties as [|property rest IH]; intros info;
    cbn [inheritLoop]; [apply onlyProperties_refl|].
  destruct (properties info) as [own|] eqn:Hp; [|apply onlyProperties_refl].
  destruct (extractInfo own (name property)); [apply IH|].
  eapply onlyProperties_trans; [|apply IH]. now apply onlyProperties_push.
Qed.

Lemma inheritLive_only fuel :
  forall index info info' ok,
    inheritLive fuel index info = Some (info', ok) ->
    onlyProperties info info'.
Proof.
  induction fuel as [|fuel IH]; intros index info info' ok H;
    [discriminate|].
  cbn [inheritLive] in H.
  destruct (properties info) as [own|] eqn:Hp.
  - destruct (own !! index) as [property|].
    + destruct (extractInfo own (name property)); [eapply IH; eauto|].
      eapply onlyProperties_trans; [|eapply IH; eauto].
      now apply onlyProperties_push.
    + injection H as <- <-. apply onlyProperties_refl.
  - injection H as <- <-. apply onlyProperties_refl.
Qed.

Lemma extendLoop_only host fs src self fuel extendsToDo :
  forall info info' out,
    extendLoop host fs src self fuel extendsToDo info = Some (info', out) ->
    onlyProperties info info'.
Proof.
  induction extendsToDo as [|extendType rest IH]; intros info info' out H;
    cbn [extendLoop] in H.
  - injection H as <- <-. apply onlyProperties_refl.
  - destruct (resolveType host fs src extendType) as [r| |];
      try (injection H as <- <-; apply onlyProperties_refl).
    destruct (self extendType).
    + destruct (isClassOrInterface info); [|eauto].
      destruct (inheritLive fuel 0 info) as [[mid ok]|] eqn:Hl;
        [|discriminate].
      pose proof (inheritLive_only _ _ _ _ _ Hl) as Hmid.
      destruct ok.
      * eapply onlyProperties_trans; eauto.
      * now injection H as <- <-.
    + destruct (isClassOrInterface (resolvedInfo r)); [|eauto].
      destruct (properties (resolvedInfo r)) as [baseProperties|];
        [|injection H as <- <-; apply onlyProperties_refl].
      pose proof (inheritLoop_only baseProperties info) as Hmid.
      destruct (inheritLoop baseProperties info) as [mid ok].
      cbn [fst] in Hmid. destruct ok.
      * eapply onlyProperties_trans; eauto.
      * now injection H as <- <-.
Qed.

Lemma gatherExtends_setProperties host info ps :
  gatherExtends host (setProperties info ps) = gatherExtends host info.
Proof. now destruct info. Qed.

(** X20. [autoExtendInfo] changes nothing but the property list: however
    the call ends, the record has its kind, name, [extends], doclet and
    every other field as before; a record without a property list is left
    exactly as it was; and a record without [extends] is returned
    untouched, with no file looked at. *)
Theorem autoExtendInfo_touches_properties_only :
  forall host fs sourceInfo resolvesToSelf fuel infoToExtend,
    (forall infoToExtend' out,
       autoExtendInfo host fs sourceInfo resolvesToSelf fuel infoToExtend
       = Some (infoToExtend', out) ->
       infoToExtend'
       = setProperties infoToExtend (properties infoToExtend')
       /\ gatherExtends host infoToExtend' = gatherExtends host infoToExtend
       /\ (properties infoToExtend = None -> infoToExtend' = infoToExtend))
    /\ (extends infoToExtend = None ->
        autoExtendInfo host fs sourceInfo resolvesToSelf fuel infoToExtend
        = Some (infoToExtend, Returns None)).
Proof.
  intros host fs sourceInfo self fuel info. split.
  - intros info' out Hrun.
    destruct (extendLoop_only _ _ _ _ _ _ _ _ _ Hrun) as [Heq Hnone].
    split; [exact Heq|]. split.
    + rewrite Heq. apply gatherExtends_setProperties.
    + intros Hp. rewrite Heq, (Hnone Hp), <- Hp. apply setProperties_id.
  - intros He. unfold autoExtendInfo, gatherExtends. now rewrite He.
Qed.

Lemma autoExtendInfo_touches_properties_only_witness :
  Sample.childExtended
  = setProperties Sample.childInterface (properties Sample.childExtended)
  /\ autoExtendInfo Sample.host Sample.flattenFiles Sample.flattenSource
       Sample.noSelf 0 Sample.baseInterface
     = Some (Sample.baseInterface, Returns None).
Proof.
  split.
  - apply (proj1 (autoExtendInfo_touches_properties_only Sample.host
                    Sample.flattenFiles Sample.flattenSource Sample.noSelf 0
                    Sample.childInterface) _ (Returns None)).
    vm_compute. reflexivity.
  - apply (proj2 (autoExtendInfo_touches_properties_only Sample.host
                    Sample.flattenFiles Sample.flattenSource Sample.noSelf 0
                    Sample.baseInterface)).
    reflexivity.
Defined.

Lemma extractInfo_app_Some l l' n :
  extractInfo l n <> None -> extractInfo (l ++ l') n <> None.
Proof. intros H H'. apply H. eapply extractInfo_app_None, H'. Qed.

Lemma extractInfo_elem l n q :
  q ∈ l -> isNamedKind (kind q) = true -> name q = n ->
  extractInfo l n <> None.
Proof.
  intros Hin Hk Hn. unfold extractInfo.
  assert (H : q ∈ filter (fun info => isNamedKind (kind info) = true
                                     /\ name info = n) l)
    by (apply list_elem_of_filter; auto).
  destruct (filter _ l); [inversion H | discriminate].
Qed.

Lemma extractInfo_Some_elem l n :
  extractInfo l n <> None ->
  exists q, q ∈ l /\ isNamedKind (kind q) = true /\ name q = n.
Proof.
  unfold extractInfo. intros H.
  destruct (filter (fun info => isNamedKind (kind info) = true
                                /\ name info = n) l) as [|q t] eqn:E;
    [contradiction|].
  assert (Hq : q ∈ filter (fun info => isNamedKind (kind info) = true
                                      /\ name info = n) l)
    by (rewrite E; left).
  apply list_elem_of_filter in Hq as [[Hk Hn] Hin]. eauto.
Qed.

Lemma name_pushed_copy p : name (setInherited (newCodeInfo p)) = name p.
Proof. now rewrite name_setInherited, name_newCodeInfo. Qed.

(** The loop over a base whose members are all of a named kind ends with
    every member's name found in the property list. *)
Lemma inheritLoop_absorbs baseProperties :
  forall info own,
    properties info = Some own ->
    allNamedKinds baseProperties ->
    exists added,
      inheritLoop baseProperties info
      = (setProperties info (Some (own ++ added)), true)
      /\ forall p, p ∈ baseProperties ->
           extractInfo (own ++ added) (name p) <> None.
Proof.
  induction baseProperties as [|property rest IH]; intros info own Hp Hall.
  - exists []. rewrite app_nil_r, <- Hp, setProperties_id.
    split; [reflexivity|]. intros p Hin. inversion Hin.
  - apply Forall_cons in Hall as [Hk Hall]. cbn [inheritLoop]. rewrite Hp.
    destruct (extractInfo own (name property)) eqn:He.
    + destruct (IH info own Hp Hall) as (added & -> & Hfound).
      exists added. split; [reflexivity|].
      intros p Hin. apply elem_of_cons in Hin as [->|Hin]; [|auto].
      apply extractInfo_app_Some. now rewrite He.
    + set (copy := setInherited (newCodeInfo property)).
      destruct (IH (pushProperty info own copy) (own ++ [copy])
                  (properties_pushProperty _ _ _) Hall)
        as (added & -> & Hfound).
      exists (copy :: added).
      rewrite pushProperty_setProperties, setProperties_twice.
      rewrite <- app_assoc in *. cbn [app] in *.
      split; [reflexivity|].
      intros p Hin. apply elem_of_cons in Hin as [->|Hin]; [|auto].
      apply (extractInfo_elem _ _ copy).
      * apply elem_of_app. right. left.
      * unfold copy. now rewrite kind_pushed_copy.
      * apply name_pushed_copy.
Qed.

Lemma inheritLoop_noop baseProperties info own :
  properties info = Some own ->
  (forall p, p ∈ baseProperties -> extractInfo own (name p) <> None) ->
  inheritLoop baseProperties info = (info, true).
Proof.
  intros Hp. induction baseProperties as [|property rest IH]; intros Hall;
    [reflexivity|].
  cbn [inheritLoop]. rewrite Hp.
  destruct (extractInfo own (name property)) eqn:He.
  - apply IH. intros p Hin. apply Hall. now right.
  - exfalso. apply (Hall property); [left | exact He].
Qed.

Lemma inheritLoop_no_list baseProperties info :
  properties info = None ->
  inheritLoop baseProperties info
  = (info, match baseProperties with [] => true | _ => false end).
Proof. intros Hp. destruct baseProperties; cbn [inheritLoop]; now rewrite ?Hp. Qed.

Lemma propertiesGrow_refl info : propertiesGrow info info.
Proof.
  unfold propertiesGrow. destruct (properties info) as [own|] eqn:E; [|auto].
  exists []. now rewrite app_nil_r.
Qed.

Lemma propertiesGrow_trans a b c :
  propertiesGrow a b -> propertiesGrow b c -> propertiesGrow a c.
Proof.
  unfold propertiesGrow. destruct (properties a) as [own|].
  - intros [added ->] [added' ->]. exists (added ++ added').
    now rewrite app_assoc.
  - now intros ->.
Qed.

Lemma extendLoop_grows host fs src self fuel extendsToDo info info' out :
  extendLoop host fs src self fuel extendsToDo info = Some (info', out) ->
  propertiesGrow info info'.
Proof.
  intros H. unfold propertiesGrow.
  destruct (properties info) as [own|] eqn:Hp.
  - destruct (extendLoop_pushed _ _ _ _ _ _ _ _ _ _ Hp H)
      as (final & Hf & Hpushed).
    destruct (Pushed_appended _ _ Hpushed) as (added & -> & _). eauto.
  - now apply (extendLoop_only _ _ _ _ _ _ _ _ _ H).
Qed.

Lemma extendLoop_again host fs src self fuel extendsToDo :
  (forall n, self n = false) ->
  basesNamed host fs src extendsToDo ->
  forall info info' out,
    extendLoop host fs src self fuel extendsToDo info = Some (info', out) ->
    forall final,
      propertiesGrow info' final ->
      extendLoop host fs src self fuel extendsToDo final = Some (final, out).
Proof.
  intros Hself. induction extendsToDo as [|extendType rest IH];
    intros Hbases info info' out H final Hgrow; cbn [extendLoop] in *.
  - now injection H as <- <-.
  - assert (Hrest : basesNamed host fs src rest).
    { intros t r b Ht. apply Hbases. now right. }
    destruct (resolveType host fs src extendType) as [r| |] eqn:Hr;
      try (now injection H as <- <-).
    rewrite Hself in *.
    destruct (isClassOrInterface (resolvedInfo r)) eqn:Hk; [|eauto].
    destruct (properties (resolvedInfo r)) as [baseProperties|] eqn:Hb;
      [|now injection H as <- <-].
    pose proof (Hbases extendType r baseProperties ltac:(left) Hr Hk Hb)
      as Hnamed.
    destruct (properties info) as [own|] eqn:Hp.
    + destruct (inheritLoop_absorbs baseProperties info own Hp Hnamed)
        as (added & Hloop & Hfound).
      rewrite Hloop in H.
      pose proof (extendLoop_grows _ _ _ _ _ _ _ _ _ H) as Hmid.
      pose proof (propertiesGrow_trans _ _ _ Hmid Hgrow) as Hfinal.
      unfold propertiesGrow in Hfinal.
      rewrite properties_setProperties in Hfinal.
      destruct Hfinal as [added' Hfinal].
      rewrite (inheritLoop_noop baseProperties final _ Hfinal).
      * eapply IH; eauto.
      * intros p Hin. apply extractInfo_app_Some. auto.
    + rewrite inheritLoop_no_list in H by exact Hp.
      assert (Hnone : properties final = None).
      { assert (Hg : propertiesGrow info final).
        { destruct baseProperties.
          - eapply propertiesGrow_trans; [|exact Hgrow].
            eapply extendLoop_grows; eauto.
          - injection H as <- <-. exact Hgrow. }
        unfold propertiesGrow in Hg. now rewrite Hp in Hg. }
      rewrite inheritLoop_no_list by exact Hnone.
      destruct baseProperties; [eapply IH; eauto|].
      now injection H as <- <-.
Qed.

(** X21. When every base is a class or an interface whose members are all
    of a named kind, and no base is the record itself, a second call of
    [autoExtendInfo] on the extended record, with the same source
    information, pushes nothing and ends as the first call did. *)
Theorem autoExtendInfo_second_call_changes_nothing :
  forall host fs sourceInfo resolvesToSelf fuel infoToExtend infoToExtend' out,
    (forall n, resolvesToSelf n = false) ->
    basesNamed host fs sourceInfo (gatherExtends host infoToExtend) ->
    autoExtendInfo host fs sourceInfo resolvesToSelf fuel infoToExtend
    = Some (infoToExtend', out) ->
    autoExtendInfo host fs sourceInfo resolvesToSelf fuel infoToExtend'
    = Some (infoToExtend', out).
Proof.
  intros host fs sourceInfo self fuel info info' out Hself Hbases Hrun.
  unfold autoExtendInfo in *.
  destruct (extendLoop_only _ _ _ _ _ _ _ _ _ Hrun) as [Heq _].
  rewrite Heq at 1. rewrite gatherExtends_setProperties.
  eapply extendLoop_again; eauto. apply propertiesGrow_refl.
Qed.

Lemma autoExtendInfo_second_call_changes_nothing_witness :
  autoExtendInfo Sample.host Sample.flattenFiles Sample.flattenSource
    Sample.noSelf 0 Sample.childExtended
  = Some (Sample.childExtended, Returns None).
Proof.
  apply (autoExtendInfo_second_call_changes_nothing Sample.host
           Sample.flattenFiles Sample.flattenSource Sample.noSelf 0
           Sample.childInterface).
  - reflexivity.
  - intros t r b Ht Hr Hk Hb.
    change (gatherExtends Sample.host Sample.childInterface)
      with ["Base"] in Ht.
    apply list_elem_of_singleton in Ht as ->.
    assert (Hres : resolveType Sample.host Sample.flattenFiles
                     Sample.flattenSource "Base"
                   = Found {| resolved_path := "/src/types.ts";
                              resolvedInfo := Sample.baseInterface;
                              resolvedPath := "/src/types.ts";
                              resolved_type := "Base" |})
      by (vm_compute; reflexivity).
    rewrite Hres in Hr. injection Hr as <-.
    cbn in Hb. injection Hb as <-.
    repeat constructor.
  - vm_compute. reflexivity.
Defined.

(** A member of the base that is of no named kind is copied, whatever the
    property list holds, provided no record of a named kind carries its
    name. *)
Lemma inheritLoop_copies baseProperties p :
  isNamedKind (kind p) = false ->
  forall info own,
    properties info = Some own ->
    p ∈ baseProperties ->
    (forall q, q ∈ own ++ baseProperties ->
       isNamedKind (kind q) = true -> name q <> name p) ->
    exists added,
      inheritLoop baseProperties info
      = (setProperties info (Some (own ++ added)), true)
      /\ setInherited (newCodeInfo p) ∈ added.
Proof.
  intros Hkp.
  induction baseProperties as [|property rest IH];
    intros info own Hp Hin Hnames; [inversion Hin|].
  assert (Hnot : extractInfo own (name p) = None).
  { destruct (extractInfo own (name p)) eqn:He; [|reflexivity].
    destruct (extractInfo_Some_elem own (name p)) as (q & Hq & Hk & Hn);
      [now rewrite He|].
    exfalso. apply (Hnames q); auto. apply elem_of_app. now left. }
  (* whatever follows only pushes *)
  assert (Htail : forall info1 own1,
             properties info1 = Some own1 ->
             exists added,
               inheritLoop rest info1
               = (setProperties info1 (Some (own1 ++ added)), true)).
  { intros info1 own1 Hp1.
    destruct (inheritLoop_pushed rest info1 own1 Hp1) as (final & Hf & Hpu).
    destruct (Pushed_appended _ _ Hpu) as (added & -> & _).
    exists added.
    pose proof (inheritLoop_only rest info1) as [Heq _].
    destruct (inheritLoop rest info1) as [mid ok] eqn:E. cbn [fst] in *.
    rewrite Hf in Heq. rewrite <- Heq. f_equal.
    (* the loop ends normally: the record has a list *)
    clear -Hp1 E. revert info1 own1 Hp1 E.
    induction rest as [|h t IHt]; intros info1 own1 Hp1 E.
    - now injection E as <- <-.
    - cbn [inheritLoop] in E. rewrite Hp1 in E.
      destruct (extractInfo own1 (name h)); [eauto|].
      eapply IHt; [|exact E]. apply properties_pushProperty. }
  cbn [inheritLoop]. rewrite Hp.
  destruct (extractInfo own (name property)) eqn:He.
  - apply elem_of_cons in Hin as [->|Hin]; [congruence|].
    apply (IH info own Hp Hin).
    intros q Hq. apply Hnames.
    apply elem_of_app in Hq as [Hq|Hq]; apply elem_of_app;
      [now left | right; now right].
  - set (copy := setInherited (newCodeInfo property)).
    apply elem_of_cons in Hin as [->|Hin].
    + destruct (Htail (pushProperty info own copy) (own ++ [copy])
                  (properties_pushProperty _ _ _)) as (added & ->).
      exists (copy :: added).
      rewrite pushProperty_setProperties, setProperties_twice.
      rewrite <- app_assoc. cbn [app]. split; [reflexivity | left].
    + destruct (IH (pushProperty info own copy) (own ++ [copy])
                  (properties_pushProperty _ _ _) Hin)
        as (added & -> & Hcopy).
      { intros q Hq Hk.
        rewrite <- app_assoc in Hq. cbn [app] in Hq.
        apply elem_of_app in Hq as [Hq|Hq].
        - apply Hnames; [apply elem_of_app; now left | exact Hk].
        - apply elem_of_cons in Hq as [->|Hq].
          + unfold copy. rewrite name_pushed_copy.
            apply Hnames; [apply elem_of_app; right; left|].
            unfold copy in Hk. now rewrite kind_pushed_copy in Hk.
          + apply Hnames; [apply elem_of_app; right; now right | exact Hk]. }
      exists (copy :: added).
      rewrite pushProperty_setProperties, setProperties_twice.
      rewrite <- app_assoc. cbn [app]. split; [reflexivity | now right].
Qed.

(** X22. A member of a base that is of no named kind (a doclet that stands
    alone in the body of the base, say) is copied into the record by every
    call: [extractInfo] never finds it, so the call does not see the copy
    an earlier call has made.  The property list therefore grows with
    every call. *)
Theorem autoExtendInfo_copies_loose_members_again :
  forall host fs sourceInfo resolvesToSelf fuel infoToExtend own
         extendType rest r baseProperties p,
    (forall n, resolvesToSelf n = false) ->
    properties infoToExtend = Some own ->
    gatherExtends host infoToExtend = extendType :: rest ->
    resolveType host fs sourceInfo extendType = Found r ->
    isClassOrInterface (resolvedInfo r) = true ->
    properties (resolvedInfo r) = Some baseProperties ->
    p ∈ baseProperties ->
    isNamedKind (kind p) = false ->
    (forall q, q ∈ own ++ baseProperties ->
       isNamedKind (kind q) = true -> name q <> name p) ->
    exists infoToExtend' out added,
      autoExtendInfo host fs sourceInfo resolvesToSelf fuel infoToExtend
      = Some (infoToExtend', out)
      /\ properties infoToExtend' = Some (own ++ added)
      /\ setInherited (newCodeInfo p) ∈ added
      /\ gatherExtends host infoToExtend' = extendType :: rest.
Proof.
  intros host fs sourceInfo self fuel info own extendType rest r
    baseProperties p Hself Hp Hg Hr Hk Hb Hin Hkp Hnames.
  destruct (inheritLoop_copies baseProperties p Hkp info own Hp Hin Hnames)
    as (added & Hloop & Hcopy).
  destruct (extendLoop_ends host fs sourceInfo self fuel rest Hself
              (setProperties info (Some (own ++ added))))
    as [[info' out] Hrest].
  pose proof (extendLoop_grows _ _ _ _ _ _ _ _ _ Hrest) as Hfinal.
  unfold propertiesGrow in Hfinal.
  rewrite properties_setProperties in Hfinal.
  destruct Hfinal as [added' Hfinal].
  exists info', out, (added ++ added').
  assert (Hrun : autoExtendInfo host fs sourceInfo self fuel info
                 = Some (info', out)).
  { unfold autoExtendInfo. rewrite Hg. cbn [extendLoop].
    now rewrite Hr, Hself, Hk, Hb, Hloop. }
  split; [exact Hrun|]. split; [|split].
  - now rewrite Hfinal, app_assoc.
  - apply elem_of_app. now left.
  - destruct (extendLoop_only _ _ _ _ _ _ _ _ _ Hrun) as [Heq _].
    rewrite Heq, gatherExtends_setProperties. exact Hg.
Qed.

Lemma autoExtendInfo_copies_loose_members_again_witness :
  exists infoToExtend' out added,
    autoExtendInfo Sample.host ∅ Flatten.looseSource Sample.noSelf 0
      Flatten.looseChild = Some (infoToExtend', out)
    /\ properties infoToExtend' = Some ([] ++ added)
    /\ setInherited (newCodeInfo Flatten.looseDoclet) ∈ added
    /\ gatherExtends Sample.host infoToExtend' = "Base" :: [].
Proof.
  apply (autoExtendInfo_copies_loose_members_again Sample.host ∅
           Flatten.looseSource Sample.noSelf 0 Flatten.looseChild []
           "Base" []
           {| resolved_path := "/src/types.ts";
              resolvedInfo := Flatten.looseBase;
              resolvedPath := "/src/types.ts";
              resolved_type := "Base" |}
           [Flatten.looseDoclet; Sample.propertyInfo "x" "number" None]
           Flatten.looseDoclet);
    try reflexivity.
  - left.
  - intros q Hq Hk. cbn [app] in Hq.
    apply elem_of_cons in Hq as [->|Hq]; [discriminate|].
    apply list_elem_of_singleton in Hq as ->. discriminate.
Defined.

(** ** Doclet parser: what a doclet holds *)

Lemma trimEnd_idem s : JSText.trimEnd (JSText.trimEnd s) = JSText.trimEnd s.
Proof.
  induction s as [|c s IH]; [reflexivity|].
  cbn [JSText.trimEnd].
  destruct (JSText.trimEnd s) as [|c' r] eqn:E.
  - destruct (JSText.isWhiteSpace c) eqn:Hc; [reflexivity|].
    cbn [JSText.trimEnd]. now rewrite Hc.
  - cbn [JSText.trimEnd] in *. now rewrite IH.
Qed.

Lemma trimStart_head s :
  match JSText.trimStart s with
  | String c _ => JSText.isWhiteSpace c = false
  | EmptyString => True
  end.
Proof.
  induction s as [|c s IH]; [exact I|].
  cbn [JSText.trimStart]. now destruct (JSText.isWhiteSpace c) eqn:Hc.
Qed.

Lemma trimStart_trimEnd s :
  match s with
  | String c _ => JSText.isWhiteSpace c = false
  | EmptyString => True
  end ->
  JSText.trimStart (JSText.trimEnd s) = JSText.trimEnd s.
Proof.
  destruct s as [|c s]; [reflexivity|]. intros Hc.
  cbn [JSText.trimEnd].
  destruct (JSText.trimEnd s); rewrite ?Hc; cbn [JSText.trimStart];
    now rewrite Hc.
Qed.

Lemma trim_idem s : JSText.trim (JSText.trim s) = JSText.trim s.
Proof.
  unfold JSText.trim.
  rewrite (trimStart_trimEnd (JSText.trimStart s) (trimStart_head s)).
  apply trimEnd_idem.
Qed.

Lemma tagText_trimmed tag : JSText.trim (tagText tag) = tagText tag.
Proof. apply trim_idem. Qed.

Lemma descriptionText_trimmed c :
  JSText.trim (descriptionText c) = descriptionText c.
Proof. destruct c; apply trim_idem. Qed.

Lemma kind_setTags d t : kind (setTags d t) = kind d.
Proof. now destruct d. Qed.

Lemma addTag_tidy doclet tag text :
  tidyDoclet doclet ->
  JSText.trim text = text ->
  exists doclet',
    addTag doclet tag text = Some doclet'
    /\ tidyDoclet doclet'
    /\ hasTag doclet' tag
    /\ (forall tag0, hasTag doclet tag0 -> hasTag doclet' tag0).
Proof.
  intros (Hk & tags0 & Ht & Hnd & Htexts) Htrim.
  unfold addTag, hasTag. rewrite Ht.
  set (pushed := if JSText.truthy text
                 then default [] (dictGet tag tags0) ++ [text]
                 else default [] (dictGet tag tags0)).
  eexists. split; [reflexivity|]. split; [|split].
  - split; [now rewrite kind_setTags|].
    exists (dictSet tag pushed tags0). rewrite tags_setTags.
    split; [reflexivity|]. split; [now apply dictSet_NoDup|].
    intros tag1 texts1 text1 Hget Hin.
    destruct (decide (tag1 = tag)) as [->|Hne].
    + rewrite dictGet_dictSet_eq in Hget. injection Hget as <-.
      assert (Hold : text1 ∈ default [] (dictGet tag tags0) ->
                     JSText.truthy text1 = true
                     /\ JSText.trim text1 = text1).
      { destruct (dictGet tag tags0) as [old|] eqn:E; cbn [default].
        - intros Hold. eapply Htexts; eauto.
        - intros Hnil. inversion Hnil. }
      unfold pushed in Hin. destruct (JSText.truthy text) eqn:Htr; [|auto].
      apply elem_of_app in Hin as [Hin|Hin]; [auto|].
      apply list_elem_of_singleton in Hin as ->. auto.
    + rewrite dictGet_dictSet_ne in Hget by exact Hne. eauto.
  - exists (dictSet tag pushed tags0), pushed.
    now rewrite tags_setTags, dictGet_dictSet_eq.
  - intros tag0 (tags1 & texts0 & Ht1 & Hget).
    injection Ht1 as <-.
    exists (dictSet tag pushed tags0). rewrite tags_setTags.
    destruct (decide (tag0 = tag)) as [->|Hne].
    + exists pushed. now rewrite dictGet_dictSet_eq.
    + exists texts0. now rewrite dictGet_dictSet_ne by exact Hne.
Qed.

Lemma tagsLoop_tidy docTags :
  forall doclet,
    tidyDoclet doclet ->
    exists doclet',
      tagsLoop docTags doclet = Some doclet'
      /\ tidyDoclet doclet'
      /\ (forall tag, tag ∈ docTags -> hasTag doclet' (tagNameText tag))
      /\ (forall tag0, hasTag doclet tag0 -> hasTag doclet' tag0).
Proof.
  induction docTags as [|tag rest IH]; intros doclet Htidy; cbn [tagsLoop].
  - exists doclet. split; [reflexivity|]. split; [exact Htidy|].
    split; [|auto]. intros tag Hin. inversion Hin.
  - destruct (addTag_tidy doclet (tagNameText tag) (tagText tag) Htidy
                (tagText_trimmed tag))
      as (d1 & -> & Htidy1 & Hhas & Hkeep).
    destruct (IH d1 Htidy1) as (d2 & -> & Htidy2 & Hall & Hkeep2).
    exists d2. split; [reflexivity|]. split; [exact Htidy2|].
    split; [|auto].
    intros t Hin. apply elem_of_cons in Hin as [->|Hin]; auto.
Qed.

Lemma tidyDoclet_setMeta doclet m :
  tidyDoclet doclet -> tidyDoclet (setMeta doclet m).
Proof. now destruct doclet. Qed.

Lemma hasTag_setMeta doclet m tag :
  hasTag doclet tag -> hasTag (setMeta doclet m) tag.
Proof. now destruct doclet. Qed.

Lemma docletLoop_tidy nodes :
  forall doclet,
    tidyDoclet doclet ->
    exists doclet',
      docletLoop nodes doclet = Some doclet'
      /\ tidyDoclet doclet'
      /\ tagsRegistered nodes doclet'
      /\ (forall tag0, hasTag doclet tag0 -> hasTag doclet' tag0).
Proof.
  induction nodes as [|node rest IH]; intros doclet Htidy.
  - exists doclet. split; [reflexivity|]. split; [exact Htidy|].
    split; [|auto]. intros b c ts t Hin. inversion Hin.
  - assert (Hskip : (forall b c ts, node <> JSDoc b c ts) ->
              docletLoop (node :: rest) doclet = docletLoop rest doclet).
    { intros Hne. destruct node as [| b0 c0 ts0 | | | | |]; try reflexivity.
      now destruct (Hne b0 c0 ts0). }
    destruct node as [| b comment docTags | | | | |];
      try (rewrite Hskip by discriminate;
           destruct (IH doclet Htidy) as (d' & -> & Ht' & Hreg & Hkeep);
           exists d'; split; [reflexivity|]; split; [exact Ht'|];
           split; [|exact Hkeep];
           intros b0 c0 ts0 t0 Hin;
           apply elem_of_cons in Hin as [Hin|Hin]; [discriminate|];
           eapply Hreg; eauto).
    clear Hskip. cbn [docletLoop].
    (* the description *)
    assert (Hdesc : exists d1,
              match comment with
              | Some c =>
                  if commentTruthy comment
                  then addTag doclet "description" (descriptionText c)
                  else Some doclet
              | None => Some doclet
              end = Some d1
              /\ tidyDoclet d1
              /\ (forall tag0, hasTag doclet tag0 -> hasTag d1 tag0)).
    { destruct comment as [c|]; [|eauto].
      destruct (commentTruthy (Some c)); [|eauto].
      destruct (addTag_tidy doclet "description" (descriptionText c) Htidy
                  (descriptionText_trimmed c)) as (d1 & -> & H1 & _ & H2).
      eauto. }
    destruct Hdesc as (d1 & -> & Htidy1 & Hkeep1).
    destruct docTags as [tags'|].
    + destruct (tagsLoop_tidy tags' d1 Htidy1)
        as (d2 & -> & Htidy2 & Hall & Hkeep2).
      destruct (IH (setMeta d2 (getInfoMeta (JSDoc b comment (Some tags'))))
                  (tidyDoclet_setMeta _ _ Htidy2))
        as (d3 & -> & Htidy3 & Hreg & Hkeep3).
      exists d3. split; [reflexivity|]. split; [exact Htidy3|]. split.
      * intros b0 c0 ts0 t0 Hin Ht0.
        apply elem_of_cons in Hin as [Hin|Hin]; [|eapply Hreg; eauto].
        injection Hin as -> -> ->.
        apply Hkeep3, hasTag_setMeta. auto.
      * intros tag0 H0. apply Hkeep3, hasTag_setMeta. auto.
    + destruct (IH d1 Htidy1) as (d3 & -> & Htidy3 & Hreg & Hkeep3).
      exists d3. split; [reflexivity|]. split; [exact Htidy3|].
      split; [|auto].
      intros b0 c0 ts0 t0 Hin Ht0.
      apply elem_of_cons in Hin as [Hin|Hin]; [discriminate|].
      eapply Hreg; eauto.
Qed.

Lemma newDocletInfo_tidy : tidyDoclet newDocletInfo.
Proof.
  split; [reflexivity|]. exists []. split; [reflexivity|].
  split; [constructor|]. intros tag texts text H. discriminate.
Qed.

(** X23. [getDocletInfosBetween] makes one doclet of every non-empty part
    list the parser reports, and never fails on the way.  Every doclet has
    distinct tags; each tag of each JSDoc node is a key of the tag map,
    also a tag without text; and every text stored, description
    included, is non-empty and has no white space at its start or end.
    (Tag names are taken to be none of the names an object inherits.) *)
Theorem getDocletInfosBetween_tidy_doclets :
  forall parseDocletParts fullText startNode endNode,
    (forall nodes,
       nodes ∈ getDocletsBetween parseDocletParts fullText startNode endNode ->
       plainTagNames nodes) ->
    exists infos,
      getDocletInfosBetween parseDocletParts fullText startNode endNode
      = Some infos
      /\ Forall2
           (fun nodes doclet =>
              docletLoop nodes newDocletInfo = Some doclet
              /\ tidyDoclet doclet
              /\ tagsRegistered nodes doclet)
           (getDocletsBetween parseDocletParts fullText startNode endNode)
           infos.
Proof.
  intros parse fullText startNode endNode _.
  unfold getDocletInfosBetween.
  induction (getDocletsBetween parse fullText startNode endNode)
    as [|nodes rest IH]; cbn [docletsLoop].
  - exists []. split; [reflexivity | constructor].
  - destruct (docletLoop_tidy nodes newDocletInfo newDocletInfo_tidy)
      as (d & Hd & Htidy & Hreg & _).
    destruct IH as (infos & -> & Hall). rewrite Hd.
    exists (d :: infos). split; [reflexivity|].
    constructor; auto.
Qed.

Lemma getDocletInfosBetween_tidy_doclets_witness :
  exists infos,
    getDocletInfosBetween Sample.docParser Sample.docFullText
      Sample.functionNode Sample.functionNode = Some infos
    /\ Forall2
         (fun nodes doclet =>
            docletLoop nodes newDocletInfo = Some doclet
            /\ tidyDoclet doclet
            /\ tagsRegistered nodes doclet)
         (getDocletsBetween Sample.docParser Sample.docFullText
            Sample.functionNode Sample.functionNode)
         infos.
Proof.
  apply getDocletInfosBetween_tidy_doclets.
  intros nodes Hin b comment docTags tag Hnode Htag.
  assert (Hparts : getDocletsBetween Sample.docParser Sample.docFullText
                     Sample.functionNode Sample.functionNode
                   = [[Sample.docNode Sample.base0 EmptyString
                         (JSText.nl +:+ " * ") " "]])
    by (vm_compute; reflexivity).
  rewrite Hparts in Hin.
  apply list_elem_of_singleton in Hin as ->.
  apply list_elem_of_singleton in Hnode.
  unfold Sample.docNode in Hnode. injection Hnode as -> -> ->.
  apply elem_of_cons in Htag as [->|Htag]; [reflexivity|].
  apply list_elem_of_singleton in Htag as ->. reflexivity.
Defined.

(** ** Doclet parser: the blocks found in a text *)

Lemma isChar_eq n c : isChar n c = true -> c = ascii_of_nat n.
Proof.
  unfold isChar. intros H. apply Nat.eqb_eq in H. subst n.
  now rewrite ascii_nat_embedding.
Qed.

Lemma endsStar_snoc s c :
  endsStar (s +:+ String c EmptyString) = isChar asterisk c.
Proof.
  unfold endsStar.
  assert (H : JSText.last (s +:+ String c EmptyString) = Some c).
  { induction s as [|c' s IH]; [reflexivity|].
    rewrite append_String. cbn [JSText.last].
    destruct (s +:+ String c EmptyString) eqn:E; [|exact IH].
    destruct s; discriminate. }
  now rewrite H.
Qed.

Lemma closes_app x y :
  closes (x +:+ y) = closes x || closes y || (endsStar x && startsSlash y).
Proof.
  induction x as [|c x IH].
  - change (EmptyString +:+ y) with y. unfold endsStar. cbn.
    now rewrite orb_false_r.
  - rewrite append_String. destruct x as [|c' x'].
    + change (EmptyString +:+ y) with y. unfold endsStar.
      cbn [closes JSText.last]. destruct y as [|c2 y]; cbn [startsSlash].
      * now rewrite andb_false_r.
      * cbn [orb]. apply orb_comm.
    + rewrite append_String in *.
      change (closes (String c (String c' (x' +:+ y))))
        with ((isChar asterisk c && isChar slash c')
              || closes (String c' (x' +:+ y))).
      rewrite IH.
      change (closes (String c (String c' x')))
        with ((isChar asterisk c && isChar slash c')
              || closes (String c' x')).
      change (endsStar (String c (String c' x')))
        with (endsStar (String c' x')).
      now rewrite !orb_assoc.
Qed.

Lemma matchDoclets_spec n :
  forall s,
    (String.length s <= n)%nat ->
    (forall m,
       m ∈ matchDoclets s None ->
       exists pre body post,
         s = pre +:+ m +:+ post
         /\ m = "/**" +:+ body +:+ "*/"
         /\ closes body = false)
    /\ (forall b0 m,
          closes b0 = false ->
          endsStar b0 && startsSlash s = false ->
          m ∈ matchDoclets s (Some ("/**" +:+ b0)) ->
          (exists body post,
             s = body +:+ "*/" +:+ post
             /\ m = "/**" +:+ (b0 +:+ body) +:+ "*/"
             /\ closes (b0 +:+ body) = false)
          \/ (exists pre body post,
                s = pre +:+ m +:+ post
                /\ m = "/**" +:+ body +:+ "*/"
                /\ closes body = false)).
Proof.
  induction n as [|n IH]; intros s Hlen.
  - destruct s; [|simpl in Hlen; lia].
    split; [intros m Hin | intros b0 m _ _ Hin]; inversion Hin.
  - destruct s as [|c1 s1].
    { split; [intros m Hin | intros b0 m _ _ Hin]; inversion Hin. }
    simpl in Hlen.
    assert (Hcons : forall t m front,
                (String.length t <= n)%nat ->
                String c1 s1 = front +:+ t ->
                m ∈ matchDoclets t None ->
                exists pre body post,
                  String c1 s1 = pre +:+ m +:+ post
                  /\ m = "/**" +:+ body +:+ "*/"
                  /\ closes body = false).
    { intros t m front Ht Hs Hin.
      destruct (proj1 (IH t Ht) m Hin) as (pre & body & post & -> & Hm & Hc).
      exists (front +:+ pre), body, post.
      split; [|auto]. now rewrite Hs, append_assoc. }
    split.
    + intros m Hin. cbn [matchDoclets] in Hin.
      destruct s1 as [|c2 [|c3 rest]].
      * inversion Hin.
      * apply (Hcons (String c2 EmptyString) m (String c1 EmptyString));
          [simpl in *; lia | reflexivity | exact Hin].
      * destruct (isChar slash c1 && isChar asterisk c2
                  && isChar asterisk c3) eqn:T.
        -- apply andb_true_iff in T as [T T3].
           apply andb_true_iff in T as [T1 T2].
           apply isChar_eq in T1, T2, T3. subst c1 c2 c3.
           change (Some (String (ascii_of_nat slash)
                           (String (ascii_of_nat asterisk)
                              (String (ascii_of_nat asterisk) EmptyString))))
             with (Some ("/**" +:+ EmptyString)) in Hin.
           assert (Hrest : (String.length rest <= n)%nat)
             by (simpl in Hlen; lia).
           destruct (proj2 (IH rest Hrest)
                       EmptyString m eq_refl eq_refl Hin)
             as [(body & post & -> & -> & Hc)
                | (pre & body & post & -> & Hm & Hc)].
           ++ exists EmptyString, body, post.
              split; [|split; [reflexivity | exact Hc]].
              change (EmptyString +:+ body) with body.
              change (String (ascii_of_nat slash)
                        (String (ascii_of_nat asterisk)
                           (String (ascii_of_nat asterisk)
                              (body +:+ "*/" +:+ post))))
                with ("/**" +:+ body +:+ "*/" +:+ post).
              change (EmptyString +:+ ?x) with x.
              now rewrite !append_assoc.
           ++ exists ("/**" +:+ pre), body, post.
              split; [|auto]. now rewrite append_assoc.
        -- apply (Hcons (String c2 (String c3 rest)) m
                    (String c1 EmptyString));
             [simpl in *; lia | reflexivity | exact Hin].
    + intros b0 m Hc He Hin. cbn [matchDoclets] in Hin.
      destruct s1 as [|c2 rest]; [inversion Hin|].
      destruct (isChar asterisk c1 && isChar slash c2) eqn:T.
      * apply elem_of_cons in Hin as [->|Hin].
        -- apply andb_true_iff in T as [T1 T2].
           apply isChar_eq in T1, T2. subst c1 c2.
           left. exists EmptyString, rest.
           rewrite append_empty_r. split; [reflexivity|].
           split; [|exact Hc]. now rewrite append_assoc.
        -- right.
           apply andb_true_iff in T as [T1 T2].
           apply isChar_eq in T1, T2. subst c1 c2.
           assert (Hrest : (String.length rest <= n)%nat)
             by (simpl in Hlen; lia).
           destruct (proj1 (IH rest Hrest) m Hin)
             as (pre & body & post & -> & Hm & Hcb).
           exists ("*/" +:+ pre), body, post.
           split; [|auto]. now rewrite append_assoc.
      * rewrite append_assoc in Hin.
        assert (Hc' : closes (b0 +:+ String c1 EmptyString) = false).
        { rewrite closes_app, Hc. cbn [closes startsSlash orb].
          cbn [startsSlash] in He. exact He. }
        assert (He' : endsStar (b0 +:+ String c1 EmptyString)
                      && startsSlash (String c2 rest) = false).
        { rewrite endsStar_snoc. exact T. }
        assert (Hrest : (String.length (String c2 rest) <= n)%nat)
          by (simpl in *; lia).
        destruct (proj2 (IH (String c2 rest) Hrest)
                    (b0 +:+ String c1 EmptyString) m Hc' He' Hin)
          as [(body & post & Hs & -> & Hcb)
             | (pre & body & post & Hs & Hm & Hcb)].
        -- left. exists (String c1 body), post.
           rewrite append_assoc in Hcb.
           change (String c1 EmptyString +:+ body) with (String c1 body)
             in Hcb.
           split; [now rewrite append_String, Hs|].
           split; [|exact Hcb].
           rewrite (append_assoc b0). reflexivity.
        -- right. exists (String c1 pre), body, post.
           split; [now rewrite append_String, Hs | auto].
Qed.

Lemma closes_app_l x y : closes x = true -> closes (x +:+ y) = true.
Proof. intros H. now rewrite closes_app, H. Qed.

Lemma closes_app_r x y : closes y = true -> closes (x +:+ y) = true.
Proof. intros H. now rewrite closes_app, H, orb_true_r. Qed.

(** X24. Every block that [getDocletsBetween] cuts out of the text is a
    closed comment: it occurs in the text, opens with slash-star-star,
    ends with star-slash, and holds no star-slash before its end; so it is
    at least five characters long.  A text without star-slash has no
    block. *)
Theorem matchDoclets_closed_blocks :
  forall text,
    (forall m,
       m ∈ matchDoclets text None ->
       exists pre body post,
         text = pre +:+ m +:+ post
         /\ m = "/**" +:+ body +:+ "*/"
         /\ closes body = false
         /\ (5 <= String.length m)%nat)
    /\ (closes text = false -> matchDoclets text None = []).
Proof.
  intros text.
  assert (H : forall m,
             m ∈ matchDoclets text None ->
             exists pre body post,
               text = pre +:+ m +:+ post
               /\ m = "/**" +:+ body +:+ "*/"
               /\ closes body = false
               /\ (5 <= String.length m)%nat).
  { intros m Hin.
    destruct (proj1 (matchDoclets_spec (String.length text) text
                       (Nat.le_refl _)) m Hin)
      as (pre & body & post & Ht & Hm & Hc).
    exists pre, body, post. repeat split; auto.
    rewrite Hm, !length_append. simpl. lia. }
  split; [exact H|].
  intros Hno. destruct (matchDoclets text None) as [|m l] eqn:E;
    [reflexivity|exfalso].
  destruct (H m ltac:(left)) as (pre & body & post & Ht & Hm & _).
  assert (Hyes : closes text = true).
  { rewrite Ht, Hm.
    apply closes_app_r, closes_app_l, closes_app_r, closes_app_r.
    reflexivity. }
  congruence.
Qed.

Lemma matchDoclets_closed_blocks_witness :
  exists pre body post,
    "a /** b */ c /**/ d */" = pre +:+ "/** b */" +:+ post
    /\ "/** b */" = "/**" +:+ body +:+ "*/"
    /\ closes body = false
    /\ (5 <= String.length "/** b */")%nat.
Proof.
  apply (proj1 (matchDoclets_closed_blocks "a /** b */ c /**/ d */")).
  vm_compute. left.
Defined.

(** ** Node classifier: the bindings of an import *)

Lemma namedImportsLoop_spec children :
  forall acc : Dict string,
    NoDup (dictKeys acc) ->
    let result := namedImportsLoop children acc in
    NoDup (dictKeys result)
    /\ (forall item local,
          dictGet item result = Some local ->
          dictGet item acc = Some local \/ namedBinding children item local)
    /\ (forall item,
          is_Some (dictGet item acc) -> is_Some (dictGet item result))
    /\ (forall item local,
          namedBinding children item local -> is_Some (dictGet item result)).
Proof.
  induction children as [|child rest IH]; intros acc Hnd; cbn zeta.
  - cbn [namedImportsLoop]. split; [exact Hnd|]. split; [auto|].
    split; [auto|]. intros item local (b & pn & Hin & _). inversion Hin.
  - assert (Hskip : (forall b pn nm, child <> ImportSpecifier b pn nm) ->
              NoDup (dictKeys (namedImportsLoop (child :: rest) acc))
              /\ (forall item local,
                    dictGet item (namedImportsLoop (child :: rest) acc)
                    = Some local ->
                    dictGet item acc = Some local
                    \/ namedBinding (child :: rest) item local)
              /\ (forall item,
                    is_Some (dictGet item acc) ->
                    is_Some (dictGet item
                               (namedImportsLoop (child :: rest) acc)))
              /\ (forall item local,
                    namedBinding (child :: rest) item local ->
                    is_Some (dictGet item
                               (namedImportsLoop (child :: rest) acc)))).
    { intros Hne.
      assert (Heq : namedImportsLoop (child :: rest) acc
                    = namedImportsLoop rest acc).
      { destruct child as [| | | | b pn nm | |]; try reflexivity.
        now destruct (Hne b pn nm). }
      rewrite Heq. destruct (IH acc Hnd) as (H1 & H2 & H3 & H4).
      split; [exact H1|]. split; [|split; [exact H3|]].
      - intros item local Hget. destruct (H2 item local Hget) as [?|Hb];
          [now left|right].
        destruct Hb as (b & pn & Hin & Hk). exists b, pn.
        split; [now right | exact Hk].
      - intros item local (b & pn & Hin & Hk).
        apply elem_of_cons in Hin as [Hin|Hin].
        + now destruct (Hne b pn local).
        + apply (H4 item local). now exists b, pn. }
    destruct child as [| | | | b pn nm | |]; try (apply Hskip; discriminate).
    clear Hskip. cbn [namedImportsLoop].
    fold (specifierKey pn nm).
    set (key := specifierKey pn nm).
    destruct (IH (dictSet key nm acc) (dictSet_NoDup key nm acc Hnd))
      as (H1 & H2 & H3 & H4).
    split; [exact H1|]. split; [|split].
    + intros item local Hget.
      destruct (H2 item local Hget) as [Hacc|Hb].
      * destruct (decide (item = key)) as [->|Hne].
        -- rewrite dictGet_dictSet_eq in Hacc. injection Hacc as <-.
           right. exists b, pn. split; [left | reflexivity].
        -- rewrite dictGet_dictSet_ne in Hacc by exact Hne. now left.
      * right. destruct Hb as (b' & pn' & Hin & Hk). exists b', pn'.
        split; [now right | exact Hk].
    + intros item Hsome. apply H3.
      destruct (decide (item = key)) as [->|Hne].
      * rewrite dictGet_dictSet_eq. eauto.
      * now rewrite dictGet_dictSet_ne by exact Hne.
    + intros item local (b' & pn' & Hin & Hk).
      apply elem_of_cons in Hin as [Hin|Hin].
      * injection Hin as -> -> ->. apply H3. rewrite Hk.
        fold key. rewrite dictGet_dictSet_eq. eauto.
      * apply (H4 item local). now exists b', pn'.
Qed.

Lemma importClauseLoop_spec clauses :
  forall acc : Dict string,
    NoDup (dictKeys acc) ->
    let result := importClauseLoop clauses acc in
    NoDup (dictKeys result)
    /\ (forall item local,
          dictGet item result = Some local ->
          dictGet item acc = Some local \/ clauseBinding clauses item local)
    /\ (forall item,
          is_Some (dictGet item acc) -> is_Some (dictGet item result))
    /\ (forall item local,
          clauseBinding clauses item local -> is_Some (dictGet item result))
    /\ (namespaceOnly clauses -> result = acc).
Proof.
  induction clauses as [|clause rest IH]; intros acc Hnd; cbn zeta.
  - cbn [importClauseLoop]. split; [exact Hnd|]. split; [auto|].
    split; [auto|]. split; [|auto].
    intros item local [[_ [b Hin]] | (b & ch & Hin & _)]; inversion Hin.
  - assert (Hweak : forall item local,
              clauseBinding rest item local ->
              clauseBinding (clause :: rest) item local).
    { intros item local [[Hd [b Hin]] | (b & ch & Hin & Hb)].
      - left. split; [exact Hd|]. exists b. now right.
      - right. exists b, ch. split; [now right | exact Hb]. }
    assert (Hns : namespaceOnly (clause :: rest) -> namespaceOnly rest).
    { intros H c Hc. apply H. now right. }
    destruct clause as [| | b text | b children | | |].
    3: { (* the default import *)
      cbn [importClauseLoop].
      destruct (IH (dictSet "default" text acc)
                  (dictSet_NoDup "default" text acc Hnd))
        as (H1 & H2 & H3 & H4 & _).
      split; [exact H1|]. split; [|split; [|split]].
      - intros item local Hget.
        destruct (H2 item local Hget) as [Hacc|Hb]; [|right; auto].
        destruct (decide (item = "default")) as [->|Hne].
        + rewrite dictGet_dictSet_eq in Hacc. injection Hacc as <-.
          right. left. split; [reflexivity|]. exists b. left.
        + rewrite dictGet_dictSet_ne in Hacc by exact Hne. now left.
      - intros item Hsome. apply H3.
        destruct (decide (item = "default")) as [->|Hne].
        + rewrite dictGet_dictSet_eq. eauto.
        + now rewrite dictGet_dictSet_ne by exact Hne.
      - intros item local [[-> [b' Hin]] | (b' & ch & Hin & Hb)].
        + apply H3. rewrite dictGet_dictSet_eq. eauto.
        + apply elem_of_cons in Hin as [Hin|Hin]; [discriminate|].
          apply (H4 item local). right. now exists b', ch.
      - intros Hn. exfalso. apply (Hn (Identifier b text)). left. }
    3: { (* the named imports *)
      cbn [importClauseLoop].
      destruct (namedImportsLoop_spec children acc Hnd)
        as (N1 & N2 & N3 & N4). cbn zeta in *.
      destruct (IH (namedImportsLoop children acc) N1)
        as (H1 & H2 & H3 & H4 & _).
      split; [exact H1|]. split; [|split; [|split]].
      - intros item local Hget.
        destruct (H2 item local Hget) as [Hacc|Hb]; [|right; auto].
        destruct (N2 item local Hacc) as [?|Hb]; [now left|].
        right. right. exists b, children. split; [left | exact Hb].
      - intros item Hsome. auto.
      - intros item local [[-> [b' Hin]] | (b' & ch & Hin & Hb)].
        + apply elem_of_cons in Hin as [Hin|Hin]; [discriminate|].
          apply (H4 "default" local). left. split; [reflexivity|].
          now exists b'.
        + apply elem_of_cons in Hin as [Hin|Hin].
          * injection Hin as -> ->. apply H3. eapply N4; eauto.
          * apply (H4 item local). right. now exists b', ch.
      - intros Hn. exfalso. apply (Hn (NamedImports b children)). left. }
    all: cbn [importClauseLoop];
      destruct (IH acc Hnd) as (H1 & H2 & H3 & H4 & H5);
      (split; [exact H1|]); (split; [|split; [exact H3|split]]);
      [ intros item local Hget;
        destruct (H2 item local Hget) as [?|?]; [now left | right; auto]
      | intros item local [[-> [b' Hin]] | (b' & ch & Hin & Hb)];
        (apply elem_of_cons in Hin as [Hin|Hin]; [discriminate|]);
        [ apply (H4 "default" local); left; split; [reflexivity|];
          now exists b'
        | apply (H4 item local); right; now exists b', ch ]
      | intros Hn; apply H5, Hns, Hn ].
Qed.

(** X25. The [imports] mapping of an import record has distinct keys and
    holds exactly what the import clause binds: each entry is the default
    import, under the key [default], or a specifier of the named imports,
    under its original name; every such binding has its key in the
    mapping.  An import that has neither (a namespace import) is given
    the empty mapping, so no name is ever resolved through it. *)
Theorem getImportInfo_bindings :
  forall b moduleSpecifierText clauses,
    exists info bindings,
      getImportInfo (ImportDeclaration b moduleSpecifierText (Some clauses))
      = Some info
      /\ kind info = KImport
      /\ imports info = Some bindings
      /\ NoDup (dictKeys bindings)
      /\ (forall item local,
            dictGet item bindings = Some local ->
            clauseBinding clauses item local)
      /\ (forall item local,
            clauseBinding clauses item local ->
            is_Some (dictGet item bindings))
      /\ (namespaceOnly clauses ->
          bindings = [] /\ forall X, mentions info X = false).
Proof.
  intros b spec clauses.
  destruct (importClauseLoop_spec clauses [] (NoDup_nil_2))
    as (H1 & H2 & H3 & H4 & H5). cbn zeta in *.
  eexists _, (importClauseLoop clauses []).
  split; [reflexivity|]. split; [reflexivity|]. split; [reflexivity|].
  split; [exact H1|]. split; [|split; [exact H4|]].
  - intros item local Hget.
    destruct (H2 item local Hget) as [Hnil|Hb]; [discriminate | exact Hb].
  - intros Hn. split; [auto|]. intros X.
    unfold mentions. cbn [imports]. rewrite (H5 Hn). cbn.
    apply andb_false_r.
Qed.

(** ** [newCodeInfo] on the store: what a copy writes *)

Lemma keepsBelow_refl n h : keepsBelow n h h.
Proof. split; [lia | reflexivity]. Qed.

Lemma keepsBelow_trans n h1 h2 h3 :
  keepsBelow n h1 h2 -> keepsBelow n h2 h3 -> keepsBelow n h1 h3.
Proof. intros [L1 T1] [L2 T2]. split; [lia | congruence]. Qed.

Lemma keepsBelow_app n (h ext : Store.heap) :
  (n <= length h)%nat -> keepsBelow n h (h ++ ext).
Proof.
  intros Hn. split; [rewrite length_app; lia|].
  now rewrite take_app_le by exact Hn.
Qed.

Lemma setField_length h l key v :
  length (Store.setField h l key v) = length h.
Proof.
  unfold Store.setField. destruct (_ !! _) as [[f|items]|]; auto.
  apply length_insert.
Qed.

Lemma keepsBelow_setField n h l key v :
  (n <= l)%nat -> keepsBelow n h (Store.setField h l key v).
Proof.
  intros Hn. split; [rewrite setField_length; lia|].
  unfold Store.setField. destruct (_ !! _) as [[f|items]|]; auto.
  now apply take_insert_ge.
Qed.

Section CopyFrame.

Variable rec : Store.heap -> Store.loc -> Store.result (Store.heap * Store.loc).

Hypothesis rec_frame :
  forall h l h' l',
    rec h l = Store.Ok (h', l') -> exists fresh, h' = h ++ fresh.

Lemma mapItems_frame items :
  forall h h' items',
    Store.mapItems rec h items = Store.Ok (h', items') ->
    exists fresh, h' = h ++ fresh.
Proof.
  induction items as [|item rest IH]; intros h h' items' H;
    cbn [Store.mapItems] in H.
  - injection H as <- _. exists []. now rewrite app_nil_r.
  - assert (Hstep : forall h1 item1,
              match Store.mapItems rec h1 rest with
              | Store.Ok (h2, rest') => Store.Ok (h2, item1 :: rest')
              | Store.TypeError => Store.TypeError
              | Store.OutOfFuel => Store.OutOfFuel
              end = Store.Ok (h', items') ->
              exists fresh, h' = h1 ++ fresh).
    { intros h1 item1 H1.
      destruct (Store.mapItems rec h1 rest) as [[h2 rest']| |] eqn:E;
        try discriminate.
      injection H1 as <- _. eapply IH; eauto. }
    destruct item as [| | | | |l]; try (now apply Hstep in H).
    destruct (rec h l) as [[h1 l1]| |] eqn:E; try discriminate.
    destruct (rec_frame _ _ _ _ E) as [f1 ->].
    destruct (Hstep _ _ H) as [f2 ->].
    exists (f1 ++ f2). now rewrite app_assoc.
Qed.

Lemma keysLoop_keeps n newInfo template :
  (n <= newInfo)%nat ->
  forall h h',
    (n <= length h)%nat ->
    Store.keysLoop rec h template newInfo = Store.Ok h' ->
    keepsBelow n h h'.
Proof.
  intros Hn. induction template as [|[key v] rest IH]; intros h h' Hlen H;
    cbn [Store.keysLoop] in H.
  - injection H as <-. apply keepsBelow_refl.
  - assert (Hset : forall h1 v1,
              keepsBelow n h h1 ->
              Store.keysLoop rec (Store.setField h1 newInfo key v1) rest
                newInfo = Store.Ok h' ->
              keepsBelow n h h').
    { intros h1 v1 [L1 T1] H1.
      eapply keepsBelow_trans; [split; [exact L1 | exact T1]|].
      eapply keepsBelow_trans; [apply keepsBelow_setField; exact Hn|].
      apply IH; [rewrite setField_length; lia | exact H1]. }
    destruct (Store.isArray h v) as [items|].
    + destruct (Store.mapItems rec h items) as [[h1 items']| |] eqn:E;
        try discriminate.
      destruct (mapItems_frame _ _ _ _ E) as [f1 ->].
      unfold Store.alloc in H. cbn in H.
      eapply (Hset ((h ++ f1) ++ [Store.Arr items'])); [|exact H].
      rewrite <- app_assoc. now apply keepsBelow_app.
    + destruct v as [| | | | |l];
        try (eapply (Hset h); [apply keepsBelow_refl | exact H]).
      destruct (Store.truthy (Store.getField h l "kind")).
      * destruct (rec h l) as [[h1 l1]| |] eqn:E; try discriminate.
        destruct (rec_frame _ _ _ _ E) as [f1 ->].
        eapply (Hset (h ++ f1)); [now apply keepsBelow_app | exact H].
      * eapply (Hset h); [apply keepsBelow_refl | exact H].
Qed.

End CopyFrame.

Lemma newCodeInfo_frame fuel :
  forall h template h' copy,
    Store.newCodeInfo fuel h template = Store.Ok (h', copy) ->
    copy = length h /\ exists fresh, h' = h ++ fresh.
Proof.
  induction fuel as [|fuel IH]; intros h template h' copy H;
    [discriminate|].
  cbn [Store.newCodeInfo] in H.
  destruct (h !! template) as [o|]; [|discriminate].
  unfold Store.alloc in H. cbn in H.
  destruct (Store.keysLoop (Store.newCodeInfo fuel) (h ++ [Store.Obj []])
              (Store.entries o) (length h)) as [h1| |] eqn:E;
    try discriminate.
  injection H as <- <-. split; [reflexivity|].
  assert (Hrec : forall h0 l h0' l',
             Store.newCodeInfo fuel h0 l = Store.Ok (h0', l') ->
             exists fresh, h0' = h0 ++ fresh).
  { intros h0 l h0' l' H0. now destruct (IH _ _ _ _ H0). }
  assert (Hlen : (length h <= length (h ++ [Store.Obj []]))%nat)
    by (rewrite length_app; lia).
  destruct (keysLoop_keeps _ Hrec (length h) (length h) (Store.entries o)
              (Nat.le_refl _) _ _ Hlen E)
    as [_ Htake].
  rewrite take_app_length in Htake.
  exists (drop (length h) h1).
  rewrite <- Htake at 1. now rewrite take_drop.
Qed.

(** X26. [newCodeInfo] writes to new objects only: the returned object is
    a new one, never the template, and every object that was in the store
    before the call is there unchanged after it, the template and all it
    refers to included. *)
Theorem newCodeInfo_leaves_the_store_as_it_was :
  forall fuel h template h' copy,
    Store.newCodeInfo fuel h template = Store.Ok (h', copy) ->
    copy = length h
    /\ copy <> template
    /\ (exists fresh, h' = h ++ fresh)
    /\ (forall l o, h !! l = Some o -> h' !! l = Some o)
    /\ (forall l key, (l < length h)%nat ->
          Store.getField h' l key = Store.getField h l key).
Proof.
  intros fuel h template h' copy H.
  destruct (newCodeInfo_frame _ _ _ _ _ H) as [-> [fresh ->]].
  split; [reflexivity|]. split; [|split; [eauto|split]].
  - destruct fuel; [discriminate|]. cbn [Store.newCodeInfo] in H.
    destruct (h !! template) as [o|] eqn:E; [|discriminate].
    apply lookup_lt_Some in E. lia.
  - intros l o Hl. now apply lookup_app_l_Some.
  - intros l key Hl. unfold Store.getField.
    pose proof (lookup_app_l h fresh l Hl) as Heq.
    unfold Store.heap, Store.loc in *. now rewrite Heq.
Qed.

Lemma newCodeInfo_leaves_the_store_as_it_was_witness :
  exists h' copy,
    Store.newCodeInfo 3 Sample.propertyHeap 3 = Store.Ok (h', copy)
    /\ copy = length Sample.propertyHeap
    /\ copy <> 3%nat
    /\ (exists fresh, h' = Sample.propertyHeap ++ fresh).
Proof.
  destruct (Store.newCodeInfo 3 Sample.propertyHeap 3)
    as [[h' copy]| |] eqn:E; try (vm_compute in E; discriminate).
  exists h', copy. split; [reflexivity|].
  destruct (newCodeInfo_leaves_the_store_as_it_was 3 Sample.propertyHeap 3
              h' copy E) as (H1 & H2 & H3 & _).
  auto.
Defined.

Lemma keepsBelow_lookup n (h h' : list Store.object) (l : nat) :
  keepsBelow n h h' -> (l < n)%nat -> h' !! l = h !! l.
Proof.
  intros [_ Ht] Hl.
  rewrite <- (lookup_take_lt h' n l Hl), <- (lookup_take_lt h n l Hl).
  now rewrite Ht.
Qed.

Lemma setField_lookup (h : list Store.object) (l : nat) key v f :
  h !! l = Some (Store.Obj f) ->
  Store.setField h l key v !! l = Some (Store.Obj (dictSet key v f)).
Proof.
  intros Hl. unfold Store.setField.
  unfold Store.heap, Store.loc in *. rewrite Hl.
  apply list_lookup_insert_eq. now apply lookup_lt_Some in Hl.
Qed.

Section CopyFields.

Variable rec : Store.heap -> Store.loc -> Store.result (Store.heap * Store.loc).

Hypothesis rec_frame :
  forall h l h' l',
    rec h l = Store.Ok (h', l') -> l' = length h /\ exists fresh, h' = h ++ fresh.

Variable h0 : Store.heap.
Variable newInfo : nat.
Hypothesis newInfo_new : (length h0 <= newInfo)%nat.

Lemma keysLoop_fields template :
  forall (hc : Store.heap) f h',
    keepsBelow (length h0) h0 hc ->
    hc !! newInfo = Some (Store.Obj f) ->
    NoDup (dictKeys f ++ dictKeys template) ->
    fieldsInStore h0 template ->
    Store.keysLoop rec hc template newInfo = Store.Ok h' ->
    exists f',
      h' !! newInfo = Some (Store.Obj f')
      /\ dictKeys f' = dictKeys f ++ dictKeys template
      /\ (forall key v, dictGet key f = Some v -> dictGet key f' = Some v)
      /\ (forall key v,
            (key, v) ∈ template ->
            exists v', dictGet key f' = Some v' /\ fieldCopied h0 v v').
Proof.
  induction template as [|[key v] rest IH];
    intros hc f h' Hkeep Hcell Hnd Hin H; cbn [Store.keysLoop] in H.
  - injection H as <-. exists f. split; [exact Hcell|].
    split; [now rewrite app_nil_r|]. split; [auto|].
    intros k w Hk. inversion Hk.
  - assert (Hfresh : dictGet key f = None).
    { apply dictGet_None_keys. intros Hk.
      apply NoDup_app in Hnd as (_ & Hdis & _).
      apply (Hdis key Hk). left. }
    assert (Hnd' : forall w,
               NoDup (dictKeys (dictSet key w f) ++ dictKeys rest)).
    { intros w. rewrite dictKeys_dictSet, Hfresh, <- app_assoc. exact Hnd. }
    assert (Hin' : fieldsInStore h0 rest).
    { intros k l Hk. apply (Hin k l). now right. }
    (* one field written, the rest of the loop *)
    assert (Hset : forall (h1 : Store.heap) w,
              keepsBelow (length h0) h0 h1 ->
              h1 !! newInfo = Some (Store.Obj f) ->
              fieldCopied h0 v w ->
              Store.keysLoop rec (Store.setField h1 newInfo key w) rest
                newInfo = Store.Ok h' ->
              exists f',
                h' !! newInfo = Some (Store.Obj f')
                /\ dictKeys f' = dictKeys f ++ dictKeys ((key, v) :: rest)
                /\ (forall k x, dictGet k f = Some x -> dictGet k f' = Some x)
                /\ (forall k x,
                      (k, x) ∈ (key, v) :: rest ->
                      exists x', dictGet k f' = Some x'
                                 /\ fieldCopied h0 x x')).
    { intros h1 w Hk1 Hc1 Hw H1.
      destruct (IH (Store.setField h1 newInfo key w) (dictSet key w f) h')
        as (f' & Hf' & Hkeys & Hold & Hnew); auto.
      - eapply keepsBelow_trans; [exact Hk1|].
        now apply keepsBelow_setField.
      - now apply setField_lookup.
      - exists f'. split; [exact Hf'|]. split; [|split].
        + rewrite Hkeys, dictKeys_dictSet, Hfresh, <- app_assoc.
          reflexivity.
        + intros k x Hk. apply Hold.
          rewrite dictGet_dictSet_ne; [exact Hk|]. congruence.
        + intros k x Hk. apply elem_of_cons in Hk as [Hk|Hk]; [|auto].
          injection Hk as -> ->. exists w. split; [|exact Hw].
          apply Hold, dictGet_dictSet_eq. }
    assert (Hplain : (forall l, v <> Store.VRef l) ->
              Store.isArray hc v = None
              /\ fieldCopied h0 v v).
    { intros Hne. destruct v; try (now split). now destruct (Hne l). }
    destruct v as [| | | | |l].
    1-5: (destruct (Hplain ltac:(discriminate)) as [Ha Hc];
          rewrite Ha in H; cbn in H;
          apply (Hset hc _ Hkeep Hcell Hc H)).
    clear Hplain.
    assert (Hl : (l < length h0)%nat) by (apply (Hin key l); left).
    pose proof (keepsBelow_lookup _ _ _ l Hkeep Hl) as Hsame.
    assert (Hkind : Store.getField hc l "kind"
                    = Store.getField h0 l "kind").
    { unfold Store.getField. unfold Store.heap, Store.loc in *.
      now rewrite Hsame. }
    assert (Hlen : (length h0 <= length hc)%nat) by apply Hkeep.
    unfold Store.isArray in H. unfold Store.heap, Store.loc in *.
    rewrite Hsame in H.
    destruct (h0 !! l) as [[fields|items]|] eqn:El.
    + rewrite Hkind in H.
      destruct (Store.truthy (Store.getField h0 l "kind")) eqn:Ek.
      * destruct (rec hc l) as [[h1 l1]| |] eqn:E; try discriminate.
        destruct (rec_frame _ _ _ _ E) as [-> [fresh ->]].
        apply (Hset (hc ++ fresh) (Store.VRef (length hc))); auto.
        -- eapply keepsBelow_trans; [exact Hkeep|].
           apply keepsBelow_app. lia.
        -- now apply lookup_app_l_Some.
        -- unfold fieldCopied. unfold Store.heap, Store.loc in *.
           rewrite El, Ek. eauto.
      * apply (Hset hc (Store.VRef l)); auto.
        unfold fieldCopied. unfold Store.heap, Store.loc in *.
        now rewrite El, Ek.
    + destruct (Store.mapItems rec hc items) as [[h1 items']| |] eqn:E;
        try discriminate.
      assert (Hrec : forall h l h' l',
                 rec h l = Store.Ok (h', l') -> exists fresh, h' = h ++ fresh).
      { intros h l2 h2 l2' E2. now destruct (rec_frame _ _ _ _ E2). }
      destruct (mapItems_frame _ Hrec _ _ _ _ E) as [fresh ->].
      unfold Store.alloc in H. cbn in H.
      apply (Hset ((hc ++ fresh) ++ [Store.Arr items'])
               (Store.VRef (length (hc ++ fresh)))); auto.
      * eapply keepsBelow_trans; [exact Hkeep|].
        rewrite <- app_assoc. apply keepsBelow_app. lia.
      * apply lookup_app_l_Some. now apply lookup_app_l_Some.
      * unfold fieldCopied. unfold Store.heap, Store.loc in *.
        rewrite El. eexists. split; [reflexivity|].
        rewrite length_app. lia.
    + apply lookup_ge_None in El. lia.
Qed.

End CopyFields.

(** X27. The copy [newCodeInfo] makes of an object has the keys of the
    template, in the same order, and in every field: the value of the
    template, if that is no object; a new array, if it is an array; a new
    object, if it is an object with a truthy [kind]; and the very object
    of the template, if it is an object without [kind], as the tag map of
    a doclet is.  Copy and template share every such object. *)
Theorem newCodeInfo_copies_fields :
  forall fuel h template fields h' copy,
    h !! template = Some (Store.Obj fields) ->
    NoDup (dictKeys fields) ->
    fieldsInStore h fields ->
    Store.newCodeInfo fuel h template = Store.Ok (h', copy) ->
    exists fields',
      h' !! copy = Some (Store.Obj fields')
      /\ dictKeys fields' = dictKeys fields
      /\ forall key v,
           dictGet key fields = Some v ->
           exists v', dictGet key fields' = Some v' /\ fieldCopied h v v'.
Proof.
  intros fuel h template fields h' copy Ht Hnd Hin H.
  destruct fuel as [|fuel]; [discriminate|].
  cbn [Store.newCodeInfo] in H.
  unfold Store.heap, Store.loc in *. rewrite Ht in H.
  unfold Store.alloc in H. cbn in H.
  destruct (Store.keysLoop (Store.newCodeInfo fuel) (h ++ [Store.Obj []])
              fields (length h)) as [h1| |] eqn:E; try discriminate.
  injection H as <- <-.
  destruct (keysLoop_fields (Store.newCodeInfo fuel)
              (newCodeInfo_frame fuel) h (length h) (Nat.le_refl _)
              fields (h ++ [Store.Obj []]) [] h1)
    as (f' & Hf' & Hkeys & _ & Hnew).
  - apply keepsBelow_app. lia.
  - exact (list_lookup_middle h [] (Store.Obj []) (length h) eq_refl).
  - exact Hnd.
  - exact Hin.
  - exact E.
  - exists f'. split; [exact Hf'|]. split; [exact Hkeys|].
    intros key v Hget. apply Hnew. now apply dictGet_elem_of.
Qed.

Lemma newCodeInfo_copies_fields_witness :
  exists h' copy fields',
    Store.newCodeInfo 2 Sample.propertyHeap 2 = Store.Ok (h', copy)
    /\ h' !! copy = Some (Store.Obj fields')
    /\ dictKeys fields' = ["kind"; "tags"]
    /\ dictGet "tags" fields' = Some (Store.VRef 1).
Proof.
  destruct (Store.newCodeInfo 2 Sample.propertyHeap 2)
    as [[h' copy]| |] eqn:E; try (vm_compute in E; discriminate).
  destruct (newCodeInfo_copies_fields 2 Sample.propertyHeap 2
              [("kind", Store.VString "Doclet"); ("tags", Store.VRef 1)]
              h' copy eq_refl) as (fields' & Hc & Hk & Hf); [| |exact E|].
  - repeat constructor; rewrite ?not_elem_of_cons; repeat split;
      try discriminate; apply not_elem_of_nil.
  - intros key l Hin.
    apply elem_of_cons in Hin as [Hin|Hin]; [discriminate|].
    apply list_elem_of_singleton in Hin. injection Hin as _ ->.
    simpl. lia.
  - exists h', copy, fields'. split; [reflexivity|]. split; [exact Hc|].
    split; [exact Hk|].
    destruct (Hf "tags" (Store.VRef 1) eq_refl) as (v' & Hv & Hcopied).
    rewrite Hv. f_equal. exact Hcopied.
Defined.

(** ** The classifier loop *)






Section ClassifierLoop.

Variable isEndOfFileToken : Node -> bool.
Variable isVariableList : Node -> bool.
Variable classify : Node -> option CodeInfo.
Variable parseDocletParts : string -> list (list Node).
Variable fullText : string.
Variable rec : Tree -> option (list CodeInfo).


End ClassifierLoop.






Example getChildInfos_attaches_the_doclet :
  exists meta',
    getChildInfos Classified.isEndOfFileToken Classified.isVariableList
      Classified.classify Sample.docParser Sample.docFullText
      Classified.fileNodes
    = Some [setDoclet Classified.functionInfo
              (setMeta (Sample.docletInfo Sample.docTagsComputed) meta')].
Proof. eexists. vm_compute. reflexivity. Qed.

(** ** The classifier loop: blocks read again *)

Lemma matchDoclets_opened block c1 c2 rest :
  matchDoclets (String c1 (String c2 rest)) (Some block)
  = if isChar asterisk c1 && isChar slash c2
    then (block +:+ String c1 (String c2 EmptyString))
           :: matchDoclets rest None
    else matchDoclets (String c2 rest)
           (Some (block +:+ String c1 EmptyString)).
Proof. reflexivity. Qed.

Lemma matchDoclets_closed c1 c2 c3 rest :
  matchDoclets (String c1 (String c2 (String c3 rest))) None
  = if isChar slash c1 && isChar asterisk c2 && isChar asterisk c3
    then matchDoclets rest
           (Some (String c1 (String c2 (String c3 EmptyString))))
    else matchDoclets (String c2 (String c3 rest)) None.
Proof. reflexivity. Qed.

Lemma matchDoclets_app_length n :
  forall s t opened,
    (String.length s <= n)%nat ->
    exists more,
      matchDoclets (s +:+ t) opened = matchDoclets s opened ++ more.
Proof.
  induction n as [|n IH]; intros s t opened Hlen.
  - destruct s; [|simpl in Hlen; lia].
    exists (matchDoclets t opened). now destruct opened.
  - destruct s as [|c1 s1].
    { exists (matchDoclets t opened). now destruct opened. }
    simpl in Hlen. destruct opened as [block|].
    + destruct s1 as [|c2 rest].
      { eexists. cbn [matchDoclets app]. reflexivity. }
      rewrite !append_String, !matchDoclets_opened.
      destruct (isChar asterisk c1 && isChar slash c2).
      * destruct (IH rest t None ltac:(simpl in Hlen; lia)) as [more ->].
        exists more. reflexivity.
      * rewrite <- append_String.
        apply IH. simpl in *. lia.
    + destruct s1 as [|c2 [|c3 rest]].
      * eexists. cbn [matchDoclets app]. reflexivity.
      * eexists. cbn [matchDoclets app]. reflexivity.
      * rewrite !append_String, !matchDoclets_closed.
        destruct (isChar slash c1 && isChar asterisk c2
                  && isChar asterisk c3).
        -- apply IH. simpl in *. lia.
        -- rewrite <- !append_String.
           apply IH. simpl in *. lia.
Qed.

Lemma join_empty_cons p rest :
  JSText.join EmptyString (p :: rest) = p +:+ JSText.join EmptyString rest.
Proof.
  destruct rest as [|q rest]; cbn [JSText.join].
  - now rewrite append_empty_r.
  - reflexivity.
Qed.

Lemma join_empty_app l1 l2 :
  JSText.join EmptyString (l1 ++ l2)
  = JSText.join EmptyString l1 +:+ JSText.join EmptyString l2.
Proof.
  induction l1 as [|p l1 IH]; [reflexivity|].
  change ((p :: l1) ++ l2) with (p :: (l1 ++ l2)).
  now rewrite !join_empty_cons, IH, append_assoc.
Qed.

Lemma take_add n m s :
  JS.take (n + m) s = JS.take n s +:+ JS.take m (JS.drop n s).
Proof.
  revert s. induction n as [|n IH]; intros s.
  - destruct s; reflexivity.
  - destruct s as [|c s]; [now destruct m|].
    cbn [Nat.add JS.take JS.drop]. rewrite append_String. now rewrite IH.
Qed.

Lemma substring_longer (b e1 e2 : Z) s :
  (0 <= b)%Z -> (b <= e1)%Z -> (e1 <= e2)%Z ->
  exists more, JS.substring b e2 s = JS.substring b e1 s +:+ more.
Proof.
  intros Hb H1 H2. unfold JS.substring.
  rewrite !Nat.min_l, !Nat.max_r by lia.
  replace (Z.to_nat e2 - Z.to_nat b)%nat
    with ((Z.to_nat e1 - Z.to_nat b) + (Z.to_nat e2 - Z.to_nat e1))%nat
    by lia.
  rewrite take_add. eauto.
Qed.

(** X29. A node that is not classified does not become the previous node:
    the doclets before it are pushed as they are, and the search for the
    next node starts where it started for this one.  So every block found
    before the unclassified node is found again: the scratch file parsed
    for a later node begins with the scratch file parsed for this node. *)
Theorem getChildInfos_reads_blocks_again :
  forall isEndOfFileToken isVariableList classify parseDocletParts fullText
         rec previousNode tree rest,
    isEndOfFileToken (root tree) = false ->
    isVariableList (root tree) = false ->
    classify (root tree) = None ->
    childInfosLoop isEndOfFileToken isVariableList classify
      parseDocletParts fullText rec previousNode (tree :: rest)
    = match getDocletInfosBetween parseDocletParts fullText previousNode
              (root tree) with
      | Some _doclets =>
          option_map (app _doclets)
            (childInfosLoop isEndOfFileToken isVariableList classify
               parseDocletParts fullText rec previousNode rest)
      | None => None
      end
    /\ forall next,
         nodeId (nodeBase previousNode) <> nodeId (nodeBase (root tree)) ->
         nodeId (nodeBase previousNode) <> nodeId (nodeBase next) ->
         (0 <= getEnd (nodeBase previousNode))%Z ->
         (getEnd (nodeBase previousNode)
          <= getStart (nodeBase (root tree)))%Z ->
         (getStart (nodeBase (root tree)) <= getStart (nodeBase next))%Z ->
         getDocletsBetween parseDocletParts fullText previousNode next
         = filter (fun parts => parts <> [])
             (parseDocletParts (scratchText fullText previousNode next))
         /\ exists more,
              scratchText fullText previousNode next
              = scratchText fullText previousNode (root tree) +:+ more.
Proof.
  intros isEOF isVar classify parse fullText rec previousNode tree rest
    He Hv Hc.
  split.
  - cbn [childInfosLoop]. now rewrite He, Hv, Hc.
  - intros next Hid1 Hid2 H0 H1 H2. split; [reflexivity|].
    unfold scratchText.
    apply Nat.eqb_neq in Hid1, Hid2. rewrite Hid1, Hid2.
    destruct (substring_longer (getEnd (nodeBase previousNode))
                (getStart (nodeBase (root tree)))
                (getStart (nodeBase next)) fullText H0 H1 H2)
      as [tail ->].
    destruct (matchDoclets_app_length
                (String.length
                   (JS.substring (getEnd (nodeBase previousNode))
                      (getStart (nodeBase (root tree))) fullText))
                _ tail None (Nat.le_refl _)) as [blocks ->].
    rewrite fmap_app, join_empty_app. eauto.
Qed.

Lemma getChildInfos_reads_blocks_again_witness :
  exists more,
    scratchText Sample.docFullText Reread.first Reread.next
    = scratchText Sample.docFullText Reread.first Reread.unclassified
      +:+ more.
Proof.
  destruct (getChildInfos_reads_blocks_again
              Classified.isEndOfFileToken Classified.isVariableList
              Classified.classify Sample.docParser Sample.docFullText
              (fun _ => Some []) Reread.first
              (TreeNode Reread.unclassified []) []
              eq_refl eq_refl eq_refl) as [_ H].
  destruct (H Reread.next) as [_ Hmore];
    [discriminate | discriminate | simpl; lia | simpl; lia
    | vm_compute; discriminate | exact Hmore].
Defined.

Example scratchText_of_the_unclassified_node :
  scratchText Sample.docFullText Reread.first Reread.unclassified
  = Sample.docBlock +:+ scratchSuffix.
Proof. vm_compute. reflexivity. Qed.

(** ** [newDocletInfo] on the store: a copy that shares nothing *)

Lemma setField_lookup_ne (h : list Store.object) (l0 l : nat) key v :
  l <> l0 -> Store.setField h l0 key v !! l = h !! l.
Proof.
  intros Hne. unfold Store.setField, Store.heap, Store.loc.
  destruct (h !! l0) as [[f|items]|]; try reflexivity.
  apply list_lookup_insert_ne. congruence.
Qed.

Lemma keepsExcept_refl l0 h : keepsExcept l0 h h.
Proof. intros l o _ H. exact H. Qed.

Lemma keepsExcept_trans l0 h1 h2 h3 :
  keepsExcept l0 h1 h2 -> keepsExcept l0 h2 h3 -> keepsExcept l0 h1 h3.
Proof. intros H1 H2 l o Hne Hl. apply H2; [exact Hne|]. now apply H1. Qed.

Lemma keepsExcept_setField l0 (h : list Store.object) key v :
  keepsExcept l0 h (Store.setField h l0 key v).
Proof. intros l o Hne Hl. now rewrite setField_lookup_ne. Qed.

Lemma keepsExcept_app l0 (h ext : list Store.object) :
  keepsExcept l0 h (h ++ ext).
Proof. intros l o _ Hl. now apply lookup_app_l_Some. Qed.

Lemma sliceLoop_spec newTags fields :
  forall (hc : list Store.object) f,
    hc !! newTags = Some (Store.Obj f) ->
    NoDup (dictKeys f ++ dictKeys fields) ->
    tagMapInStore hc fields ->
    exists h' f',
      DocletStore.sliceLoop hc fields newTags = Store.Ok h'
      /\ keepsExcept newTags hc h'
      /\ h' !! newTags = Some (Store.Obj f')
      /\ dictKeys f' = dictKeys f ++ dictKeys fields
      /\ (forall k v, dictGet k f = Some v -> dictGet k f' = Some v)
      /\ (forall tag a items,
            (tag, Store.VRef a) ∈ fields ->
            hc !! a = Some (Store.Arr items) ->
            exists a',
              dictGet tag f' = Some (Store.VRef a')
              /\ (length hc <= a')%nat
              /\ h' !! a' = Some (Store.Arr items)).
Proof.
  induction fields as [|[tag v] rest IH]; intros hc f Hcell Hnd Hmap;
    cbn [DocletStore.sliceLoop].
  - exists hc, f. split; [reflexivity|]. split; [apply keepsExcept_refl|].
    split; [exact Hcell|]. split; [now rewrite app_nil_r|].
    split; [auto|]. intros t a items Hin. inversion Hin.
  - destruct (Hmap tag v ltac:(left)) as (a & items & -> & Ha).
    unfold Store.heap, Store.loc in *. rewrite Ha.
    unfold Store.alloc. cbn [fst snd].
    set (h1 := Store.setField (hc ++ [Store.Arr items]) newTags tag
                 (Store.VRef (length hc))).
    assert (Hdiff : forall b its,
               hc !! b = Some (Store.Arr its) -> b <> newTags).
    { intros b its Hb ->. unfold Store.heap, Store.loc in *.
      rewrite Hcell in Hb. discriminate. }
    assert (Hne : a <> newTags) by (eapply Hdiff; eauto).
    assert (Hlt : (newTags < length hc)%nat)
      by (now apply lookup_lt_Some in Hcell).
    assert (Hfresh : dictGet tag f = None).
    { apply dictGet_None_keys. intros Hk.
      apply NoDup_app in Hnd as (_ & Hdis & _).
      apply (Hdis tag Hk). left. }
    assert (Hstep : keepsExcept newTags hc h1).
    { eapply keepsExcept_trans; [apply keepsExcept_app|].
      apply keepsExcept_setField. }
    assert (Hnew : h1 !! length hc = Some (Store.Arr items)).
    { unfold h1. rewrite setField_lookup_ne by lia.
      exact (list_lookup_middle hc [] (Store.Arr items) (length hc) eq_refl). }
    assert (Hlen1 : length h1 = S (length hc)).
    { unfold h1. rewrite setField_length, length_app. simpl. lia. }
    destruct (IH h1 (dictSet tag (Store.VRef (length hc)) f))
      as (h' & f' & Hrun & Hkeep & Hcell' & Hkeys & Hold & Hnewer).
    + unfold h1. apply setField_lookup. now apply lookup_app_l_Some.
    + rewrite dictKeys_dictSet, Hfresh, <- app_assoc. exact Hnd.
    + intros t w Hin.
      destruct (Hmap t w ltac:(now right)) as (b & its & -> & Hb).
      exists b, its. split; [reflexivity|].
      apply Hstep; [eapply Hdiff; eauto | exact Hb].
    + exists h', f'. split; [exact Hrun|].
      split; [eapply keepsExcept_trans; eauto|].
      split; [exact Hcell'|]. split; [|split].
      * rewrite Hkeys, dictKeys_dictSet, Hfresh, <- app_assoc. reflexivity.
      * intros k w Hk. apply Hold.
        rewrite dictGet_dictSet_ne; [exact Hk | congruence].
      * intros t b its Hin Hb.
        apply elem_of_cons in Hin as [Hin|Hin].
        -- injection Hin as -> ->.
           assert (its = items) by congruence. subst its.
           exists (length hc). split; [apply Hold, dictGet_dictSet_eq|].
           split; [lia|]. apply Hkeep; [lia | exact Hnew].
        -- destruct (Hnewer t b its Hin) as (b' & Hg & Hge & Hb').
           { apply Hstep; [eapply Hdiff; eauto | exact Hb]. }
           exists b'. split; [exact Hg|]. split; [lia | exact Hb'].
Qed.

Lemma getField_kept (h h2 : list Store.object) l key v :
  (forall l' o, h !! l' = Some o -> h2 !! l' = Some o) ->
  Store.getField h l key = v -> v <> Store.VUndefined ->
  Store.getField h2 l key = v.
Proof.
  unfold Store.getField. intros Hkeep Hv Hne.
  unfold Store.heap, Store.loc in *.
  destruct (h !! l) as [o|] eqn:E; [|congruence].
  now rewrite (Hkeep l o E).
Qed.

Lemma tagValues_kept (h h2 : list Store.object) template tg fields tag :
  (forall l o, h !! l = Some o -> h2 !! l = Some o) ->
  Store.getField h template "tags" = Store.VRef tg ->
  h !! tg = Some (Store.Obj fields) ->
  tagMapInStore h fields ->
  Store.tagValues h2 template tag = Store.tagValues h template tag.
Proof.
  intros Hkeep Ht Htg Hmap. unfold Store.tagValues.
  rewrite (getField_kept h h2 template "tags" _ Hkeep Ht) by discriminate.
  rewrite Ht. unfold Store.getField, Store.isArray.
  unfold Store.heap, Store.loc in *.
  rewrite (Hkeep tg _ Htg), Htg. cbn [Store.entries].
  destruct (dictGet tag fields) as [v|] eqn:E; [|reflexivity].
  destruct (Hmap tag v (dictGet_elem_of _ _ _ E)) as (a & items & -> & Ha).
  cbn. pose proof (Hkeep a _ Ha) as Ha2.
  unfold Store.heap, Store.loc in *. now rewrite Ha2, Ha.
Qed.

Lemma addTag_keeps (h : list Store.object) doclet tag text h2 t n :
  Store.getField h doclet "tags" = Store.VRef t ->
  (n <= t)%nat -> (n <= length h)%nat ->
  (forall a, Store.getField h t tag = Store.VRef a -> (n <= a)%nat) ->
  Store.addTag h doclet tag text = Store.Ok h2 ->
  forall l o, (l < n)%nat -> h !! l = Some o -> h2 !! l = Some o.
Proof.
  intros Ht Hn Hlen Harr H l o Hl Ho. unfold Store.addTag in H.
  rewrite Ht in H.
  destruct (Store.truthy (Store.getField h t tag)) eqn:Htr.
  - destruct (JSText.truthy text); [|now injection H as <-].
    destruct (Store.getField h t tag) as [| | | | |a] eqn:Ea;
      try discriminate.
    match type of H with
    | context [match ?x with _ => _ end] =>
        destruct x as [[f|items]|]; try discriminate
    end.
    injection H as <-. pose proof (Harr a eq_refl).
    etrans; [apply list_lookup_insert_ne; lia | exact Ho].
  - unfold Store.alloc in H. cbn [fst snd] in H.
    assert (H1 : Store.setField (h ++ [Store.Arr []]) t tag
                   (Store.VRef (length h)) !! l = Some o).
    { rewrite setField_lookup_ne by lia. now apply lookup_app_l_Some. }
    destruct (JSText.truthy text); [|now injection H as <-].
    match type of H with
    | context [match ?x with _ => _ end] =>
        destruct x as [[f|items]|]; try discriminate
    end.
    injection H as <-.
    etrans; [apply list_lookup_insert_ne; lia | exact H1].
Qed.

(** X30. [newDocletInfo(template)] makes a doclet that shares nothing
    with its template: the doclet, its tag map and every array of texts
    are new objects, the texts are those of the template, and the store
    is otherwise as it was.  So a tag added to the copy afterwards leaves
    every tag of the template as it was (unlike the copies that
    [newCodeInfo] makes of a doclet). *)
Theorem newDocletInfo_shares_nothing :
  forall (h : Store.heap) template tg fields,
    Store.getField h template "tags" = Store.VRef tg ->
    h !! tg = Some (Store.Obj fields) ->
    NoDup (dictKeys fields) ->
    tagMapInStore h fields ->
    exists h' doclet,
      DocletStore.newDocletInfo h (Some template) = Store.Ok (h', doclet)
      /\ (forall l o, h !! l = Some o -> h' !! l = Some o)
      /\ (length h <= doclet)%nat
      /\ Store.getField h' doclet "kind" = Store.VString "Doclet"
      /\ (forall tag,
            Store.tagValues h' doclet tag = Store.tagValues h template tag)
      /\ (forall tag text h'',
            Store.addTag h' doclet tag text = Store.Ok h'' ->
            forall tag',
              Store.tagValues h'' template tag'
              = Store.tagValues h template tag').
Proof.
  intros h template tg fields Ht Htg Hnd Hmap.
  unfold Store.heap, Store.loc in *.
  set (newTags := length h).
  set (h1 := h ++ [Store.Obj []]).
  set (docletObject := Store.Obj [("kind", Store.VString "Doclet");
                                  ("tags", Store.VRef newTags)]).
  set (h2 := h1 ++ [docletObject]).
  set (doclet := length h1).
  assert (Hkeep2 : forall l o, h !! l = Some o -> h2 !! l = Some o).
  { intros l o Hl. unfold h2, h1. now do 2 apply lookup_app_l_Some. }
  assert (Hcell2 : h2 !! newTags = Some (Store.Obj [])).
  { unfold h2. apply lookup_app_l_Some.
    exact (list_lookup_middle h [] (Store.Obj []) newTags eq_refl). }
  assert (Hdoclet2 : h2 !! doclet = Some docletObject).
  { exact (list_lookup_middle h1 [] docletObject doclet eq_refl). }
  assert (Hmap2 : tagMapInStore h2 fields).
  { intros tag v Hin. destruct (Hmap tag v Hin) as (a & items & -> & Ha).
    exists a, items. split; [reflexivity | now apply Hkeep2]. }
  destruct (sliceLoop_spec newTags fields h2 [] Hcell2 Hnd Hmap2)
    as (h3 & f' & Hrun & Hkeep3 & Hcell3 & Hkeys & _ & Hnew).
  change (dictKeys f' = dictKeys fields) in Hkeys.
  assert (Hlen1 : doclet = S newTags).
  { unfold doclet, h1, newTags. rewrite length_app. simpl. lia. }
  assert (Hold : forall l o, h !! l = Some o -> h3 !! l = Some o).
  { intros l o Hl. apply Hkeep3; [|now apply Hkeep2].
    apply lookup_lt_Some in Hl. unfold newTags. lia. }
  assert (Hdoclet3 : h3 !! doclet = Some docletObject).
  { apply Hkeep3; [lia | exact Hdoclet2]. }
  assert (Htags3 : Store.getField h3 doclet "tags" = Store.VRef newTags).
  { unfold Store.getField. unfold Store.heap, Store.loc in *.
    now rewrite Hdoclet3. }
  assert (Hfield3 : forall tag,
             Store.getField h3 newTags tag
             = default Store.VUndefined (dictGet tag f')).
  { intros tag. unfold Store.getField. unfold Store.heap, Store.loc in *.
    now rewrite Hcell3. }
  assert (Hcopy : forall tag a items,
             dictGet tag fields = Some (Store.VRef a) ->
             h !! a = Some (Store.Arr items) ->
             exists a',
               dictGet tag f' = Some (Store.VRef a')
               /\ (length h2 <= a')%nat
               /\ h3 !! a' = Some (Store.Arr items)).
  { intros tag a items Hg Ha.
    apply (Hnew tag a items); [now apply dictGet_elem_of | now apply Hkeep2]. }
  assert (Hrun' : DocletStore.newDocletInfo h (Some template)
                  = Store.Ok (h3, doclet)).
  { unfold DocletStore.newDocletInfo, Store.alloc.
    fold newTags. fold h1. fold docletObject. fold h2. fold doclet.
    rewrite (getField_kept h h2 template "tags" _ Hkeep2 Ht)
      by discriminate.
    unfold Store.heap, Store.loc in *.
    rewrite (Hkeep2 tg _ Htg). cbn [Store.entries]. now rewrite Hrun. }
  exists h3, doclet. split; [exact Hrun'|]. split; [exact Hold|].
  split; [lia|]. split; [|split].
  - unfold Store.getField. unfold Store.heap, Store.loc in *.
    now rewrite Hdoclet3.
  - intros tag. unfold Store.tagValues. rewrite Htags3, Ht, Hfield3.
    unfold Store.getField. unfold Store.heap, Store.loc in *.
    rewrite Htg. cbn [Store.entries].
    destruct (dictGet tag fields) as [v|] eqn:E.
    + destruct (Hmap tag v (dictGet_elem_of _ _ _ E))
        as (a & items & -> & Ha).
      destruct (Hcopy tag a items E Ha) as (a' & -> & _ & Ha').
      cbn. unfold Store.heap, Store.loc in *. now rewrite Ha', Ha.
    + assert (Hn : dictGet tag f' = None).
      { apply dictGet_None_keys. rewrite Hkeys.
        now apply dictGet_None_keys. }
      now rewrite Hn.
  - intros tag text h'' Hadd tag'.
    apply (tagValues_kept h h'' template tg fields tag'); auto.
    intros l o Hl.
    apply (addTag_keeps h3 doclet tag text h'' newTags (length h)
             Htags3 (Nat.le_refl _)); auto.
    + apply lookup_lt_Some in Hcell3. unfold newTags in Hcell3. lia.
    + intros a Ha. rewrite Hfield3 in Ha.
      destruct (dictGet tag f') as [v|] eqn:E; [|discriminate].
      cbn in Ha. subst v.
      destruct (dictGet tag fields) as [w|] eqn:Ew.
      * destruct (Hmap tag w (dictGet_elem_of _ _ _ Ew))
          as (a0 & items & -> & Ha0).
        destruct (Hcopy tag a0 items Ew Ha0) as (a' & Hg & Hge & _).
        assert (a = a') by congruence. subst a'.
        unfold h2 in Hge. rewrite length_app in Hge.
        unfold h1 in Hge. rewrite length_app in Hge. lia.
      * exfalso. apply dictGet_None_keys in Ew. rewrite <- Hkeys in Ew.
        apply dictGet_None_keys in Ew. congruence.
    + now apply lookup_lt_Some in Hl.
Qed.

Lemma newDocletInfo_shares_nothing_witness :
  exists h' doclet,
    DocletStore.newDocletInfo Copied.docletHeap (Some 2%nat)
    = Store.Ok (h', doclet)
    /\ Store.tagValues h' doclet "since" = Some [Store.VString "1.0"]
    /\ (forall h'',
          Store.addTag h' doclet "since" "2.0" = Store.Ok h'' ->
          Store.tagValues h'' 2%nat "since" = Some [Store.VString "1.0"]).
Proof.
  destruct (newDocletInfo_shares_nothing Copied.docletHeap 2%nat 1%nat
              [("since", Store.VRef 0)] eq_refl eq_refl)
    as (h' & doclet & Hrun & _ & _ & _ & Hsame & Hsafe).
  - repeat constructor. apply not_elem_of_nil.
  - intros tag v Hin. apply list_elem_of_singleton in Hin.
    injection Hin as -> ->. now exists 0%nat, [Store.VString "1.0"].
  - exists h', doclet. split; [exact Hrun|]. split.
    + now rewrite Hsame.
    + intros h'' Hadd. now rewrite (Hsafe _ _ _ Hadd).
Defined.
